(** * Room membership and session negotiation of the WebRTC client

    A shallow embedding of [src/App.vue] (the orchestrator: membership
    table, join, publish, subscribe, notification handlers, mute control),
    of [src/peerConnectionWrap/PCWrap.ts] (the capability set wrapper) and
    of the [Device] capture helper.

    Objects that the TypeScript code shares and mutates (participants,
    wrappers, streams, tracks, subscribe calls) carry the reference that
    identifies them; asynchronous functions are cut at their [await]s, and an
    event of the page (a notification, a click, a settled promise, a track
    delivered by a peer connection) is one step of the state machine [step]. *)

From Stdlib Require Import ZArith String Ascii DecimalString Lia.
From stdpp Require Import base list gmap strings.

Open Scope string_scope.
Open Scope list_scope.

(** ** JavaScript values and strings *)

Module Js.

(** The values a [userId] or a response [code] of a signaling payload can
    hold.  Numbers are the integral ones. *)
Inductive value :=
| Undefined
| Null
| Num (n : Z)
| Str (s : string).

#[global] Instance value_eq_dec : EqDecision value.
Proof. solve_decision. Defined.

(** [String(v)] *)
Definition String (v : value) : string :=
  match v with
  | Undefined => "undefined"
  | Null => "null"
  | Num n => NilZero.string_of_int (Z.to_int n)
  | Str s => s
  end.

(** [a === b] *)
Definition strict_eq (a b : value) : bool := bool_decide (a = b).

(** JavaScript truthiness of an optional boolean field ([undefined] is
    falsy) and [!x] on it. *)
Definition truthy (b : option bool) : bool := default false b.

(** Truthiness of a string: the empty string is falsy. *)
Definition truthy_string (s : string) : bool := negb (String.eqb s "").

(** White space as [String.prototype.trim] sees it, for the code units a
    [string] carries here (one [ascii] per code unit below 256): TAB, LF,
    VT, FF, CR, SP and NBSP. *)
Definition is_white_space (a : ascii) : bool :=
  let n := nat_of_ascii a in
  ((9 <=? n)%nat && (n <=? 13)%nat) || (n =? 32)%nat || (n =? 160)%nat.

Fixpoint drop_white (l : list ascii) : list ascii :=
  match l with
  | [] => []
  | a :: r => if is_white_space a then drop_white r else l
  end.

(** [s.trim()] *)
Definition trim (s : string) : string :=
  string_of_list_ascii
    (rev (drop_white (rev (drop_white (list_ascii_of_string s))))).

End Js.

(** ** Media objects *)

Inductive MediaKind := audio | video.

#[global] Instance MediaKind_eq_dec : EqDecision MediaKind.
Proof. solve_decision. Defined.

(** A [MediaStreamTrack] object.  [enabled] is the mutable flag;
    [session] is the participant reference ([uref]) whose receive session
    delivered the track ([None] for a locally captured one). *)
Record Track := mkTrack {
  kind : MediaKind;
  enabled : bool;
  session : option nat
}.

(** The track objects of the page, by reference. *)
Abbreviation TrackStore := (gmap nat Track).

(** A [MediaStream] object: its reference and [getTracks()] as track
    references. *)
Record MediaStream := mkMediaStream {
  sid : nat;
  tracks : list nat
}.

(** [stream.addTrack(t)]: a track already in the stream is not added again. *)
Definition addTrack (s : MediaStream) (t : nat) : MediaStream :=
  if bool_decide (t ∈ tracks s) then s
  else mkMediaStream (sid s) (tracks s ++ [t]).

Inductive Result (A : Type) :=
| Ok (a : A)
| Err (message : string).
Arguments Ok {A} a.
Arguments Err {A} message.

(** ** PCWrap.ts *)

Module PCWrap.

Inductive PCDirection := sendonly | recvonly | sendrecv.

#[global] Instance PCDirection_eq_dec : EqDecision PCDirection.
Proof. solve_decision. Defined.

Record RecvTransceiverSpec := mkSpec {
  type : MediaKind;
  pusher_id : string
}.

Record Transceiver := mkTransceiver {
  tr_kind : MediaKind;
  tr_direction : PCDirection
}.

(** The part of an [RTCPeerConnection] the wrapper reads and writes. *)
Record RTCPeerConnection := mkPC {
  transceivers : list Transceiver;      (* getTransceivers() *)
  senders : list nat;                   (* tracks of getSenders() *)
  remoteDescription : option string
}.

(** A [PCWrap] object.  [wid] is its reference; [trackListeners] are the
    listeners registered with [on('track', ...)], each named by the
    subscribe call that registered it. *)
Record t := mk {
  wid : nat;
  pc : option RTCPeerConnection;
  localStream : option MediaStream;
  direction : PCDirection;
  recvMap : gmap string string;         (* pusher_id -> mid *)
  trackListeners : list nat
}.

Definition set_pc (w : t) (p : option RTCPeerConnection) : t :=
  mk (wid w) p (localStream w) (direction w) (recvMap w) (trackListeners w).
Definition set_localStream (w : t) (s : option MediaStream) : t :=
  mk (wid w) (pc w) s (direction w) (recvMap w) (trackListeners w).
Definition set_recvMap (w : t) (m : gmap string string) : t :=
  mk (wid w) (pc w) (localStream w) (direction w) m (trackListeners w).
Definition set_trackListeners (w : t) (l : list nat) : t :=
  mk (wid w) (pc w) (localStream w) (direction w) (recvMap w) l.

(** [new PCWrap({ direction })] *)
Definition new (ref : nat) (d : PCDirection) : t :=
  mk ref None None d ∅ [].

(** [on('track', listener)] and the unsubscribe function it returns. *)
Definition on_track (w : t) (listener : nat) : t :=
  set_trackListeners w (trackListeners w ++ [listener]).
Definition unsubscribe (w : t) (listener : nat) : t :=
  set_trackListeners w
    (filter (fun l => l ≠ listener) (trackListeners w)).

(** [initPeerConnection()]: the connection, and the wrapper holding it. *)
Definition initPeerConnection (w : t) : RTCPeerConnection * t :=
  match pc w with
  | Some p => (p, w)
  | None =>
      let sent :=
        if bool_decide (direction w = recvonly) then []
        else match localStream w with
             | Some s => tracks s
             | None => []
             end in
      let p := mkPC [] sent None in
      (p, set_pc w (Some p))
  end.

(** [openDevices(constraints)].  [captured] is what [getUserMedia] yields
    if it is invoked: a stream, or the error it rejects with.  The third
    component tells whether it was invoked. *)
Definition openDevices (w : t) (captured : Result MediaStream)
  : t * Result MediaStream * bool :=
  match localStream w with
  | Some s => (w, Ok s, false)
  | None =>
      if bool_decide (direction w = recvonly)
      then (w, Err "openDevices() not valid in recvonly mode", false)
      else match captured with
           | Ok s => (set_localStream w (Some s), Ok s, true)
           | Err e => (w, Err e, true)
           end
  end.

(** The loop of [addTransceivers]: a spec whose [pusher_id] is a key of
    [recvMap] is skipped; another one adds a recvonly transceiver and the
    key, with the placeholder mid. *)
Fixpoint reserve (specs : list RecvTransceiverSpec)
    (p : RTCPeerConnection) (m : gmap string string)
  : RTCPeerConnection * gmap string string :=
  match specs with
  | [] => (p, m)
  | spec :: rest =>
      match m !! pusher_id spec with
      | Some _ => reserve rest p m
      | None =>
          reserve rest
            (mkPC (transceivers p ++ [mkTransceiver (type spec) recvonly])
                  (senders p) (remoteDescription p))
            (<[pusher_id spec := ""]> m)
      end
  end.

(** [addTransceivers(specs)] *)
Definition addTransceivers (w : t) (specs : list RecvTransceiverSpec) : Result t :=
  if negb (bool_decide (direction w = recvonly))
  then Err "addTransceivers() only valid when direction=recvonly"
  else
    let '(p, w1) := initPeerConnection w in
    let '(p', m') := reserve specs p (recvMap w1) in
    Ok (set_recvMap (set_pc w1 (Some p')) m').

(** [attachLocalTracks()]: a local track is added unless some sender (as
    read before the loop) already carries a track of its kind. *)
Definition carries (store : TrackStore) (k : MediaKind) (sender : nat) : bool :=
  bool_decide (kind <$> store !! sender = Some k).

Definition attachLocalTracks (store : TrackStore) (w : t) : t :=
  match pc w, localStream w with
  | Some p, Some s =>
      let already (tr : nat) :=
        match store !! tr with
        | Some x => existsb (carries store (kind x)) (senders p)
        | None => false
        end in
      let added := filter (fun tr => already tr = false) (tracks s) in
      set_pc w (Some (mkPC (transceivers p) (senders p ++ added) (remoteDescription p)))
  | _, _ => w
  end.

(** [setLocalStream(stream)]: the stream is stored; with a connection the
    local tracks are attached at once. *)
Definition setLocalStream (store : TrackStore) (w : t) (s : MediaStream) : t :=
  let w1 := set_localStream w (Some s) in
  match pc w1 with
  | Some _ => attachLocalTracks store w1
  | None => w1
  end.

(** [createOfferAndEmit()] up to its first [await]: the connection is
    initialised if needed; a recvonly wrapper without transceivers throws,
    another direction attaches the local tracks. *)
Definition createOfferAndEmit_begin (store : TrackStore) (w : t) : t * Result unit :=
  let '(p, w1) := initPeerConnection w in
  if bool_decide (direction w1 = recvonly)
  then
    if bool_decide (length (transceivers p) = 0)
    then (w1, Err "No transceivers found. Call addTransceivers() before createOfferAndEmit() in recvonly mode.")
    else (w1, Ok ())
  else (attachLocalTracks store w1, Ok ()).

(** [setRemoteDescription(answer)] *)
Definition setRemoteDescription (w : t) (answer : string) : t * Result unit :=
  match pc w with
  | None => (w, Err "RTCPeerConnection not initialized. Call initPeerConnection() first.")
  | Some p =>
      (set_pc w (Some (mkPC (transceivers p) (senders p) (Some answer))), Ok ())
  end.

(** [close()] *)
Definition close (w : t) : t :=
  set_localStream (set_pc w None) None.

End PCWrap.

(** ** Device (capture helper) *)

Module Device.

Record t := mk { stream : option MediaStream }.

(** [openDevices(constraints)], with [captured] and the returned flag as
    in [PCWrap.openDevices]. *)
Definition openDevices (d : t) (captured : Result MediaStream)
  : t * Result MediaStream * bool :=
  match stream d with
  | Some s => (d, Ok s, false)
  | None =>
      match captured with
      | Ok s => (mk (Some s), Ok s, true)
      | Err e => (d, Err e, true)
      end
  end.

Definition isOpen (d : t) : bool := bool_decide (is_Some (stream d)).

Definition close (d : t) : t := mk None.

End Device.

(** ** ProtooClientWrap.ts *)

Module ProtooClientWrap.

(** The [protoo-client] peer the wrapper holds: the URL its transport was
    built with ([None] for [null]) and its [closed] flag. *)
Record Peer := mkPeer {
  transport_url : option string;
  closed : bool
}.

(** A [ProtooClientWrap] object. *)
Record t := mk {
  peer : option Peer;
  url : option string
}.

(** [new ProtooClientWrap(options)] *)
Definition new : t := mk None None.

(** [connect(url)] up to the promise it returns, which settles when the
    peer opens or fails.  [made] is what building the transport and the
    peer for [url] does: it returns, or it throws (a URL the WebSocket
    constructor refuses); [this.url] is assigned before. *)
Definition connect (c : t) (u : option string) (made : Result unit) : t * Result unit :=
  match peer c with
  | Some _ => (c, Err "Already connected. Call close() first.")
  | None =>
      match made with
      | Ok _ => (mk (Some (mkPeer u false)) u, Ok ())
      | Err e => (mk None u, Err e)
      end
  end.

(** The guard of [sendRequest] and [sendNotify]; [Ok] is the call handed
    to the peer. *)
Definition guard (c : t) : Result unit :=
  match peer c with
  | None => Err "Not connected. Call connect() first."
  | Some p => if closed p then Err "Peer is closed." else Ok ()
  end.

(** [sendRequest(method, data)] up to [peer.request]. *)
Definition sendRequest (c : t) : Result unit := guard c.

(** [sendNotify(method, data)] *)
Definition sendNotify (c : t) : Result unit := guard c.

(** [isConnected()] *)
Definition isConnected (c : t) : bool :=
  match peer c with
  | Some p => negb (closed p)
  | None => false
  end.

Inductive ConnectionState := state_new | state_connecting | state_connected | state_closed.

(** [getState()] *)
Definition getState (c : t) : ConnectionState :=
  match peer c with
  | None => state_new
  | Some p => if closed p then state_closed else state_connected
  end.

(** [close()] *)
Definition close (c : t) : t := mk None None.

(** [reconnect()]: [this.url] is read for [connect] after [close()] ran. *)
Definition reconnect (c : t) (made : Result unit) : t * Result unit :=
  match url c with
  | Some u =>
      if Js.truthy_string u
      then let c1 := close c in connect c1 (url c1) made
      else (c, Err "No URL to reconnect to. Call connect() first.")
  | None => (c, Err "No URL to reconnect to. Call connect() first.")
  end.

(** The peer closes: its [closed] flag is set from then on. *)
Definition peer_closed (c : t) : t :=
  mk ((fun p => mkPeer (transport_url p) true) <$> peer c) (url c).

End ProtooClientWrap.

(** ** App.vue *)

Module App.

Import PCWrap.

Record RtpParam := mkRtpParam {
  av_type : MediaKind;
  channel : option Z;
  clock_rate : Z;
  codec : string;
  fmtp_param : string;
  key_request : bool;
  mid_ext_id : Z;
  payload_type : Z;
  rtcp_features : list string;
  rtx_payload_type : Z;
  rtx_ssrc : Z;
  ssrc : Z;
  tcc_ext_id : Z;
  use_nack : bool
}.

Record Pusher := mkPusher {
  rtpParam : RtpParam;
  pusherId : string
}.

(** A rendered [<video>] element, as far as the code writes it. *)
Record HTMLVideoElement := mkVideo {
  srcObject : option nat;               (* the bound stream *)
  muted : bool;
  opacity : string
}.

Inductive UserState := connected | disconnected.

(** A [RemoteUser] object; [uref] is its reference. *)
Record RemoteUser := mkRemoteUser {
  uref : nat;
  userId : string;
  userName : option string;
  pushers : list Pusher;
  videoRef : option HTMLVideoElement;
  receivePcWrap : option PCWrap.t;
  playStream : option MediaStream;
  videoMuted : option bool;
  audioMuted : option bool;
  state : option UserState
}.

Definition set_userName (u : RemoteUser) (n : option string) : RemoteUser :=
  mkRemoteUser (uref u) (userId u) n (pushers u) (videoRef u) (receivePcWrap u)
    (playStream u) (videoMuted u) (audioMuted u) (state u).
Definition set_pushers (u : RemoteUser) (l : list Pusher) : RemoteUser :=
  mkRemoteUser (uref u) (userId u) (userName u) l (videoRef u) (receivePcWrap u)
    (playStream u) (videoMuted u) (audioMuted u) (state u).
Definition set_videoRef (u : RemoteUser) (v : option HTMLVideoElement) : RemoteUser :=
  mkRemoteUser (uref u) (userId u) (userName u) (pushers u) v (receivePcWrap u)
    (playStream u) (videoMuted u) (audioMuted u) (state u).
Definition set_receivePcWrap (u : RemoteUser) (w : option PCWrap.t) : RemoteUser :=
  mkRemoteUser (uref u) (userId u) (userName u) (pushers u) (videoRef u) w
    (playStream u) (videoMuted u) (audioMuted u) (state u).
Definition set_playStream (u : RemoteUser) (s : option MediaStream) : RemoteUser :=
  mkRemoteUser (uref u) (userId u) (userName u) (pushers u) (videoRef u) (receivePcWrap u)
    s (videoMuted u) (audioMuted u) (state u).
Definition set_videoMuted (u : RemoteUser) (b : option bool) : RemoteUser :=
  mkRemoteUser (uref u) (userId u) (userName u) (pushers u) (videoRef u) (receivePcWrap u)
    (playStream u) b (audioMuted u) (state u).
Definition set_audioMuted (u : RemoteUser) (b : option bool) : RemoteUser :=
  mkRemoteUser (uref u) (userId u) (userName u) (pushers u) (videoRef u) (receivePcWrap u)
    (playStream u) (videoMuted u) b (state u).
Definition set_state (u : RemoteUser) (s : option UserState) : RemoteUser :=
  mkRemoteUser (uref u) (userId u) (userName u) (pushers u) (videoRef u) (receivePcWrap u)
    (playStream u) (videoMuted u) (audioMuted u) s.

(** The mute flag of a kind, as the conditions of the code read it. *)
Definition mutedFlag (u : RemoteUser) (k : MediaKind) : bool :=
  match k with
  | audio => Js.truthy (audioMuted u)
  | video => Js.truthy (videoMuted u)
  end.

(** A user entry of a signaling payload
    ([{ userId, userName, pushers }]); an absent field is [None]. *)
Record UserPayload := mkUserPayload {
  p_userId : Js.value;
  p_userName : option string;
  p_pushers : option (list Pusher)
}.

Record JoinResponse := mkJoinResponse {
  j_code : Js.value;
  j_users : option (list UserPayload)
}.

(** The response of [push] and of [pull]: [{ code, message, sdp }]. *)
Record SdpResponse := mkSdpResponse {
  r_code : Js.value;
  r_message : Js.value;
  r_sdp : string
}.

Inductive WsStatus := ws_disconnected | ws_connected | ws_joined.

(** Where a [pullRemoteUser] call stands. *)
Inductive PullPhase :=
| AwaitOffer                            (* await createOfferAndEmit() *)
| AwaitResponse                         (* await sendRequest('pull', ...) *)
| AwaitTracks                           (* await trackPromise *)
| TracksReady                           (* trackPromise resolved, continuation queued *)
| Fulfilled
| Rejected (reason : string).

#[global] Instance PullPhase_eq_dec : EqDecision PullPhase.
Proof. solve_decision. Defined.

(** One call of [pullRemoteUser]: its arguments and the locals its
    closures keep ([remoteUser], [tracks]). *)
Record PullCall := mkPull {
  pid : nat;
  targetUserId : string;
  specs : list RecvTransceiverSpec;
  remoteUser : option nat;
  tracks_ : list nat;
  phase : PullPhase
}.

Definition expectedTrackCount (p : PullCall) : nat := length (specs p).

Definition set_phase (p : PullCall) (ph : PullPhase) : PullCall :=
  mkPull (pid p) (targetUserId p) (specs p) (remoteUser p) (tracks_ p) ph.
Definition push_track (p : PullCall) (tr : nat) : PullCall :=
  mkPull (pid p) (targetUserId p) (specs p) (remoteUser p) (tracks_ p ++ [tr]) (phase p).

(** Where the [onJoin] call stands. *)
Inductive JoinPhase :=
| JoinIdle
| JoinConnecting                        (* await wsClient.connect(url) *)
| JoinRequesting                        (* await sendRequest('join', ...) *)
| JoinReturned.

(** What the page does to the outside. *)
Inductive Effect :=
| Alert (message : string)
| GetUserMedia
| Request (method : string).

Record State := mkState {
  remoteUsers : list RemoteUser;        (* remoteUsers.value *)
  departed : list RemoteUser;           (* objects spliced out of the array *)
  discarded : list PCWrap.t;            (* wrappers closed and dropped *)
  wsStatus : WsStatus;
  wsPeer : bool;                        (* wsClient.peer !== null *)
  joinPhase : JoinPhase;
  sendPcWarp : option PCWrap.t;
  videoEl : option HTMLVideoElement;    (* the local preview *)
  pulls : list PullCall;
  store : TrackStore;
  nextRef : nat;                        (* the next fresh reference *)
  effects : list Effect
}.

Definition set_remoteUsers (st : State) (x : list RemoteUser) : State :=
  mkState x (departed st) (discarded st) (wsStatus st) (wsPeer st) (joinPhase st)
    (sendPcWarp st) (videoEl st) (pulls st) (store st) (nextRef st) (effects st).
Definition set_departed (st : State) (x : list RemoteUser) : State :=
  mkState (remoteUsers st) x (discarded st) (wsStatus st) (wsPeer st) (joinPhase st)
    (sendPcWarp st) (videoEl st) (pulls st) (store st) (nextRef st) (effects st).
Definition set_discarded (st : State) (x : list PCWrap.t) : State :=
  mkState (remoteUsers st) (departed st) x (wsStatus st) (wsPeer st) (joinPhase st)
    (sendPcWarp st) (videoEl st) (pulls st) (store st) (nextRef st) (effects st).
Definition set_wsStatus (st : State) (x : WsStatus) : State :=
  mkState (remoteUsers st) (departed st) (discarded st) x (wsPeer st) (joinPhase st)
    (sendPcWarp st) (videoEl st) (pulls st) (store st) (nextRef st) (effects st).
Definition set_wsPeer (st : State) (x : bool) : State :=
  mkState (remoteUsers st) (departed st) (discarded st) (wsStatus st) x
    (joinPhase st) (sendPcWarp st) (videoEl st) (pulls st) (store st) (nextRef st)
    (effects st).
Definition set_joinPhase (st : State) (x : JoinPhase) : State :=
  mkState (remoteUsers st) (departed st) (discarded st) (wsStatus st) (wsPeer st) x
    (sendPcWarp st) (videoEl st) (pulls st) (store st) (nextRef st) (effects st).
Definition set_sendPcWarp (st : State) (x : option PCWrap.t) : State :=
  mkState (remoteUsers st) (departed st) (discarded st) (wsStatus st) (wsPeer st)
    (joinPhase st) x (videoEl st) (pulls st) (store st) (nextRef st) (effects st).
Definition set_videoEl (st : State) (x : option HTMLVideoElement) : State :=
  mkState (remoteUsers st) (departed st) (discarded st) (wsStatus st) (wsPeer st)
    (joinPhase st) (sendPcWarp st) x (pulls st) (store st) (nextRef st) (effects st).
Definition set_pulls (st : State) (x : list PullCall) : State :=
  mkState (remoteUsers st) (departed st) (discarded st) (wsStatus st) (wsPeer st)
    (joinPhase st) (sendPcWarp st) (videoEl st) x (store st) (nextRef st)
    (effects st).
Definition set_store (st : State) (x : TrackStore) : State :=
  mkState (remoteUsers st) (departed st) (discarded st) (wsStatus st) (wsPeer st)
    (joinPhase st) (sendPcWarp st) (videoEl st) (pulls st) x (nextRef st)
    (effects st).
Definition set_nextRef (st : State) (x : nat) : State :=
  mkState (remoteUsers st) (departed st) (discarded st) (wsStatus st) (wsPeer st)
    (joinPhase st) (sendPcWarp st) (videoEl st) (pulls st) (store st) x (effects st).
Definition emit (st : State) (e : Effect) : State :=
  mkState (remoteUsers st) (departed st) (discarded st) (wsStatus st) (wsPeer st)
    (joinPhase st) (sendPcWarp st) (videoEl st) (pulls st) (store st) (nextRef st)
    (effects st ++ [e]).

(** The page as loaded: the preview element is mounted, nothing else
    exists. *)
Definition initial : State :=
  mkState [] [] [] ws_disconnected false JoinIdle None (Some (mkVideo None true ""))
    [] ∅ 0 [].

(** [array.findIndex(f)] together with [array.find(f)]: the first entry
    that satisfies [f] and its index; [None] where [findIndex] is -1. *)
Fixpoint find_first {A} (f : A -> bool) (l : list A) : option (nat * A) :=
  match l with
  | [] => None
  | x :: r =>
      if f x then Some (0, x)
      else match find_first f r with
           | Some (i, y) => Some (S i, y)
           | None => None
           end
  end.

(** [array.splice(idx, 1)] *)
Definition splice1 {A} (idx : nat) (l : list A) : list A :=
  take idx l ++ drop (S idx) l.

(** A notification of the signaling channel: its method and data. *)
Inductive Notification :=
| newUser (users : list UserPayload)
| userDisconnect (id : Js.value)
| userReconnect (id : Js.value)
| newPusher (user : UserPayload)
| textMessage
| userLeave (id : Js.value)
| otherMethod.

(** What can happen to the page.  A settled promise comes with its
    outcome; [ClickOpen] comes with the outcomes of the awaits of
    [onOpenDevices], which touches the publish session and the preview
    only and is run in one piece. *)
Inductive Event :=
| Notified (n : Notification)
| ClickJoin
| SocketOpened
| SocketFailed
| SocketClosed
| JoinSettled (response : Result JoinResponse)
| ClickOpen (captured : Result (list MediaKind)) (offer : Result string)
    (response : Result SdpResponse)
| ClickMuteAudio (user : nat)
| ClickMuteVideo (user : nat)
| VideoMounted (user : nat)
| OfferSettled (pull : nat) (offer : Result string)
| PullSettled (pull : nat) (response : Result SdpResponse)
| TrackDelivered (user : nat) (k : MediaKind).

Section Orchestrator.

(** [String.prototype.normalize('NFC')] of the platform. *)
Variable nfc : string -> string.

(** [normalizeId(id)].  On the values of [Js.value] neither [String(id)]
    nor [normalize] throws, so the [catch] branch is not taken. *)
Definition normalizeId (id : Js.value) : string :=
  nfc (Js.trim (Js.String id)).

(** [pushers.map(p => ({ type: p.rtpParam.av_type, pusher_id: p.pusherId }))] *)
Definition specs_of (ps : list Pusher) : list RecvTransceiverSpec :=
  (fun p => mkSpec (av_type (rtpParam p)) (pusherId p)) <$> ps.

(** [wrap.addTransceivers(specs)] on a receive wrapper.  The method throws
    only for a wrapper that is not recvonly, and [App.vue] builds every
    receive wrapper recvonly (lemma [addTransceivers_recvonly]); the
    wrapper is returned as it is in that case. *)
Definition extend (w : PCWrap.t) (specs : list RecvTransceiverSpec) : PCWrap.t :=
  match addTransceivers w specs with
  | Ok w' => w'
  | Err _ => w
  end.

(** [createRemoteUser(user)], allocating from [ref]; the second component
    is the next fresh reference. *)
Definition createRemoteUser (ref : nat) (user : UserPayload) : RemoteUser * nat :=
  let remoteUser :=
    mkRemoteUser ref (normalizeId (p_userId user)) (p_userName user)
      (default [] (p_pushers user)) None None None None None None in
  if (0 <? length (pushers remoteUser))%nat then
    let w := PCWrap.new (ref + 1) recvonly in
    let stream := mkMediaStream (ref + 2) [] in
    (mkRemoteUser ref (userId remoteUser) (userName remoteUser) (pushers remoteUser)
       None (Some (extend w (specs_of (pushers remoteUser)))) (Some stream)
       (Some false) (Some false) None,
     ref + 3)
  else (remoteUser, ref + 1).

(** The test of the lookup loop of [upsertRemoteUser]. *)
Definition same_id (user : UserPayload) (u : RemoteUser) : bool :=
  bool_decide (normalizeId (Js.Str (userId u)) = normalizeId (p_userId user)).

(** The branch of [upsertRemoteUser] for an entry that exists; the second
    component is the next fresh reference. *)
Definition merge_user (ref : nat) (user : UserPayload) (existing : RemoteUser)
  : RemoteUser * nat :=
  let e1 := set_userName existing
              (match p_userName user with
               | Some n => Some n
               | None => userName existing
               end) in
  let newPushers := default [] (p_pushers user) in
  let pusherIds := pusherId <$> pushers existing in
  let fresh := filter (fun p => pusherId p ∉ pusherIds) newPushers in
  let e2 := set_pushers e1 (pushers e1 ++ fresh) in
  match receivePcWrap e2 with
  | Some w =>
      if (0 <? length newPushers)%nat then
        let specs := specs_of fresh in
        if (0 <? length specs)%nat
        then (set_receivePcWrap e2 (Some (extend w specs)), ref)
        else (e2, ref)
      else (e2, ref)
  | None =>
      if (0 <? length (pushers e2))%nat then
        let w := PCWrap.new ref recvonly in
        let stream := mkMediaStream (ref + 1) [] in
        (set_playStream
           (set_receivePcWrap e2 (Some (extend w (specs_of (pushers e2)))))
           (Some stream),
         ref + 2)
      else (e2, ref)
  end.

(** [upsertRemoteUser(user)]: the new state and the entry returned. *)
Definition upsertRemoteUser (user : UserPayload) (st : State) : State * RemoteUser :=
  match find_first (same_id user) (remoteUsers st) with
  | Some (idx, existing) =>
      let '(e, ref) := merge_user (nextRef st) user existing in
      (set_nextRef (set_remoteUsers st (<[idx := e]> (remoteUsers st))) ref, e)
  | None =>
      let '(created, ref) := createRemoteUser (nextRef st) user in
      (set_nextRef (set_remoteUsers st (remoteUsers st ++ [created])) ref, created)
  end.

(** [track.enabled = b] *)
Definition set_enabled (m : TrackStore) (tr : nat) (b : bool) : TrackStore :=
  alter (fun x => mkTrack (kind x) b (session x)) tr m.

(** [setTrackEnabledForUser(user, kind, enabled)] *)
Definition setTrackEnabledForUser (m : TrackStore) (u : RemoteUser)
    (k : MediaKind) (en : bool) : TrackStore * RemoteUser :=
  let m' :=
    match playStream u with
    | Some s =>
        fold_left
          (fun acc tr =>
             if bool_decide (kind <$> acc !! tr = Some k)
             then set_enabled acc tr en else acc)
          (tracks s) m
    | None => m
    end in
  let v :=
    match videoRef u with
    | Some el =>
        Some (match k with
              | audio => mkVideo (srcObject el) (negb en) (opacity el)
              | video => mkVideo (srcObject el) (muted el) (if en then "1" else "0.45")
              end)
    | None => None
    end in
  (m', set_videoRef u v).

Definition toggleAudioMute (m : TrackStore) (u : RemoteUser) : TrackStore * RemoteUser :=
  let u1 := set_audioMuted u (Some (negb (Js.truthy (audioMuted u)))) in
  setTrackEnabledForUser m u1 audio (negb (Js.truthy (audioMuted u1))).

Definition toggleVideoMute (m : TrackStore) (u : RemoteUser) : TrackStore * RemoteUser :=
  let u1 := set_videoMuted u (Some (negb (Js.truthy (videoMuted u)))) in
  setTrackEnabledForUser m u1 video (negb (Js.truthy (videoMuted u1))).

(** *** pullRemoteUser *)

Definition has_uref (r : nat) (u : RemoteUser) : bool := bool_decide (uref u = r).
Definition has_pid (i : nat) (p : PullCall) : bool := bool_decide (pid p = i).

(** The object a closure holds by reference [r]: an entry of the array, or
    an object spliced out of it. *)
Definition lookup_user (st : State) (r : nat) : option RemoteUser :=
  match find_first (has_uref r) (remoteUsers st) with
  | Some (_, u) => Some u
  | None => snd <$> find_first (has_uref r) (departed st)
  end.

(** A write through that reference. *)
Definition update_user (st : State) (r : nat) (f : RemoteUser -> RemoteUser) : State :=
  match find_first (has_uref r) (remoteUsers st) with
  | Some (idx, u) => set_remoteUsers st (<[idx := f u]> (remoteUsers st))
  | None =>
      match find_first (has_uref r) (departed st) with
      | Some (idx, u) => set_departed st (<[idx := f u]> (departed st))
      | None => st
      end
  end.

Definition update_pull (st : State) (i : nat) (f : PullCall -> PullCall) : State :=
  match find_first (has_pid i) (pulls st) with
  | Some (idx, p) => set_pulls st (<[idx := f p]> (pulls st))
  | None => st
  end.

Definition lookup_pull (st : State) (i : nat) : option PullCall :=
  snd <$> find_first (has_pid i) (pulls st).

Definition not_found (target : string) : string :=
  "Remote user " +:+ target +:+ " not found or has no receivePcWrap".

(** [pullRemoteUser(roomId, targetUserId, specs)] up to its first [await]:
    the call is recorded with the phase it reaches. *)
Definition pullRemoteUser (target : string) (sp : list RecvTransceiverSpec)
    (st : State) : State :=
  let i := nextRef st in
  let st0 := set_nextRef st (S i) in
  let call (r : option nat) (ph : PullPhase) := mkPull i target sp r [] ph in
  match find_first (fun u => bool_decide (userId u = target)) (remoteUsers st0) with
  | Some (idx, u) =>
      match receivePcWrap u with
      | Some w =>
          let '(w', r) := createOfferAndEmit_begin (store st0) w in
          let st1 := set_remoteUsers st0
                       (<[idx := set_receivePcWrap u (Some w')]> (remoteUsers st0)) in
          match r with
          | Ok _ => set_pulls st1 (pulls st1 ++ [call (Some (uref u)) AwaitOffer])
          | Err e => set_pulls st1 (pulls st1 ++ [call (Some (uref u)) (Rejected e)])
          end
      | None =>
          set_pulls st0 (pulls st0 ++ [call (Some (uref u)) (Rejected (not_found target))])
      end
  | None => set_pulls st0 (pulls st0 ++ [call None (Rejected (not_found target))])
  end.

(** [createOfferAndEmit()] of call [i] settles: the pull request is sent,
    or the call rejects. *)
Definition offer_settled (i : nat) (offer : Result string) (st : State) : State :=
  match lookup_pull st i with
  | Some p =>
      match phase p, offer with
      | AwaitOffer, Ok _ =>
          emit (update_pull st i (fun p => set_phase p AwaitResponse)) (Request "pull")
      | AwaitOffer, Err e => update_pull st i (fun p => set_phase p (Rejected e))
      | _, _ => st
      end
  | None => st
  end.

Definition pull_failed (code message : Js.value) : string :=
  "Pull failed with code: " +:+ Js.String code +:+ ", message: " +:+ Js.String message.

Definition no_wrap : string :=
  "TypeError: Cannot read properties of undefined".

(** The [pull] request of call [i] settles: on code 0 the answer is set
    and the track listener registered. *)
Definition pull_settled (i : nat) (response : Result SdpResponse) (st : State) : State :=
  match lookup_pull st i with
  | Some p =>
      match phase p, response with
      | AwaitResponse, Err e => update_pull st i (fun p => set_phase p (Rejected e))
      | AwaitResponse, Ok r =>
          if negb (Js.strict_eq (r_code r) (Js.Num 0))
          then update_pull st i
                 (fun p => set_phase p (Rejected (pull_failed (r_code r) (r_message r))))
          else
            match remoteUser p ≫= lookup_user st with
            | Some u =>
                match receivePcWrap u with
                | Some w =>
                    match setRemoteDescription w (r_sdp r) with
                    | (w1, Ok _) =>
                        update_pull
                          (update_user st (uref u)
                             (fun u => set_receivePcWrap u (Some (on_track w1 i))))
                          i (fun p => set_phase p AwaitTracks)
                    | (_, Err e) => update_pull st i (fun p => set_phase p (Rejected e))
                    end
                | None => update_pull st i (fun p => set_phase p (Rejected no_wrap))
                end
            | None => update_pull st i (fun p => set_phase p (Rejected no_wrap))
            end
      | _, _ => st
      end
  | None => st
  end.

(** The listener of call [i], run on the wrapper of the entry at [idx]
    with the delivered track: the track is collected; with enough tracks
    the listener is removed and the promise resolved. *)
Definition track_listener (idx : nat) (tr : nat) (st : State) (i : nat) : State :=
  match lookup_pull st i with
  | Some p =>
      let p1 := push_track p tr in
      if (expectedTrackCount p1 <=? length (tracks_ p1))%nat
      then
        let st1 := update_pull st i (fun _ => set_phase p1 TracksReady) in
        match remoteUsers st1 !! idx with
        | Some u =>
            set_remoteUsers st1
              (<[idx := set_receivePcWrap u ((fun w => PCWrap.unsubscribe w i) <$> receivePcWrap u)]>
                 (remoteUsers st1))
        | None => st1
        end
      else update_pull st i (fun _ => p1)
  | None => st
  end.

(** One turn of the loop that adds the collected tracks: the mute flag of
    the track's kind, as it is now, disables the track. *)
Definition respect_mute (u : RemoteUser) (m : TrackStore) (tr : nat) : TrackStore :=
  match m !! tr with
  | Some x => if mutedFlag u (kind x) then set_enabled m tr false else m
  | None => m
  end.

(** The code after [await trackPromise] of call [i]. *)
Definition tracks_collected (st : State) (i : nat) : State :=
  match lookup_pull st i with
  | Some p =>
      match phase p, remoteUser p ≫= lookup_user st with
      | TracksReady, Some u =>
          match playStream u with
          | Some s =>
              let m := fold_left (respect_mute u) (tracks_ p) (store st) in
              let s' := fold_left addTrack (tracks_ p) s in
              let v := match videoRef u with
                       | Some el => Some (mkVideo (Some (sid s')) false (opacity el))
                       | None => None
                       end in
              update_pull
                (update_user (set_store st m) (uref u)
                   (fun u => set_videoRef (set_playStream u (Some s')) v))
                i (fun p => set_phase p Fulfilled)
          | None =>
              (* playStream!.addTrack throws at the first track *)
              let m := match tracks_ p with
                       | tr :: _ => respect_mute u (store st) tr
                       | [] => store st
                       end in
              update_pull (set_store st m) i (fun p => set_phase p (Rejected no_wrap))
          end
      | _, _ => st
      end
  | None => st
  end.

(** The peer connection of the entry with reference [r] delivers a track
    of kind [k]: [ontrack] dispatches it to the listeners registered at
    that moment, then the continuations of the resolved calls run. *)
Definition track_delivered (r : nat) (k : MediaKind) (st : State) : State :=
  match find_first (has_uref r) (remoteUsers st) with
  | Some (idx, u) =>
      match receivePcWrap u with
      | Some w =>
          match pc w with
          | Some _ =>
              let tr := nextRef st in
              let st0 := set_nextRef
                           (set_store st (<[tr := mkTrack k true (Some r)]> (store st)))
                           (S tr) in
              let st1 := fold_left (track_listener idx tr) (trackListeners w) st0 in
              fold_left tracks_collected (trackListeners w) st1
          | None => st
          end
      | None => st
      end
  | None => st
  end.

(** *** onNotification *)

(** The tail of the [newUser] loop body and of the [newPusher] branch:
    an entry with publications is pulled, with all of them as specs. *)
Definition pull_pushers (u : RemoteUser) (st : State) : State :=
  if (0 <? length (pushers u))%nat
  then pullRemoteUser (userId u) (specs_of (pushers u)) st
  else st.

Definition upsert_and_pull (st : State) (user : UserPayload) : State :=
  let '(st1, u) := upsertRemoteUser user st in
  pull_pushers u st1.

(** [u => u.userId === id] on the raw payload value. *)
Definition is_user (id : Js.value) (u : RemoteUser) : bool :=
  Js.strict_eq (Js.Str (userId u)) id.

(** The [userDisconnect] and [userReconnect] branches. *)
Definition mark_user (id : Js.value) (s : UserState) (st : State) : State :=
  match find_first (is_user id) (remoteUsers st) with
  | Some (idx, u) =>
      set_remoteUsers st (<[idx := set_state u (Some s)]> (remoteUsers st))
  | None => st
  end.

(** The [userLeave] branch. *)
Definition user_leave (id : Js.value) (st : State) : State :=
  match find_first (is_user id) (remoteUsers st) with
  | Some (idx, user) =>
      let closed := match receivePcWrap user with
                    | Some w => [PCWrap.close w]
                    | None => []
                    end in
      let user1 := set_videoRef (set_receivePcWrap user None) None in
      set_discarded
        (set_departed
           (set_remoteUsers st (splice1 idx (remoteUsers st)))
           (departed st ++ [user1]))
        (discarded st ++ closed)
  | None => st
  end.

(** [onNotification(notification)].  The chat log, which [textMessage]
    appends to, is not part of [State]. *)
Definition onNotification (n : Notification) (st : State) : State :=
  match n with
  | newUser users => fold_left upsert_and_pull users st
  | userDisconnect id => mark_user id disconnected st
  | userReconnect id => mark_user id connected st
  | newPusher user => upsert_and_pull st user
  | textMessage => st
  | userLeave id => user_leave id st
  | otherMethod => st
  end.

(** *** onJoin *)

(** [onJoin()] up to [await wsClient.connect(url)]: [connect] throws when
    a peer exists. *)
Definition onJoin (st : State) : State :=
  if wsPeer st
  then emit st (Alert "Failed to connect: Already connected. Call close() first.")
  else set_joinPhase (set_wsPeer st true) JoinConnecting.

(** The peer opens: [onOpen] runs and a waiting [connect] resolves, after
    which the [join] request is sent. *)
Definition socket_opened (st : State) : State :=
  let st1 := set_wsStatus st ws_connected in
  match joinPhase st1 with
  | JoinConnecting => set_joinPhase (emit st1 (Request "join")) JoinRequesting
  | _ => st1
  end.

(** The peer fails: a waiting [connect] rejects. *)
Definition socket_failed (st : State) : State :=
  match joinPhase st with
  | JoinConnecting =>
      set_joinPhase
        (emit st (Alert "Failed to connect: Failed to connect to protoo server"))
        JoinReturned
  | _ => st
  end.

(** The code of [onJoin] after [await sendRequest('join', joinData)]. *)
Definition join_settled (response : Result JoinResponse) (st : State) : State :=
  match joinPhase st with
  | JoinRequesting =>
      match response with
      | Err e => set_joinPhase (emit st (Alert ("Join failed: " +:+ e))) JoinReturned
      | Ok r =>
          let st1 := set_wsStatus st ws_joined in
          let st2 :=
            match j_users r with
            | Some users =>
                if Js.strict_eq (j_code r) (Js.Num 0)
                then fold_left (fun s u => fst (upsertRemoteUser u s)) users st1
                else st1
            | None => st1
            end in
          set_joinPhase
            (fold_left (fun s u => pull_pushers u s) (remoteUsers st2) st2)
            JoinReturned
      end
  | _ => st
  end.

(** *** onOpenDevices *)

Definition push_failed (code message : Js.value) : string :=
  "Push failed with code: " +:+ Js.String code +:+ ", message: " +:+ Js.String message.

(** The stream [getUserMedia] would hand out, with one track per kind
    captured, allocated from [ref]. *)
Definition capture (ref : nat) (kinds : list MediaKind) : MediaStream :=
  mkMediaStream ref (seq (S ref) (length kinds)).

Fixpoint store_captured (ref : nat) (kinds : list MediaKind) (m : TrackStore) : TrackStore :=
  match kinds with
  | [] => m
  | k :: r => store_captured (S ref) r (<[ref := mkTrack k true None]> m)
  end.

(** [onOpenDevices()], given what its awaits settle to. *)
Definition onOpenDevices (captured : Result (list MediaKind)) (offer : Result string)
    (response : Result SdpResponse) (st : State) : State :=
  match wsStatus st with
  | ws_joined =>
      let st1 :=
        match sendPcWarp st with
        | Some _ => st
        | None =>
            set_nextRef
              (set_sendPcWarp st (Some (PCWrap.new (nextRef st) sendonly)))
              (S (nextRef st))
        end in
      match sendPcWarp st1 with
      | Some w =>
          let ref := nextRef st1 in
          let hand :=
            match captured with
            | Ok kinds => Ok (capture ref kinds)
            | Err e => Err e
            end in
          let '(w1, medias, invoked) := PCWrap.openDevices w hand in
          let st2 := if invoked then emit st1 GetUserMedia else st1 in
          let st3 :=
            match invoked, captured with
            | true, Ok kinds =>
                set_nextRef (set_store st2 (store_captured (S ref) kinds (store st2)))
                  (S ref + length kinds)
            | _, _ => st2
            end in
          let st4 := set_sendPcWarp st3 (Some w1) in
          match medias with
          | Err e => emit st4 (Alert ("Set constraints failed: " +:+ e))
          | Ok s =>
              let st5 :=
                set_videoEl st4
                  ((fun el => mkVideo (Some (sid s)) (muted el) (opacity el)) <$> videoEl st4) in
              let '(w2, began) := createOfferAndEmit_begin (store st5) w1 in
              let st6 := set_sendPcWarp st5 (Some w2) in
              match began, offer with
              | Err e, _ | Ok _, Err e =>
                  emit st6 (Alert ("Create peer connection failed: " +:+ e))
              | Ok _, Ok _ =>
                  let st7 := emit st6 (Request "push") in
                  match response with
                  | Err e => emit st7 (Alert ("Create peer connection failed: " +:+ e))
                  | Ok r =>
                      if negb (Js.strict_eq (r_code r) (Js.Num 0))
                      then emit st7 (Alert (push_failed (r_code r) (r_message r)))
                      else
                        match setRemoteDescription w2 (r_sdp r) with
                        | (w3, Ok _) => set_sendPcWarp st7 (Some w3)
                        | (_, Err e) =>
                            emit st7 (Alert ("Create peer connection failed: " +:+ e))
                        end
                  end
              end
          end
      | None => st1
      end
  | _ => emit st (Alert "Please join a room first.")
  end.

(** *** The template *)

Definition click_mute (toggle : TrackStore -> RemoteUser -> TrackStore * RemoteUser)
    (r : nat) (st : State) : State :=
  match find_first (has_uref r) (remoteUsers st) with
  | Some (idx, u) =>
      let '(m, u') := toggle (store st) u in
      set_remoteUsers (set_store st m) (<[idx := u']> (remoteUsers st))
  | None => st
  end.

(** The [ref] callback of the [<video>] of the entry with reference [r]. *)
Definition video_mounted (r : nat) (st : State) : State :=
  match find_first (has_uref r) (remoteUsers st) with
  | Some (idx, u) =>
      let el := default (mkVideo None false "") (videoRef u) in
      let el' :=
        match playStream u with
        | Some s =>
            if (0 <? length (tracks s))%nat && negb (bool_decide (is_Some (srcObject el)))
            then mkVideo (Some (sid s)) false (opacity el)
            else el
        | None => el
        end in
      set_remoteUsers st (<[idx := set_videoRef u (Some el')]> (remoteUsers st))
  | None => st
  end.

(** *** The page as a state machine *)

Definition step (st : State) (ev : Event) : State :=
  match ev with
  | Notified n => onNotification n st
  | ClickJoin => onJoin st
  | SocketOpened => socket_opened st
  | SocketFailed => socket_failed st
  | SocketClosed => set_wsStatus st ws_disconnected
  | JoinSettled response => join_settled response st
  | ClickOpen captured offer response => onOpenDevices captured offer response st
  | ClickMuteAudio r => click_mute toggleAudioMute r st
  | ClickMuteVideo r => click_mute toggleVideoMute r st
  | VideoMounted r => video_mounted r st
  | OfferSettled i offer => offer_settled i offer st
  | PullSettled i response => pull_settled i response st
  | TrackDelivered r k => track_delivered r k st
  end.

Definition run (st : State) (evs : list Event) : State := fold_left step evs st.

Inductive reachable : State -> Prop :=
| reachable_initial : reachable initial
| reachable_step st ev : reachable st -> reachable (step st ev).

(** No two entries of the array have ids that normalise to the same string. *)
Definition ids_unique (st : State) : Prop :=
  NoDup ((fun u => normalizeId (Js.Str (userId u))) <$> remoteUsers st).

End Orchestrator.

(** ** Chat *)

(** An entry of [chatMessages]. *)
Record ChatMessage := mkChatMessage {
  c_userId : string;
  c_userName : Js.value;
  c_message : string;
  c_self : bool;
  c_time : Z
}.

(** The chat state of the page: [chatMessages] and [chatInput]. *)
Record Chat := mkChat {
  chatMessages : list ChatMessage;
  chatInput : string
}.

(** [sendMessage(message)], by the local participant [me] at time [now]:
    the new chat state, the alerts raised, and how the promise settles. *)
Definition sendMessage (status : WsStatus) (client : ProtooClientWrap.t)
    (meId meName : string) (now : Z) (message : string) (chat : Chat)
  : Chat * list string * Result unit :=
  match status with
  | ws_joined =>
      match ProtooClientWrap.sendNotify client with
      | Ok _ =>
          (mkChat (chatMessages chat ++
                     [mkChatMessage meId (Js.Str meName) message true now])
                  (chatInput chat),
           [], Ok ())
      | Err e => (chat, [], Err e)
      end
  | _ => (chat, ["Please join a room first."], Err "Not joined")
  end.

(** [onChatEnter()] *)
Definition onChatEnter (status : WsStatus) (client : ProtooClientWrap.t)
    (meId meName : string) (now : Z) (chat : Chat) : Chat * list string :=
  let text := Js.trim (chatInput chat) in
  if negb (Js.truthy_string text) then (chat, [])
  else
    match sendMessage status client meId meName now text chat with
    | (chat', alerts, Ok _) => (mkChat (chatMessages chat') "", alerts)
    | (chat', alerts, Err e) => (chat', alerts ++ ["Message send failed: " +:+ e])
    end.






(** ** Well-formed pages *)

(** The tracks of the buffer of an entry; none without a buffer. *)
Definition buffered (u : RemoteUser) : list nat :=
  default [] (tracks <$> playStream u).


(** The receive session of an entry and what comes with it: no session, no
    publication and no buffer; a session is recvonly, has a connection with
    a transceiver, a buffer, publications, and a [recvMap] whose keys are
    the identifiers of the publications. *)
Definition session_ok (u : RemoteUser) : Prop :=
  match receivePcWrap u with
  | None => pushers u = [] /\ playStream u = None
  | Some w =>
      direction w = recvonly /\
      pushers u <> [] /\
      is_Some (playStream u) /\
      (exists p, pc w = Some p /\ transceivers p <> []) /\
      (forall id, is_Some (recvMap w !! id) <-> id ∈ pusherId <$> pushers u) /\
      NoDup (trackListeners w)
  end.

(** Every track of the buffer of [u] was delivered by the session of [u] and
    is enabled exactly when the mute flag of its kind is off. *)
Definition stream_ok (m : TrackStore) (u : RemoteUser) : Prop :=
  forall s tr, playStream u = Some s -> tr ∈ tracks s ->
    exists x, m !! tr = Some x /\ session x = Some (uref u) /\
              enabled x = negb (mutedFlag u (kind x)).

Definition waiting (p : PullCall) : Prop :=
  phase p = AwaitTracks \/ phase p = TracksReady.

(** A track collected by a call that waits on an entry of the array was
    delivered by that entry's session, and is enabled unless the buffer
    holds it. *)
Definition collected_ok (m : TrackStore) (users : list RemoteUser) (p : PullCall) : Prop :=
  forall u tr, u ∈ users -> remoteUser p = Some (uref u) -> waiting p -> tr ∈ tracks_ p ->
    exists x, m !! tr = Some x /\ session x = Some (uref u) /\
              (enabled x = true \/ exists s, playStream u = Some s /\ tr ∈ tracks s).

(** A registered listener belongs to a call that awaits its tracks on that
    entry. *)
Definition listeners_ok (calls : list PullCall) (u : RemoteUser) : Prop :=
  forall w i, receivePcWrap u = Some w -> i ∈ trackListeners w ->
    exists p, p ∈ calls /\ pid p = i /\ phase p = AwaitTracks /\
              remoteUser p = Some (uref u).

(** A call that awaits its tracks on an entry of the array has its listener
    on that entry's session. *)
Definition registered (users : list RemoteUser) (p : PullCall) : Prop :=
  forall u, u ∈ users -> remoteUser p = Some (uref u) -> phase p = AwaitTracks ->
    exists w, receivePcWrap u = Some w /\ pid p ∈ trackListeners w.

Definition ready_ok (users : list RemoteUser) (p : PullCall) : Prop :=
  phase p = TracksReady ->
  exists u, u ∈ users /\ remoteUser p = Some (uref u) /\ is_Some (receivePcWrap u).

Definition counting (p : PullCall) : Prop :=
  specs p <> [] /\
  (phase p = AwaitTracks -> length (tracks_ p) < length (specs p)) /\
  (phase p = AwaitOffer \/ phase p = AwaitResponse -> tracks_ p = []).

(** [u'] is the entry [e] after a write that leaves its identity, its mute
    flags, its listeners and its buffer alone (a buffer may be created). *)
Definition kept (e u' : RemoteUser) : Prop :=
  uref u' = uref e /\
  userId u' = userId e /\
  (forall k, mutedFlag u' k = mutedFlag e k) /\
  (forall w, receivePcWrap e = Some w ->
     exists w', receivePcWrap u' = Some w' /\ trackListeners w' = trackListeners w) /\
  (forall w', receivePcWrap u' = Some w' ->
     (exists w, receivePcWrap e = Some w /\ trackListeners w' = trackListeners w) \/
     trackListeners w' = []) /\
  (forall s, playStream e = Some s -> playStream u' = Some s) /\
  (forall s', playStream u' = Some s' -> playStream e = Some s' \/ tracks s' = []).

Definition captured_lt (n : nat) (p : PullCall) : Prop :=
  pid p < n /\ (forall r, remoteUser p = Some r -> r < n) /\
  (forall tr, tr ∈ tracks_ p -> tr < n).

Record Inv' (users gone : list RemoteUser) (calls : list PullCall)
    (m : TrackStore) (n : nat) : Prop := mkInv {
  inv_urefs : NoDup (uref <$> (users ++ gone));
  inv_uref_lt : forall u, u ∈ users ++ gone -> uref u < n;
  inv_pids : NoDup (pid <$> calls);
  inv_calls_lt : Forall (captured_lt n) calls;
  inv_store_lt : forall tr, is_Some (m !! tr) -> tr < n;
  inv_session : Forall session_ok users;
  inv_streams : Forall (stream_ok m) users;
  inv_collected : Forall (collected_ok m users) calls;
  inv_listeners : Forall (listeners_ok calls) users;
  inv_registered : Forall (registered users) calls;
  inv_ready : Forall (ready_ok users) calls;
  inv_counting : Forall counting calls
}.

(** [u'] is the entry [e] after a write that leaves its identity and its
    listeners alone and takes no track out of its buffer. *)
Definition grown (e u' : RemoteUser) : Prop :=
  uref u' = uref e /\
  (forall w, receivePcWrap e = Some w ->
     exists w', receivePcWrap u' = Some w' /\ trackListeners w' = trackListeners w) /\
  (forall w', receivePcWrap u' = Some w' ->
     exists w, receivePcWrap e = Some w /\ trackListeners w' = trackListeners w) /\
  (forall s tr, playStream e = Some s -> tr ∈ tracks s ->
     exists s', playStream u' = Some s' /\ tr ∈ tracks s').

(** The store [m'] is [m] after writes to the [enabled] flag of tracks of
    the session of [e]. *)
Definition flags_written (e : RemoteUser) (m m' : TrackStore) : Prop :=
  forall tr,
    match m !! tr with
    | Some x =>
        exists x', m' !! tr = Some x' /\ kind x' = kind x /\ session x' = session x /\
                   (session x <> Some (uref e) -> x' = x)
    | None => m' !! tr = None
    end.

(** What the track listener of a call does to the call: the track is
    collected, and with enough tracks the promise is resolved. *)
Definition heard (tr : nat) (p : PullCall) : PullCall :=
  let p1 := push_track p tr in
  if (expectedTrackCount p1 <=? length (tracks_ p1))%nat
  then set_phase p1 TracksReady else p1.

(** What the continuation does to the call. *)
Definition continued (p : PullCall) : PullCall :=
  if bool_decide (phase p = TracksReady) then set_phase p Fulfilled else p.

(** [u'] is the entry [u] later on: the same object, with the same id and
    the same buffer object, whose tracks were kept in place. *)
Definition buffer_kept (u u' : RemoteUser) : Prop :=
  uref u' = uref u /\
  userId u' = userId u /\
  forall s, playStream u = Some s ->
    exists s', playStream u' = Some s' /\ sid s' = sid s /\
               exists extra, tracks s' = tracks s ++ extra.

(** The array later on, when no entry was removed: the entries it had, and
    then entries with references from [n] on. *)
Definition array_grows (n : nat) (l l' : list RemoteUser) : Prop :=
  exists l1 l2, l' = l1 ++ l2 /\ Forall2 buffer_kept l l1 /\
                Forall (fun u => n <= uref u) l2.

(** A call that no event touches any more: it is fulfilled or rejected, or
    it awaits tracks on an object that is not in the array. *)
Definition settled (users : list RemoteUser) (p : PullCall) : Prop :=
  phase p = Fulfilled \/ (exists e, phase p = Rejected e) \/
  (phase p = AwaitTracks /\ forall u, u ∈ users -> remoteUser p <> Some (uref u)).

(** The invariant of the page between two events. *)
Definition Inv (st : State) : Prop :=
  Inv' (remoteUsers st) (departed st) (pulls st) (store st) (nextRef st).

(** The listeners a track delivered by the session of the entry with
    reference [r] reaches. *)
Definition listeners_of (st : State) (r : nat) : list nat :=
  match find_first (has_uref r) (remoteUsers st) with
  | Some (_, u) =>
      match receivePcWrap u with
      | Some w => if pc w is Some _ then trackListeners w else []
      | None => []
      end
  | None => []
  end.

(** Whether an event is a [userLeave] notification. *)
Definition leaves (ev : Event) : bool :=
  match ev with
  | Notified (userLeave _) => true
  | _ => false
  end.

(** The connection side of the page: the status shown, whether the
    signaling client holds a peer, and where [onJoin] stands. *)
Definition conn (st : State) : WsStatus * bool * JoinPhase :=
  (wsStatus st, wsPeer st, joinPhase st).

(** An event other than a Join click, a socket event or the settling of
    the [join] request leaves the connection side as it is. *)
Definition connects (ev : Event) : bool :=
  match ev with
  | ClickJoin | SocketOpened | SocketFailed | SocketClosed | JoinSettled _ => true
  | _ => false
  end.

(** A click on the mute button of kind [k] of the entry with reference
    [r], and the toggle it runs. *)
Definition ClickMute (k : MediaKind) (r : nat) : Event :=
  match k with
  | audio => ClickMuteAudio r
  | video => ClickMuteVideo r
  end.

Definition toggleMute (k : MediaKind) : TrackStore -> RemoteUser -> TrackStore * RemoteUser :=
  match k with
  | audio => toggleAudioMute
  | video => toggleVideoMute
  end.

(** The video element of an entry, once mounted, plays the entry's buffer
    as soon as the buffer has a track. *)
Definition bound (u : RemoteUser) : Prop :=
  forall el s, videoRef u = Some el -> playStream u = Some s -> tracks s <> [] ->
    srcObject el = Some (sid s).

(** The ids of the array, in order. *)
Definition ids (st : State) : list string := userId <$> remoteUsers st.

(** Every id of the array is stored in normal form. *)
Definition ids_normal (nfc : string -> string) (st : State) : Prop :=
  Forall (fun s => normalizeId nfc (Js.Str s) = s) (ids st).

(** What an event that removes no entry leaves in place. *)
Definition frame (st st' : State) : Prop :=
  nextRef st <= nextRef st' /\
  array_grows (nextRef st) (remoteUsers st) (remoteUsers st') /\
  (forall i p, lookup_pull st i = Some p -> settled (remoteUsers st) p ->
               lookup_pull st' i = Some p).

(** Between two events no continuation is queued. *)
Definition quiet (st : State) : Prop :=
  forall p, p ∈ pulls st -> phase p <> TracksReady.

(** What every event that removes no entry does to a page that is well
    formed and quiet. *)
Definition good_step (st st' : State) : Prop :=
  Inv st' /\ quiet st' /\ frame st st'.

(** The kinds of the tracks a call collected, and the kinds its specs ask
    for. *)
Definition collected_kinds (st : State) (p : PullCall) : list (option MediaKind) :=
  (fun tr => kind <$> store st !! tr) <$> tracks_ p.

Definition requested_kinds (p : PullCall) : list (option MediaKind) :=
  (fun sp => Some (type sp)) <$> specs p.

(** ** Concrete data for the examples *)

(** [normalize('NFC')] on ASCII strings, which are in NFC as they are. *)
Definition nfc_ascii (s : string) : string := s.

Definition rtp (k : MediaKind) : RtpParam :=
  mkRtpParam k None 90000 "H264" "" true 4 109 [] 114 0 4201321986 3 true.

Definition pusher_p1 : Pusher := mkPusher (rtp video) "p1".

Definition user_6725 : UserPayload :=
  mkUserPayload (Js.Str "6725") (Some "bob") (Some [pusher_p1]).

(** Joined, with "6725" announced by a [newUser] notification; its
    subscribe call (reference 3) awaits its offer. *)
Definition st_announced : State :=
  run nfc_ascii initial
    [ClickJoin; SocketOpened; JoinSettled (Ok (mkJoinResponse (Js.Num 0) None));
     Notified (newUser [user_6725])].

(** The same page once that call awaits its tracks. *)
Definition st_waiting : State :=
  run nfc_ascii st_announced
    [OfferSettled 3 (Ok "offer");
     PullSettled 3 (Ok (mkSdpResponse (Js.Num 0) Js.Undefined "answer"))].

(** The entry of "6725": the object with reference 0, its receive session
    (reference 1) and its buffer (reference 2). *)
Definition bob_session (slots : list PCWrap.Transceiver) (reserved : gmap string string)
    (answer : option string) (listeners : list nat) : PCWrap.t :=
  PCWrap.mk 1 (Some (PCWrap.mkPC slots [] answer)) None PCWrap.recvonly reserved listeners.

Definition bob (w : PCWrap.t) (ps : list Pusher) (ts : list nat) (vmuted : bool)
  : RemoteUser :=
  mkRemoteUser 0 "6725" (Some "bob") ps None (Some w) (Some (mkMediaStream 2 ts))
    (Some vmuted) (Some false) None.

Definition video_slot : PCWrap.Transceiver := PCWrap.mkTransceiver video PCWrap.recvonly.
Definition audio_slot : PCWrap.Transceiver := PCWrap.mkTransceiver audio PCWrap.recvonly.

Definition bob_announced : RemoteUser :=
  bob (bob_session [video_slot] {["p1" := ""]} None []) [pusher_p1] [] false.

Definition bob_waiting : RemoteUser :=
  bob (bob_session [video_slot] {["p1" := ""]} (Some "answer") [3]) [pusher_p1] [] false.

(** The subscribe call with reference 3. *)
Definition call_3 (ts : list nat) (ph : PullPhase) : PullCall :=
  mkPull 3 "6725" [PCWrap.mkSpec video "p1"] (Some 0) ts ph.

(** The video of "6725" is muted while call 3 awaits its tracks; then the
    video track (reference 4) arrives. *)
Definition st_muted_arrival : State :=
  run nfc_ascii st_waiting [ClickMuteVideo 0; TrackDelivered 0 video].

Definition bob_muted : RemoteUser :=
  bob (bob_session [video_slot] {["p1" := ""]} (Some "answer") []) [pusher_p1] [4] true.

(** The track arrives with nothing muted. *)
Definition bob_playing : RemoteUser :=
  bob (bob_session [video_slot] {["p1" := ""]} (Some "answer") []) [pusher_p1] [4] false.

(** An audio publication of "6725" is announced by a [newPusher]
    notification (a second subscribe call, reference 4, is made) before
    call 3 gets its answer and awaits its tracks. *)
Definition pusher_p2 : Pusher := mkPusher (rtp audio) "p2".

Definition st_two_calls : State :=
  run nfc_ascii st_announced
    [Notified (newPusher (mkUserPayload (Js.Num 6725) None (Some [pusher_p2])));
     OfferSettled 3 (Ok "offer");
     PullSettled 3 (Ok (mkSdpResponse (Js.Num 0) Js.Undefined "answer"))].

(** Joined, with nobody announced. *)
Definition st_joined : State :=
  run nfc_ascii initial
    [ClickJoin; SocketOpened; JoinSettled (Ok (mkJoinResponse (Js.Num 0) None))].

(** A payload that names the publication "p1" twice. *)
Definition user_twice : UserPayload :=
  mkUserPayload (Js.Str "6725") (Some "bob") (Some [pusher_p1; pusher_p1]).

(** "6725" is announced while the [join] request is under way. *)
Definition st_requesting : State :=
  run nfc_ascii initial [ClickJoin; SocketOpened; Notified (newUser [user_6725])].

(** Joined, with the devices open and published: the publish wrapper
    (reference 0) holds the capture stream (reference 1) with an audio
    track and a video track (references 2 and 3). *)
Definition st_published : State :=
  run nfc_ascii initial
    [ClickJoin; SocketOpened; JoinSettled (Ok (mkJoinResponse (Js.Num 0) None));
     ClickOpen (Ok [audio; video]) (Ok "offer")
       (Ok (mkSdpResponse (Js.Num 0) Js.Undefined "answer"))].

Definition capture_stream : MediaStream := mkMediaStream 1 [2; 3].

Definition publish_wrap : PCWrap.t :=
  PCWrap.mk 0 (Some (PCWrap.mkPC [] [2; 3] (Some "answer"))) (Some capture_stream)
    PCWrap.sendonly ∅ [].

(** Call 3 got its video track (reference 4) with nothing muted. *)
Definition st_playing : State := run nfc_ascii st_waiting [TrackDelivered 0 video].

(** The video element of "6725" is mounted before the track arrives. *)
Definition st_mounted : State :=
  run nfc_ascii st_waiting [VideoMounted 0; TrackDelivered 0 video].

Definition bob_mounted : RemoteUser :=
  mkRemoteUser 0 "6725" (Some "bob") [pusher_p1] (Some (mkVideo (Some 2) false ""))
    (Some (bob_session [video_slot] {["p1" := ""]} (Some "answer") []))
    (Some (mkMediaStream 2 [4])) (Some false) (Some false) None.

(** The local tracks of [st_published], and two tracks of a second
    capture (references 11 and 12). *)
Definition local_tracks : TrackStore :=
  <[12 := mkTrack video true None]>
    (<[11 := mkTrack audio true None]> (store st_published)).

Definition second_stream : MediaStream := mkMediaStream 10 [11; 12].



(** A signaling client connected to a server. *)
Definition client_connected : ProtooClientWrap.t :=
  ProtooClientWrap.mk
    (Some (ProtooClientWrap.mkPeer (Some "ws://192.168.1.4:7443/webrtc") false))
    (Some "ws://192.168.1.4:7443/webrtc").

(** ** Properties *)

Section Properties.

Variable nfc : string -> string.

(** *** Lists *)

Lemma find_first_Some {A} (f : A -> bool) (l : list A) i x :
  find_first f l = Some (i, x) ->
  l !! i = Some x /\ f x = true /\
  (forall j y, j < i -> l !! j = Some y -> f y = false).
Proof.
  revert i x. induction l as [|a l IH]; intros i x H; simpl in H; [done|].
  destruct (f a) eqn:Hfa.
  - inversion H; subst. repeat split; [done|]. intros j y Hj; lia.
  - destruct (find_first f l) as [[k y]|] eqn:Hr; [|done].
    inversion H; subst. destruct (IH k x eq_refl) as (H1 & H2 & H3).
    repeat split; [done..|].
    intros [|j] z Hj Hz; simpl in Hz; [congruence|]. eapply H3; [|done]. lia.
Qed.

Lemma find_first_None {A} (f : A -> bool) (l : list A) :
  find_first f l = None <-> (forall x, x ∈ l -> f x = false).
Proof.
  induction l as [|a l IH]; simpl.
  - split; [|done]. intros _ x Hx. inversion Hx.
  - destruct (f a) eqn:Hfa.
    + split; [done|]. intros H. rewrite H in Hfa; [done|]. left.
    + destruct (find_first f l) as [[k y]|] eqn:Hr.
      * split; [done|]. intros H.
        assert (Some (k, y) = None) as Hn; [|done].
        apply IH. intros x Hx. apply H. by right.
      * split; [|done]. intros _ x Hx.
        apply elem_of_cons in Hx as [->|Hx]; [done|]. by apply IH.
Qed.

Lemma find_first_elem {A} (f : A -> bool) (l : list A) i x :
  find_first f l = Some (i, x) -> x ∈ l /\ i < length l.
Proof.
  intros H. apply find_first_Some in H as (H & _ & _). split.
  - by eapply list_elem_of_lookup_2.
  - by eapply lookup_lt_Some.
Qed.

(** *** Notifications that name nobody *)

Lemma is_user_false id (l : list RemoteUser) :
  (forall u, u ∈ l -> Js.Str (userId u) <> id) ->
  find_first (is_user id) l = None.
Proof.
  intros H. apply find_first_None. intros u Hu.
  unfold is_user, Js.strict_eq. apply bool_decide_eq_false. by apply H.
Qed.

(** C10: the [userDisconnect], [userReconnect] and [userLeave] branches
    look the participant up with [===] between the raw [userId] of the
    payload and the stored id, without normalising the payload; a
    notification whose [userId] is strictly equal to no stored id leaves
    the page, and so the membership table, as it is. *)
Theorem raw_id_notification_changes_nothing (st : State) (id : Js.value) :
  (forall u, u ∈ remoteUsers st -> Js.Str (userId u) <> id) ->
  step nfc st (Notified (userDisconnect id)) = st /\
  step nfc st (Notified (userReconnect id)) = st /\
  step nfc st (Notified (userLeave id)) = st.
Proof.
  intros H. simpl. unfold mark_user, user_leave.
  by rewrite (is_user_false id _ H).
Qed.


(** *** [trim] *)

Lemma drop_white_idem l : Js.drop_white (Js.drop_white l) = Js.drop_white l.
Proof.
  induction l as [|a l IH]; [done|]. cbn.
  destruct (Js.is_white_space a) eqn:E; [done|]. cbn. by rewrite E.
Qed.

Lemma drop_white_snoc l a :
  Js.is_white_space a = false -> Js.drop_white (l ++ [a]) = Js.drop_white l ++ [a].
Proof.
  intros Ha. induction l as [|b l IH]; cbn; [by rewrite Ha|].
  by destruct (Js.is_white_space b).
Qed.

Lemma trim_idem s : Js.trim (Js.trim s) = Js.trim s.
Proof.
  unfold Js.trim. rewrite list_ascii_of_string_of_list_ascii. f_equal.
  remember (Js.drop_white (list_ascii_of_string s)) as m eqn:Em.
  assert (m = [] \/ exists a m', m = a :: m' /\ Js.is_white_space a = false) as [->|H].
  { subst m. induction (list_ascii_of_string s) as [|a l IH]; [by left|]. cbn.
    destruct (Js.is_white_space a) eqn:E; [done|]. right. by exists a, l. }
  - done.
  - destruct H as (a & m' & -> & Ha). cbn [rev].
    rewrite (drop_white_snoc _ _ Ha), rev_app_distr. cbn [rev app].
    cbn [Js.drop_white]. rewrite Ha. cbn [rev].
    rewrite rev_involutive, (drop_white_snoc _ _ Ha), drop_white_idem.
    by rewrite rev_app_distr.
Qed.

Lemma truthy_string_false s : Js.truthy_string s = false <-> s = "".
Proof.
  unfold Js.truthy_string. rewrite negb_false_iff. apply String.eqb_eq.
Qed.

Lemma truthy_string_true s : Js.truthy_string s = true <-> s <> "".
Proof.
  unfold Js.truthy_string. rewrite negb_true_iff. apply String.eqb_neq.
Qed.
(** *** The publish session *)

Lemma initPeerConnection_fields (w : PCWrap.t) :
  wid (initPeerConnection w).2 = wid w /\
  localStream (initPeerConnection w).2 = localStream w /\
  direction (initPeerConnection w).2 = direction w /\
  recvMap (initPeerConnection w).2 = recvMap w /\
  trackListeners (initPeerConnection w).2 = trackListeners w /\
  pc (initPeerConnection w).2 = Some (initPeerConnection w).1.
Proof. unfold initPeerConnection. by destruct (pc w) eqn:E. Qed.

Lemma attachLocalTracks_fields m (w : PCWrap.t) :
  wid (attachLocalTracks m w) = wid w /\
  localStream (attachLocalTracks m w) = localStream w /\
  direction (attachLocalTracks m w) = direction w.
Proof.
  unfold attachLocalTracks.
  destruct (pc w) eqn:E1; [|done]. destruct (localStream w) eqn:E2; [|done]. done.
Qed.

Lemma createOfferAndEmit_begin_fields m (w : PCWrap.t) :
  wid (createOfferAndEmit_begin m w).1 = wid w /\
  localStream (createOfferAndEmit_begin m w).1 = localStream w /\
  direction (createOfferAndEmit_begin m w).1 = direction w.
Proof.
  unfold createOfferAndEmit_begin.
  destruct (initPeerConnection_fields w) as (H1 & H2 & H3 & _).
  destruct (initPeerConnection w) as [p w1]; simpl in *.
  repeat case_bool_decide; simpl; try done.
  destruct (attachLocalTracks_fields m w1) as (? & ? & ?). repeat split; congruence.
Qed.

Lemma setRemoteDescription_fields (w : PCWrap.t) answer :
  wid (setRemoteDescription w answer).1 = wid w /\
  localStream (setRemoteDescription w answer).1 = localStream w /\
  direction (setRemoteDescription w answer).1 = direction w.
Proof. unfold setRemoteDescription. by destruct (pc w). Qed.

(** C8: with the devices open (the publish wrapper holds a capture stream),
    opening local publish again hands out that same stream object, does not
    call [getUserMedia], allocates nothing, and keeps the publish wrapper
    (the same [wid]) with the same stream; [Device.openDevices] likewise
    returns the stream it holds. *)
Theorem open_local_publish_idempotent (st : State) (w : PCWrap.t) (s : MediaStream)
    captured offer response :
  wsStatus st = ws_joined ->
  sendPcWarp st = Some w ->
  localStream w = Some s ->
  let st' := step nfc st (ClickOpen captured offer response) in
  (forall hand, PCWrap.openDevices w hand = (w, Ok s, false)) /\
  (exists w', sendPcWarp st' = Some w' /\ wid w' = wid w /\ localStream w' = Some s) /\
  (exists out : list Effect, effects st' = effects st ++ out /\ GetUserMedia ∉ out) /\
  store st' = store st /\
  nextRef st' = nextRef st /\
  (forall d hand, Device.stream d = Some s ->
     Device.openDevices d hand = (d, Ok s, false)).
Proof.
  intros Hj Hw Hs st'.
  assert (forall hand, PCWrap.openDevices w hand = (w, Ok s, false)) as Hopen.
  { intros hand. unfold PCWrap.openDevices. by rewrite Hs. }
  split; [done|].
  assert (forall d hand, Device.stream d = Some s ->
            Device.openDevices d hand = (d, Ok s, false)) as Hdev.
  { intros d hand Hd. unfold Device.openDevices. by rewrite Hd. }
  subst st'. simpl. unfold onOpenDevices. rewrite Hj, Hw. rewrite Hw. rewrite Hopen.
  cbv zeta.
  set (st5 := set_videoEl _ _).
  destruct (createOfferAndEmit_begin_fields (store st5) w) as (Hb1 & Hb2 & Hb3).
  destruct (createOfferAndEmit_begin (store st5) w) as [w2 began]; simpl in *.
  assert (forall e, GetUserMedia ∉ [Alert e]) as Ha.
  { intros e H. apply list_elem_of_singleton in H. done. }
  assert (GetUserMedia ∉ [Request "push"]) as Hr.
  { intros H. apply list_elem_of_singleton in H. done. }
  assert (forall e, GetUserMedia ∉ [Request "push"; Alert e]) as Hra.
  { intros e H. apply elem_of_cons in H as [H|H]; [done|]. by apply Ha in H. }
  assert (forall (x : State) (w' : PCWrap.t) (out : list Effect),
            sendPcWarp x = Some w' -> wid w' = wid w -> localStream w' = localStream w ->
            effects x = effects st ++ out -> GetUserMedia ∉ out ->
            store x = store st -> nextRef x = nextRef st ->
            (exists w', sendPcWarp x = Some w' /\ wid w' = wid w /\ localStream w' = Some s) /\
            (exists out : list Effect, effects x = effects st ++ out /\ GetUserMedia ∉ out) /\
            store x = store st /\ nextRef x = nextRef st /\
            (forall d hand, Device.stream d = Some s ->
               Device.openDevices d hand = (d, Ok s, false))) as Hfin.
  { intros x w' out H1 H2 H3 H4 H5 H6 H7. split; [exists w'; split; [done|split; congruence]|].
    split; [by exists out|]. done. }
  destruct began as [[]|e], offer as [o|e'];
    try (eapply Hfin with (w' := w2);
         [reflexivity|congruence|congruence|reflexivity|apply Ha|reflexivity|reflexivity]).
  destruct response as [r|e].
  2:{ eapply Hfin with (w' := w2);
      [reflexivity|congruence|congruence|simpl; rewrite <- app_assoc; reflexivity
      |apply Hra|reflexivity|reflexivity]. }
  destruct (negb _).
  { eapply Hfin with (w' := w2);
      [reflexivity|congruence|congruence|simpl; rewrite <- app_assoc; reflexivity
      |apply Hra|reflexivity|reflexivity]. }
  destruct (setRemoteDescription_fields w2 (r_sdp r)) as (Hc1 & Hc2 & Hc3).
  destruct (setRemoteDescription w2 (r_sdp r)) as [w3 [[]|e]]; simpl in Hc1, Hc2, Hc3.
  - eapply Hfin with (w' := w3);
      [reflexivity|congruence|congruence|reflexivity|apply Hr|reflexivity|reflexivity].
  - eapply Hfin with (w' := w2);
      [reflexivity|congruence|congruence|simpl; rewrite <- app_assoc; reflexivity
      |apply Hra|reflexivity|reflexivity].
Qed.

(** *** Receive slots *)

Lemma reserve_dom specs p m id :
  is_Some ((reserve specs p m).2 !! id) <->
  is_Some (m !! id) \/ id ∈ pusher_id <$> specs.
Proof.
  revert p m. induction specs as [|spec rest IH]; intros p m; simpl.
  - split; [by left|]. intros [H|H]; [done|]. inversion H.
  - destruct (m !! pusher_id spec) eqn:E.
    + rewrite IH. split; intros [H|H]; try (by left).
      * right. by right.
      * apply elem_of_cons in H as [->|H]; [left; by rewrite E|by right].
    + rewrite IH. split; intros [H|H].
      * destruct (decide (pusher_id spec = id)) as [<-|Hne]; [right; left|].
        left. by rewrite lookup_insert_ne in H.
      * right. by right.
      * left. destruct (decide (pusher_id spec = id)) as [<-|Hne].
        -- by rewrite lookup_insert_eq.
        -- by rewrite lookup_insert_ne.
      * apply elem_of_cons in H as [->|H]; [left; by rewrite lookup_insert_eq|by right].
Qed.

Lemma reserve_keeps specs p m :
  senders (reserve specs p m).1 = senders p /\
  remoteDescription (reserve specs p m).1 = remoteDescription p /\
  exists extra, transceivers (reserve specs p m).1 = transceivers p ++ extra.
Proof.
  revert p m. induction specs as [|spec rest IH]; intros p m; simpl.
  - repeat split. exists []. by rewrite app_nil_r.
  - destruct (m !! pusher_id spec) eqn:E; [apply IH|].
    destruct (IH (mkPC (transceivers p ++ [mkTransceiver (type spec) recvonly])
                    (senders p) (remoteDescription p))
                 (<[pusher_id spec:=""]> m)) as (H1 & H2 & extra & H3).
    repeat split; [done..|]. eexists. rewrite H3. simpl. by rewrite <- app_assoc.
Qed.

(** Specs with pairwise distinct identifiers, none of them a key of the map,
    reserve one recvonly transceiver each, in order. *)
Lemma reserve_fresh specs p m :
  NoDup (pusher_id <$> specs) ->
  (forall id, id ∈ pusher_id <$> specs -> m !! id = None) ->
  transceivers (reserve specs p m).1 =
  transceivers p ++ ((fun spec => mkTransceiver (type spec) recvonly) <$> specs).
Proof.
  revert p m. induction specs as [|spec rest IH]; intros p m Hnd Hnew; simpl.
  - by rewrite app_nil_r.
  - rewrite fmap_cons in Hnd. apply NoDup_cons in Hnd as [Hin Hnd].
    rewrite (Hnew (pusher_id spec)) by (rewrite fmap_cons; left).
    rewrite IH; [simpl; by rewrite <- app_assoc|done|].
    intros id Hid. rewrite lookup_insert_ne; [apply Hnew; rewrite fmap_cons; by right|].
    intros <-. done.
Qed.

Lemma reserve_nonempty specs p m :
  transceivers p <> [] \/
    (exists spec rest, specs = spec :: rest /\ m !! pusher_id spec = None) ->
  transceivers (reserve specs p m).1 <> [].
Proof.
  intros H. destruct H as [H|(spec & rest & -> & Hm)].
  - destruct (reserve_keeps specs p m) as (_ & _ & extra & ->).
    intros E. apply app_eq_nil in E as [E _]. done.
  - simpl. rewrite Hm.
    match goal with |- transceivers (reserve _ ?q ?k).1 <> [] =>
      destruct (reserve_keeps rest q k) as (_ & _ & extra & ->) end.
    simpl. intros E. apply app_eq_nil in E as [E _].
    apply app_eq_nil in E as [_ E]. done.
Qed.

Lemma addTransceivers_recvonly (w : PCWrap.t) specs :
  direction w = recvonly ->
  addTransceivers w specs =
  Ok (mk (wid w) (Some (reserve specs (initPeerConnection w).1 (recvMap w)).1)
        (localStream w) recvonly
        (reserve specs (initPeerConnection w).1 (recvMap w)).2 (trackListeners w)).
Proof.
  intros Hd. unfold addTransceivers, initPeerConnection.
  rewrite Hd. simpl. destruct (pc w) as [p|] eqn:Hp; simpl.
  - destruct (reserve specs p (recvMap w)) as [p' m'] eqn:Hr. simpl.
    unfold set_recvMap, set_pc. simpl. rewrite Hd. reflexivity.
  - destruct (reserve specs _ (recvMap w)) as [p' m'] eqn:Hr. simpl.
    unfold set_recvMap, set_pc. simpl. rewrite Hd. reflexivity.
Qed.

Lemma extend_recvonly (w : PCWrap.t) specs :
  direction w = recvonly ->
  extend w specs =
  mk (wid w) (Some (reserve specs (initPeerConnection w).1 (recvMap w)).1)
     (localStream w) recvonly
     (reserve specs (initPeerConnection w).1 (recvMap w)).2 (trackListeners w).
Proof. intros Hd. unfold extend. by rewrite addTransceivers_recvonly. Qed.

Lemma specs_of_ids ps : pusher_id <$> specs_of ps = pusherId <$> ps.
Proof. unfold specs_of. rewrite <- list_fmap_compose. done. Qed.

(** A recvonly wrapper with a transceiver starts its offer as it is. *)
Lemma createOfferAndEmit_begin_ready m (w : PCWrap.t) p :
  direction w = recvonly -> pc w = Some p -> transceivers p <> [] ->
  createOfferAndEmit_begin m w = (w, Ok ()).
Proof.
  intros Hd Hp Ht. unfold createOfferAndEmit_begin, initPeerConnection.
  rewrite Hp, Hd. simpl. rewrite bool_decide_eq_false_2; [done|].
  destruct (transceivers p); [done|]. simpl. lia.
Qed.

(** A recvonly wrapper without a transceiver throws. *)
Lemma createOfferAndEmit_begin_empty m (w : PCWrap.t) :
  direction w = recvonly ->
  (forall p, pc w = Some p -> transceivers p = []) ->
  exists e, (createOfferAndEmit_begin m w).2 = Err e.
Proof.
  intros Hd Hp. unfold createOfferAndEmit_begin, initPeerConnection.
  destruct (pc w) as [p|] eqn:E; simpl; rewrite Hd; simpl.
  - rewrite (Hp p eq_refl). simpl. by eexists.
  - by eexists.
Qed.

(** *** The invariant under the writes of the handlers *)

Ltac forall_hyps :=
  repeat match goal with
         | H : Forall _ _ |- _ => rewrite Forall_forall in H
         end.

Lemma elem_of_insert_inv {A} (l : list A) i x y :
  y ∈ <[i:=x]> l -> y = x \/ y ∈ l.
Proof.
  intros H. apply list_elem_of_lookup in H as [j Hj].
  apply list_lookup_insert_Some in Hj as [(-> & -> & _)|[_ Hj]]; [by left|].
  right. by eapply list_elem_of_lookup_2.
Qed.

Lemma elem_of_insert_other {A} (l : list A) i e x y :
  l !! i = Some e -> y ∈ l -> y ∈ <[i:=x]> l \/ y = e.
Proof.
  intros He H. apply list_elem_of_lookup in H as [j Hj].
  destruct (decide (i = j)) as [->|Hne]; [right; congruence|].
  left. apply list_elem_of_lookup. exists j. by rewrite list_lookup_insert_ne.
Qed.

Lemma uref_inj (l : list RemoteUser) u u' :
  NoDup (uref <$> l) -> u ∈ l -> u' ∈ l -> uref u = uref u' -> u = u'.
Proof.
  intros Hnd Hu Hu' E.
  apply list_elem_of_lookup in Hu as [i Hi]. apply list_elem_of_lookup in Hu' as [j Hj].
  assert (i = j) as ->; [|congruence].
  eapply NoDup_lookup; [exact Hnd|..].
  - rewrite list_lookup_fmap, Hi. reflexivity.
  - rewrite list_lookup_fmap, Hj. simpl. by rewrite E.
Qed.

Lemma pid_inj (l : list PullCall) p p' :
  NoDup (pid <$> l) -> p ∈ l -> p' ∈ l -> pid p = pid p' -> p = p'.
Proof.
  intros Hnd Hu Hu' E.
  apply list_elem_of_lookup in Hu as [i Hi]. apply list_elem_of_lookup in Hu' as [j Hj].
  assert (i = j) as ->; [|congruence].
  eapply NoDup_lookup; [exact Hnd|..].
  - rewrite list_lookup_fmap, Hi. reflexivity.
  - rewrite list_lookup_fmap, Hj. simpl. by rewrite E.
Qed.

Lemma kept_refl u : kept u u.
Proof.
  repeat split; try done.
  - intros w Hw. by exists w.
  - intros w Hw. left. by exists w.
  - intros s Hs. by left.
Qed.

(** An entry of the array is overwritten by a [kept] version of itself. *)
Lemma Inv'_replace users gone calls m n idx e u' :
  Inv' users gone calls m n ->
  users !! idx = Some e -> kept e u' -> session_ok u' ->
  Inv' (<[idx:=u']> users) gone calls m n.
Proof.
  intros [] He (Kr & Ki & Kf & Kw & Kw' & Ks & Ks') Hok.
  assert (uref <$> <[idx:=u']> users = uref <$> users) as Eref.
  { rewrite list_fmap_insert, Kr. apply list_insert_id.
    by rewrite list_lookup_fmap, He. }
  assert (e ∈ users) as Hin by (by eapply list_elem_of_lookup_2).
  assert (forall u, u ∈ <[idx:=u']> users ->
            u ∈ users \/ u = u') as Hfrom.
  { intros u Hu. apply elem_of_insert_inv in Hu as [->|Hu]; [by right|by left]. }
  split; try done.
  - by rewrite fmap_app, Eref, <- fmap_app.
  - intros u Hu. apply elem_of_app in Hu as [Hu|Hu].
    + apply Hfrom in Hu as [Hu| ->].
      * apply inv_uref_lt0, elem_of_app. by left.
      * rewrite Kr. apply inv_uref_lt0, elem_of_app. by left.
    + apply inv_uref_lt0, elem_of_app. by right.
  - by apply Forall_insert.
  - apply Forall_insert; [done|].
    intros s' tr Hs' Htr. destruct (Ks' _ Hs') as [Hs|Hs].
    + rewrite Forall_forall in inv_streams0.
      destruct (inv_streams0 e Hin s' tr Hs Htr) as (x & Hx & Hsx & Hen).
      exists x. rewrite Kr, Kf. done.
    + rewrite Hs in Htr. inversion Htr.
  - rewrite Forall_forall in *. intros p Hp u tr Hu Hcap Hw Htr.
    apply Hfrom in Hu as [Hu| ->].
    + by eapply inv_collected0.
    + rewrite Kr in Hcap.
      destruct (inv_collected0 p Hp e tr Hin Hcap Hw Htr) as (x & Hx & Hsx & Hen).
      exists x. rewrite Kr. repeat split; [done..|].
      destruct Hen as [Hen|(s & Hs & Hts)]; [by left|right].
      exists s. split; [by apply Ks|done].
  - apply Forall_insert; [done|].
    intros w' i Hw' Hi. destruct (Kw' _ Hw') as [(w & Hw & El)|El].
    + rewrite El in Hi. rewrite Forall_forall in inv_listeners0.
      destruct (inv_listeners0 e Hin w i Hw Hi) as (p & ? & ? & ? & ?).
      exists p. by rewrite Kr.
    + rewrite El in Hi. inversion Hi.
  - rewrite Forall_forall in *. intros p Hp u Hu Hcap Hph.
    apply Hfrom in Hu as [Hu| ->]; [by eapply inv_registered0|].
    rewrite Kr in Hcap.
    destruct (inv_registered0 p Hp e Hin Hcap Hph) as (w & Hw & Hi).
    destruct (Kw _ Hw) as (w' & Hw' & El). exists w'. by rewrite El.
  - rewrite Forall_forall in *. intros p Hp Hph.
    destruct (inv_ready0 p Hp Hph) as (u & Hu & Hcap & Hw).
    destruct (elem_of_insert_other users idx e u' u He Hu) as [Hu'| ->].
    + by exists u.
    + exists u'. split; [|split].
      * apply list_elem_of_insert. by eapply lookup_lt_Some.
      * by rewrite Kr.
      * destruct Hw as [w Hw]. destruct (Kw _ Hw) as (w' & Hw' & _). by exists w'.
Qed.

(** References are handed out in increasing order. *)
Lemma Inv'_later users gone calls m n n' :
  Inv' users gone calls m n -> n <= n' -> Inv' users gone calls m n'.
Proof.
  intros [] Hle. split; try done.
  - intros u Hu. specialize (inv_uref_lt0 u Hu). lia.
  - eapply Forall_impl; [exact inv_calls_lt0|].
    intros p (H1 & H2 & H3). repeat split; [lia|..].
    + intros r Hr. specialize (H2 r Hr). lia.
    + intros tr Hr. specialize (H3 tr Hr). lia.
  - intros tr Htr. specialize (inv_store_lt0 tr Htr). lia.
Qed.

(** A fresh entry, without listener and with an empty buffer, is pushed. *)
Lemma Inv'_push users gone calls m n u :
  Inv' users gone calls m n ->
  n <= uref u -> session_ok u ->
  (forall w, receivePcWrap u = Some w -> trackListeners w = []) ->
  (forall s, playStream u = Some s -> tracks s = []) ->
  Inv' (users ++ [u]) gone calls m (S (uref u)).
Proof.
  intros HI Hn Hok Hl Hs.
  assert (Inv' users gone calls m (S (uref u))) as [] by (eapply Inv'_later; [done|lia]).
  destruct HI as [_ Hlt _ Hcl _ _ _ _ _ _ _ _].
  assert (forall p, p ∈ calls -> remoteUser p <> Some (uref u)) as Hfresh.
  { intros p Hp E. rewrite Forall_forall in Hcl.
    destruct (Hcl p Hp) as (_ & H2 & _). specialize (H2 _ E). lia. }
  split; try done.
  - rewrite <- app_assoc. rewrite fmap_app. rewrite fmap_app in inv_urefs0.
    apply NoDup_app in inv_urefs0 as (N1 & N2 & N3).
    apply NoDup_app. split; [done|]. split.
    + intros r Hr Hr'. rewrite fmap_app in Hr'. apply elem_of_app in Hr' as [Hr'|Hr'].
      * apply list_elem_of_singleton in Hr'. subst r.
        apply list_elem_of_fmap in Hr as (v & E & Hv).
        assert (uref v < n) by (apply Hlt, elem_of_app; by left). lia.
      * by apply (N2 r).
    + rewrite fmap_app. simpl. apply NoDup_cons. split; [|done].
      intros Hr. apply list_elem_of_fmap in Hr as (v & E & Hv).
      assert (uref v < n) by (apply Hlt, elem_of_app; by right). lia.
  - intros v Hv. rewrite <- app_assoc in Hv. apply elem_of_app in Hv as [Hv|Hv].
    + apply inv_uref_lt0, elem_of_app. by left.
    + apply elem_of_cons in Hv as [->|Hv]; [lia|].
      apply inv_uref_lt0, elem_of_app. by right.
  - apply Forall_app. split; [done|]. by apply Forall_singleton.
  - apply Forall_app. split; [done|]. apply Forall_singleton.
    intros s tr Hs' Htr. rewrite (Hs _ Hs') in Htr. inversion Htr.
  - rewrite Forall_forall in *. intros p Hp v tr Hv Hcap.
    apply elem_of_app in Hv as [Hv|Hv]; [by eapply inv_collected0|].
    apply list_elem_of_singleton in Hv. subst v. by apply Hfresh in Hcap.
  - apply Forall_app. split; [done|]. apply Forall_singleton.
    intros w i Hw Hi. rewrite (Hl _ Hw) in Hi. inversion Hi.
  - rewrite Forall_forall in *. intros p Hp v Hv Hcap.
    apply elem_of_app in Hv as [Hv|Hv]; [by eapply inv_registered0|].
    apply list_elem_of_singleton in Hv. subst v. by apply Hfresh in Hcap.
  - rewrite Forall_forall in *. intros p Hp Hph.
    destruct (inv_ready0 p Hp Hph) as (v & Hv & ?). exists v.
    split; [apply elem_of_app; by left|done].
Qed.

(** *** upsertRemoteUser *)

Arguments reserve : simpl never.
Arguments extend : simpl never.
Arguments specs_of : simpl never.

(** A new receive wrapper with the slots of a non-empty publication list. *)
Lemma extend_new ref (ps : list Pusher) :
  ps <> [] ->
  direction (extend (PCWrap.new ref recvonly) (specs_of ps)) = recvonly /\
  (exists p, pc (extend (PCWrap.new ref recvonly) (specs_of ps)) = Some p /\
             transceivers p <> []) /\
  (forall id, is_Some (recvMap (extend (PCWrap.new ref recvonly) (specs_of ps)) !! id) <->
              id ∈ pusherId <$> ps) /\
  trackListeners (extend (PCWrap.new ref recvonly) (specs_of ps)) = [].
Proof.
  intros Hne. rewrite extend_recvonly by done. cbn [direction pc recvMap trackListeners].
  split; [done|]. split; [|split; [|done]].
  - eexists. split; [done|]. apply reserve_nonempty. right.
    destruct ps as [|p ps]; [done|]. eexists _, _. split; [reflexivity|]. apply lookup_empty.
  - intros id. rewrite reserve_dom, specs_of_ids. cbn [PCWrap.new recvMap].
    rewrite lookup_empty. split; [intros [[? H]|H]; done|by right].
Qed.

Lemma createRemoteUser_fields ref user :
  uref (createRemoteUser nfc ref user).1 = ref /\
  userId (createRemoteUser nfc ref user).1 = normalizeId nfc (p_userId user) /\
  userName (createRemoteUser nfc ref user).1 = p_userName user /\
  pushers (createRemoteUser nfc ref user).1 = default [] (p_pushers user) /\
  ref < (createRemoteUser nfc ref user).2.
Proof.
  unfold createRemoteUser. simpl.
  destruct (0 <? length (default [] (p_pushers user)))%nat; simpl; repeat split; lia.
Qed.

Lemma createRemoteUser_ok ref user :
  session_ok (createRemoteUser nfc ref user).1 /\
  (forall w, receivePcWrap (createRemoteUser nfc ref user).1 = Some w ->
     trackListeners w = []) /\
  (forall s, playStream (createRemoteUser nfc ref user).1 = Some s -> tracks s = []).
Proof.
  unfold createRemoteUser. cbn [pushers userId userName].
  destruct (default [] (p_pushers user)) as [|p ps] eqn:E; simpl.
  - repeat split; done.
  - destruct (extend_new (ref + 1) (p :: ps)) as (H1 & H2 & H3 & H4); [done|].
    unfold session_ok. simpl. split; [|split].
    + split; [done|]. split; [done|]. split; [by eexists|]. split; [done|].
      split; [done|]. rewrite H4. apply NoDup_nil_2.
    + intros w Hw. inversion Hw. by subst.
    + intros s Hs. by inversion Hs.
Qed.

Lemma merge_user_fields ref user e :
  uref (merge_user ref user e).1 = uref e /\
  userId (merge_user ref user e).1 = userId e /\
  userName (merge_user ref user e).1 =
    (match p_userName user with Some x => Some x | None => userName e end) /\
  pushers (merge_user ref user e).1 =
    pushers e ++ filter (fun p => pusherId p ∉ pusherId <$> pushers e)
                   (default [] (p_pushers user)) /\
  videoRef (merge_user ref user e).1 = videoRef e /\
  videoMuted (merge_user ref user e).1 = videoMuted e /\
  audioMuted (merge_user ref user e).1 = audioMuted e /\
  state (merge_user ref user e).1 = state e /\
  ref <= (merge_user ref user e).2.
Proof.
  unfold merge_user. simpl.
  destruct (receivePcWrap e) as [w|];
    repeat (match goal with |- context [if ?c then _ else _] => destruct c end);
    simpl; repeat split; lia.
Qed.

Lemma merge_user_ok ref user e :
  session_ok e ->
  kept e (merge_user ref user e).1 /\ session_ok (merge_user ref user e).1.
Proof.
  intros Hok. unfold merge_user. simpl.
  set (fresh := filter _ (default [] (p_pushers user))).
  unfold session_ok in Hok.
  destruct (receivePcWrap e) as [w|] eqn:Hw.
  - destruct Hok as (Hd & Hp & Hs & (p & Hpc & Htr) & Hdom & Hnd).
    assert (kept e (set_pushers (set_userName e
              match p_userName user with Some n => Some n | None => userName e end)
              (pushers e ++ fresh))) as K0.
    { repeat split; simpl; try done.
      - intros w0 Hw0. exists w0. split; [congruence|done].
      - intros w' Hw'. left. exists w'. split; [congruence|done].
      - intros s' Hs'. by left. }
    assert (session_ok (set_pushers (set_userName e
              match p_userName user with Some n => Some n | None => userName e end)
              (pushers e ++ fresh)) \/ fresh <> []) as S0.
    { destruct fresh as [|f fs] eqn:Ef; [left|by right].
      unfold session_ok. simpl. rewrite Hw, app_nil_r. repeat split; try done.
      - by eexists.
      - apply Hdom.
      - apply Hdom. }
    destruct (0 <? length (default [] (p_pushers user)))%nat eqn:Hnew; simpl.
    + destruct (0 <? length (specs_of fresh))%nat eqn:Hsp; simpl.
      * split.
        -- repeat split; simpl; try done.
           ++ intros w0 Hw0. eexists. split; [reflexivity|].
              rewrite extend_recvonly by done. simpl. congruence.
           ++ intros w' Hw'. left. exists w. split; [done|].
              inversion Hw'. rewrite extend_recvonly by done. done.
           ++ intros s' Hs'. by left.
        -- unfold session_ok. simpl. rewrite extend_recvonly by done. simpl.
           split; [done|]. split.
           { intros E. apply app_eq_nil in E as [E _]. done. }
           split; [done|]. split; [|split; [|done]].
           ++ eexists. split; [done|]. apply reserve_nonempty. left.
              unfold initPeerConnection. rewrite Hpc. done.
           ++ intros id. rewrite reserve_dom, specs_of_ids, fmap_app, elem_of_app.
              by rewrite Hdom.
      * destruct S0 as [S0|S0]; [done|].
        destruct fresh; [done|]. simpl in Hsp. done.
    + destruct S0 as [S0|S0]; [done|].
      destruct (default [] (p_pushers user)); [|done].
      subst fresh. done.
  - destruct Hok as [Hp Hs]. rewrite Hp. simpl.
    destruct fresh as [|f fs] eqn:Ef; simpl.
    + split.
      * unfold kept. simpl. split_and!; try done.
        -- intros w0 Hw0. congruence.
        -- intros w' Hw'. congruence.
        -- intros s' Hs'. by left.
      * unfold session_ok. simpl. by rewrite Hw.
    + split.
      * unfold kept. simpl. split_and!; try done.
        -- intros w0 Hw0. congruence.
        -- intros w' Hw'. right. inversion Hw'. by rewrite extend_recvonly.
        -- intros s' Hs'. congruence.
        -- intros s' Hs'. right. by inversion Hs'.
      * destruct (extend_new ref (f :: fs)) as (H1 & H2 & H3 & H4); [done|].
        unfold session_ok. simpl.
        split; [done|]. split; [done|]. split; [by eexists|]. split; [done|].
        split; [done|]. rewrite H4. apply NoDup_nil_2.
Qed.

Lemma upsertRemoteUser_frame user st :
  pulls (upsertRemoteUser nfc user st).1 = pulls st /\
  store (upsertRemoteUser nfc user st).1 = store st /\
  departed (upsertRemoteUser nfc user st).1 = departed st /\
  effects (upsertRemoteUser nfc user st).1 = effects st /\
  wsStatus (upsertRemoteUser nfc user st).1 = wsStatus st /\
  joinPhase (upsertRemoteUser nfc user st).1 = joinPhase st /\
  nextRef st <= nextRef (upsertRemoteUser nfc user st).1.
Proof.
  unfold upsertRemoteUser.
  destruct (find_first (same_id nfc user) (remoteUsers st)) as [[idx e]|].
  - pose proof (merge_user_fields (nextRef st) user e) as H.
    destruct (merge_user (nextRef st) user e) as [u n]. simpl in *.
    repeat split; try done. lia.
  - pose proof (createRemoteUser_fields (nextRef st) user) as H.
    destruct (createRemoteUser nfc (nextRef st) user) as [u n]. simpl in *.
    repeat split; try done. lia.
Qed.

Lemma upsertRemoteUser_Inv user st :
  Inv st -> Inv (upsertRemoteUser nfc user st).1.
Proof.
  intros HI. unfold Inv, upsertRemoteUser in *.
  destruct (find_first (same_id nfc user) (remoteUsers st)) as [[idx e]|] eqn:Hf.
  - apply find_first_Some in Hf as (He & _ & _).
    pose proof (merge_user_fields (nextRef st) user e) as (_ & _ & _ & _ & _ & _ & _ & _ & Hn).
    assert (session_ok e) as Hok.
    { destruct HI. rewrite Forall_forall in inv_session0. apply inv_session0.
      by eapply list_elem_of_lookup_2. }
    destruct (merge_user_ok (nextRef st) user e Hok) as [K S].
    destruct (merge_user (nextRef st) user e) as [u n]. simpl in *.
    eapply Inv'_later; [|exact Hn]. by eapply Inv'_replace.
  - pose proof (createRemoteUser_fields (nextRef st) user) as (Hr & _ & _ & _ & Hn).
    destruct (createRemoteUser_ok (nextRef st) user) as (S & Hl & Hs).
    destruct (createRemoteUser nfc (nextRef st) user) as [u n]. simpl in *.
    eapply Inv'_later; [eapply Inv'_push; [exact HI|lia|done..]|lia].
Qed.

(** *** Subscribe calls *)

Lemma not_waiting_AwaitOffer p : phase p = AwaitOffer -> ~ waiting p.
Proof. intros E [H|H]; congruence. Qed.

Lemma not_waiting_AwaitResponse p : phase p = AwaitResponse -> ~ waiting p.
Proof. intros E [H|H]; congruence. Qed.

Lemma not_waiting_Rejected p e : phase p = Rejected e -> ~ waiting p.
Proof. intros E [H|H]; congruence. Qed.

Lemma not_waiting_Fulfilled p : phase p = Fulfilled -> ~ waiting p.
Proof. intros E [H|H]; congruence. Qed.

(** A new call is recorded, before it waits for tracks. *)
Lemma Inv'_call users gone calls m n p :
  Inv' users gone calls m n ->
  pid p = n -> (forall r, remoteUser p = Some r -> r < n) -> tracks_ p = [] ->
  specs p <> [] -> ~ waiting p ->
  Inv' users gone (calls ++ [p]) m (S n).
Proof.
  intros HI Hpid Hcap Htr Hsp Hnw.
  assert (Inv' users gone calls m (S n)) as [] by (eapply Inv'_later; [done|lia]).
  destruct HI as [_ _ _ Hcl _ _ _ _ _ _ _ _].
  split; try done.
  - rewrite fmap_app. apply NoDup_app. split; [done|]. split.
    + intros i Hi Hi'. apply list_elem_of_singleton in Hi'. subst i.
      apply list_elem_of_fmap in Hi as (q & E & Hq).
      rewrite Forall_forall in Hcl. destruct (Hcl q Hq) as (H1 & _). lia.
    + apply NoDup_singleton.
  - apply Forall_app. split; [done|]. apply Forall_singleton.
    split; [lia|]. split.
    + intros r Hr. specialize (Hcap r Hr). lia.
    + intros tr Ht. rewrite Htr in Ht. inversion Ht.
  - apply Forall_app. split; [done|]. apply Forall_singleton.
    intros u tr _ _ Hw. done.
  - rewrite Forall_forall in *. intros u Hu w i Hw Hi.
    destruct (inv_listeners0 u Hu w i Hw Hi) as (q & Hq & ?). exists q.
    split; [apply elem_of_app; by left|done].
  - apply Forall_app. split; [done|]. apply Forall_singleton.
    intros u _ _ Hph. destruct Hnw. by left.
  - apply Forall_app. split; [done|]. apply Forall_singleton.
    intros Hph. destruct Hnw. by right.
  - apply Forall_app. split; [done|]. apply Forall_singleton.
    split; [done|]. split; [|done]. intros Hph. destruct Hnw. by left.
Qed.

(** A call that does not await tracks moves to a phase that does not wait. *)
Lemma Inv'_phase users gone calls m n idx p ph :
  Inv' users gone calls m n ->
  calls !! idx = Some p -> phase p <> AwaitTracks -> ~ waiting (set_phase p ph) ->
  (ph = AwaitOffer \/ ph = AwaitResponse -> tracks_ p = []) ->
  Inv' users gone (<[idx:=set_phase p ph]> calls) m n.
Proof.
  intros [] Hp Hnw Hnw' Htr.
  assert (p ∈ calls) as Hin by (by eapply list_elem_of_lookup_2).
  assert (pid <$> <[idx:=set_phase p ph]> calls = pid <$> calls) as Epid.
  { rewrite list_fmap_insert. apply list_insert_id. by rewrite list_lookup_fmap, Hp. }
  split; try done.
  - by rewrite Epid.
  - apply Forall_insert; [done|]. rewrite Forall_forall in inv_calls_lt0.
    apply (inv_calls_lt0 p Hin).
  - apply Forall_insert; [done|]. intros u tr _ _ Hw. done.
  - rewrite Forall_forall in *. intros u Hu w i Hw Hi.
    destruct (inv_listeners0 u Hu w i Hw Hi) as (q & Hq & Hqi & Hqp & Hqr). exists q.
    split; [|done].
    destruct (elem_of_insert_other calls idx p (set_phase p ph) q Hp Hq) as [H| ->]; done.
  - apply Forall_insert; [done|]. intros u _ _ Hph. destruct Hnw'. by left.
  - apply Forall_insert; [done|]. intros Hph. destruct Hnw'. by right.
  - apply Forall_insert; [done|]. rewrite Forall_forall in inv_counting0.
    destruct (inv_counting0 p Hin) as (H1 & H2 & H3).
    split; [done|]. split.
    + intros Hph. destruct Hnw'. by left.
    + simpl. intros H. by apply Htr.
Qed.

Lemma lookup_pull_Some st i p :
  lookup_pull st i = Some p ->
  exists idx, find_first (has_pid i) (pulls st) = Some (idx, p) /\
              pulls st !! idx = Some p /\ pid p = i.
Proof.
  unfold lookup_pull. intros H.
  destruct (find_first (has_pid i) (pulls st)) as [[idx q]|] eqn:E; [|done].
  simpl in H. inversion H; subst q. exists idx.
  apply find_first_Some in E as (H1 & H2 & _).
  repeat split; [done|]. unfold has_pid in H2. by apply bool_decide_eq_true in H2.
Qed.

Lemma lookup_pull_elem st p :
  NoDup (pid <$> pulls st) -> p ∈ pulls st -> lookup_pull st (pid p) = Some p.
Proof.
  intros Hnd Hp. unfold lookup_pull.
  destruct (find_first (has_pid (pid p)) (pulls st)) as [[idx q]|] eqn:E.
  - simpl. f_equal. apply find_first_Some in E as (H1 & H2 & _).
    unfold has_pid in H2. apply bool_decide_eq_true in H2.
    eapply pid_inj; [done| |done|done]. by eapply list_elem_of_lookup_2.
  - rewrite find_first_None in E. specialize (E p Hp).
    unfold has_pid in E. by apply bool_decide_eq_false in E.
Qed.

Lemma lookup_user_Some st r u :
  lookup_user st r = Some u -> uref u = r /\ (u ∈ remoteUsers st \/ u ∈ departed st).
Proof.
  unfold lookup_user. intros H.
  destruct (find_first (has_uref r) (remoteUsers st)) as [[idx v]|] eqn:E.
  - inversion H; subst v. apply find_first_Some in E as (H1 & H2 & _).
    unfold has_uref in H2. apply bool_decide_eq_true in H2.
    split; [done|]. left. by eapply list_elem_of_lookup_2.
  - destruct (find_first (has_uref r) (departed st)) as [[idx v]|] eqn:E'; [|done].
    simpl in H. inversion H; subst v. apply find_first_Some in E' as (H1 & H2 & _).
    unfold has_uref in H2. apply bool_decide_eq_true in H2.
    split; [done|]. right. by eapply list_elem_of_lookup_2.
Qed.

Lemma find_uref_elem (l : list RemoteUser) u :
  NoDup (uref <$> l) -> u ∈ l ->
  exists idx, find_first (has_uref (uref u)) l = Some (idx, u) /\ l !! idx = Some u.
Proof.
  intros Hnd Hu.
  destruct (find_first (has_uref (uref u)) l) as [[idx v]|] eqn:E.
  - apply find_first_Some in E as (H1 & H2 & _).
    unfold has_uref in H2. apply bool_decide_eq_true in H2.
    assert (v = u) as ->.
    { eapply uref_inj; [done| |done|done]. by eapply list_elem_of_lookup_2. }
    by exists idx.
  - rewrite find_first_None in E. specialize (E u Hu).
    unfold has_uref in E. by apply bool_decide_eq_false in E.
Qed.

(** *** pullRemoteUser *)

Lemma pullRemoteUser_spec target sp st :
  Inv st -> sp <> [] ->
  exists p,
    pullRemoteUser target sp st =
    set_pulls (set_nextRef st (S (nextRef st))) (pulls st ++ [p]) /\
    pid p = nextRef st /\ targetUserId p = target /\ specs p = sp /\ tracks_ p = [] /\
    (forall r, remoteUser p = Some r -> exists u, u ∈ remoteUsers st /\ uref u = r) /\
    (phase p = AwaitOffer \/ exists e, phase p = Rejected e) /\
    (phase p = AwaitOffer ->
     exists u, u ∈ remoteUsers st /\ userId u = target /\
               remoteUser p = Some (uref u) /\ is_Some (receivePcWrap u)).
Proof.
  intros HI Hsp. unfold pullRemoteUser. simpl.
  destruct (find_first (λ u, bool_decide (userId u = target)) (remoteUsers st))
    as [[idx u]|] eqn:Hf.
  - apply find_first_Some in Hf as (Hu & Hid & Hfirst).
    apply bool_decide_eq_true in Hid.
    assert (u ∈ remoteUsers st) as Hin by (by eapply list_elem_of_lookup_2).
    destruct (receivePcWrap u) as [w|] eqn:Hw.
    + assert (session_ok u) as Hok.
      { destruct HI. rewrite Forall_forall in inv_session0. by apply inv_session0. }
      unfold session_ok in Hok. rewrite Hw in Hok.
      destruct Hok as (Hd & _ & _ & (q & Hq & Htr) & _).
      rewrite (createOfferAndEmit_begin_ready _ w q Hd Hq Htr).
      assert (<[idx:=set_receivePcWrap u (Some w)]> (remoteUsers st) = remoteUsers st) as ->.
      { apply list_insert_id. rewrite Hu. f_equal. destruct u; simpl in *. by subst. }
      eexists. split; [destruct st; reflexivity|]. simpl.
      split; [done|]. split; [done|]. split; [done|]. split; [done|]. split; [|split].
      * intros r Hr. inversion Hr. by exists u.
      * by left.
      * intros _. exists u. split; [done|]. split; [done|]. split; [done|]. by rewrite Hw.
    + eexists. split; [reflexivity|]. simpl.
      split; [done|]. split; [done|]. split; [done|]. split; [done|]. split; [|split].
      * intros r Hr. inversion Hr. by exists u.
      * right. by eexists.
      * done.
  - eexists. split; [reflexivity|]. simpl.
    split; [done|]. split; [done|]. split; [done|]. split; [done|]. split; [|split].
    + done.
    + right. by eexists.
    + done.
Qed.

(** A subscribe call starts: the array, the store and the other calls stay. *)
Lemma pullRemoteUser_Inv target sp st :
  Inv st -> sp <> [] -> Inv (pullRemoteUser target sp st).
Proof.
  intros HI Hsp.
  destruct (pullRemoteUser_spec target sp st HI Hsp)
    as (p & -> & Hpid & _ & Hs & Ht & Hr & Hph & _).
  unfold Inv. simpl. apply Inv'_call; try done.
  - intros r E. destruct (Hr r E) as (u & Hu & <-).
    destruct HI. apply inv_uref_lt0, elem_of_app. by left.
  - congruence.
  - destruct Hph as [E|[e E]]; [by apply not_waiting_AwaitOffer|by eapply not_waiting_Rejected].
Qed.

Lemma pull_pushers_Inv u st : Inv st -> Inv (pull_pushers u st).
Proof.
  intros HI. unfold pull_pushers.
  destruct (pushers u) as [|p ps] eqn:E; simpl; [done|].
  apply pullRemoteUser_Inv; [done|]. unfold specs_of. done.
Qed.

Lemma upsert_and_pull_Inv st user : Inv st -> Inv (upsert_and_pull nfc st user).
Proof.
  intros HI. unfold upsert_and_pull.
  pose proof (upsertRemoteUser_Inv user st HI) as H.
  destruct (upsertRemoteUser nfc user st) as [st1 u]. by apply pull_pushers_Inv.
Qed.

(** *** Writes to the store and to a buffer *)

Lemma elem_of_insert_elsewhere {A} (l : list A) i x y :
  y ∈ <[i:=x]> l -> y = x \/ exists j, j <> i /\ l !! j = Some y.
Proof.
  intros H. apply list_elem_of_lookup in H as [j Hj].
  apply list_lookup_insert_Some in Hj as [(-> & -> & _)|[Hne Hj]]; [by left|].
  right. exists j. split; [done|done].
Qed.

Lemma uref_elsewhere (l : list RemoteUser) i j e v :
  NoDup (uref <$> l) -> l !! i = Some e -> l !! j = Some v -> j <> i ->
  uref v <> uref e.
Proof.
  intros Hnd Hi Hj Hne E. apply Hne.
  eapply NoDup_lookup; [exact Hnd|..].
  - rewrite list_lookup_fmap, Hj. reflexivity.
  - rewrite list_lookup_fmap, Hi. simpl. by rewrite E.
Qed.

(** The entry [e] of the array is overwritten by a [grown] version [u'],
    and the flags of tracks of its session are written. *)
Lemma Inv'_update users gone calls m m' n idx e u' :
  Inv' users gone calls m n ->
  users !! idx = Some e -> grown e u' -> session_ok u' ->
  flags_written e m m' ->
  stream_ok m' u' ->
  (forall tr x x', m !! tr = Some x -> m' !! tr = Some x' ->
     session x = Some (uref e) -> enabled x = true ->
     enabled x' = true \/ exists s, playStream u' = Some s /\ tr ∈ tracks s) ->
  Inv' (<[idx:=u']> users) gone calls m' n.
Proof.
  intros [] He (Kr & Kw & Kw' & Ks) Hok Hfw Hso Hen.
  assert (uref <$> <[idx:=u']> users = uref <$> users) as Eref.
  { rewrite list_fmap_insert, Kr. apply list_insert_id.
    by rewrite list_lookup_fmap, He. }
  assert (e ∈ users) as Hin by (by eapply list_elem_of_lookup_2).
  assert (NoDup (uref <$> users)) as Hnd.
  { rewrite fmap_app in inv_urefs0. by apply NoDup_app in inv_urefs0 as (? & _). }
  assert (forall v, v ∈ <[idx:=u']> users ->
            v = u' \/ (v ∈ users /\ uref v <> uref e)) as Hfrom.
  { intros v Hv. apply elem_of_insert_elsewhere in Hv as [->|(j & Hne & Hj)]; [by left|].
    right. split; [by eapply list_elem_of_lookup_2|]. by eapply uref_elsewhere. }
  assert (forall tr x, m !! tr = Some x -> session x <> Some (uref e) -> m' !! tr = Some x)
    as Hsame.
  { intros tr x Hx Hs. specialize (Hfw tr). rewrite Hx in Hfw.
    destruct Hfw as (x' & Hx' & _ & _ & E). by rewrite <- (E Hs). }
  split; try done.
  - by rewrite fmap_app, Eref, <- fmap_app.
  - intros v Hv. apply elem_of_app in Hv as [Hv|Hv].
    + apply Hfrom in Hv as [->|[Hv _]].
      * rewrite Kr. apply inv_uref_lt0, elem_of_app. by left.
      * apply inv_uref_lt0, elem_of_app. by left.
    + apply inv_uref_lt0, elem_of_app. by right.
  - intros tr Htr. apply inv_store_lt0. specialize (Hfw tr).
    destruct (m !! tr); [done|]. rewrite Hfw in Htr. by destruct Htr.
  - by apply Forall_insert.
  - rewrite Forall_forall in *. intros v Hv.
    apply Hfrom in Hv as [->|[Hv Hne]]; [done|].
    intros s tr Hs Htr. destruct (inv_streams0 v Hv s tr Hs Htr) as (x & Hx & Hsx & Hex).
    exists x. split; [|done]. apply Hsame; [done|]. rewrite Hsx. congruence.
  - rewrite Forall_forall in *. intros p Hp v tr Hv Hcap Hw Htr.
    apply Hfrom in Hv as [->|[Hv Hne]].
    + rewrite Kr in Hcap.
      destruct (inv_collected0 p Hp e tr Hin Hcap Hw Htr) as (x & Hx & Hsx & Hex).
      pose proof (Hfw tr) as Hf. rewrite Hx in Hf. destruct Hf as (x' & Hx' & Hk & Hs' & _).
      exists x'. rewrite Kr. split; [done|]. split; [congruence|].
      destruct Hex as [Hex|(s & Hs & Hts)].
      * eapply Hen; done.
      * right. by eapply Ks.
    + destruct (inv_collected0 p Hp v tr Hv Hcap Hw Htr) as (x & Hx & Hsx & Hex).
      exists x. split; [|done]. apply Hsame; [done|]. rewrite Hsx. congruence.
  - apply Forall_insert; [done|].
    intros w' i Hw' Hi. destruct (Kw' _ Hw') as (w & Hw & El).
    rewrite El in Hi. rewrite Forall_forall in inv_listeners0.
    destruct (inv_listeners0 e Hin w i Hw Hi) as (p & ? & ? & ? & ?).
    exists p. by rewrite Kr.
  - rewrite Forall_forall in *. intros p Hp v Hv Hcap Hph.
    apply Hfrom in Hv as [->|[Hv Hne]]; [|by eapply inv_registered0].
    rewrite Kr in Hcap.
    destruct (inv_registered0 p Hp e Hin Hcap Hph) as (w & Hw & Hi).
    destruct (Kw _ Hw) as (w' & Hw' & El). exists w'. by rewrite El.
  - rewrite Forall_forall in *. intros p Hp Hph.
    destruct (inv_ready0 p Hp Hph) as (v & Hv & Hcap & Hw).
    destruct (elem_of_insert_other users idx e u' v He Hv) as [Hv'| ->].
    + by exists v.
    + exists u'. split; [|split].
      * apply list_elem_of_insert. by eapply lookup_lt_Some.
      * by rewrite Kr.
      * destruct Hw as [w Hw]. destruct (Kw _ Hw) as (w' & Hw' & _). by exists w'.
Qed.

Lemma flags_written_refl e m : flags_written e m m.
Proof. intros tr. destruct (m !! tr) as [x|]; [|done]. by exists x. Qed.

(** An object spliced out of the array is written. *)
Lemma Inv'_gone users gone calls m n idx e u' :
  Inv' users gone calls m n ->
  gone !! idx = Some e -> uref u' = uref e ->
  Inv' users (<[idx:=u']> gone) calls m n.
Proof.
  intros [] He Kr.
  assert (uref <$> <[idx:=u']> gone = uref <$> gone) as Eref.
  { rewrite list_fmap_insert, Kr. apply list_insert_id.
    by rewrite list_lookup_fmap, He. }
  split; try done.
  - by rewrite fmap_app, Eref, <- fmap_app.
  - intros v Hv. apply elem_of_app in Hv as [Hv|Hv].
    + apply inv_uref_lt0, elem_of_app. by left.
    + apply elem_of_insert_inv in Hv as [->|Hv].
      * rewrite Kr. apply inv_uref_lt0, elem_of_app. right.
        by eapply list_elem_of_lookup_2.
      * apply inv_uref_lt0, elem_of_app. by right.
Qed.

(** [setTrackEnabledForUser] on the store. *)
Lemma fold_set_enabled k en trs (m : TrackStore) tr :
  fold_left (fun acc t => if bool_decide (kind <$> acc !! t = Some k)
                          then set_enabled acc t en else acc) trs m !! tr =
  (fun x => if bool_decide (tr ∈ trs /\ kind x = k)
            then mkTrack (kind x) en (session x) else x) <$> m !! tr.
Proof.
  revert m. induction trs as [|t trs IH]; intros m; cbn [fold_left].
  - destruct (m !! tr) as [x|]; cbn [fmap option_fmap option_map]; [|done].
    rewrite bool_decide_eq_false_2; [done|]. intros [H _]. inversion H.
  - rewrite IH. clear IH.
    destruct (bool_decide (kind <$> m !! t = Some k)) eqn:Hk.
    + apply bool_decide_eq_true in Hk. unfold set_enabled.
      destruct (decide (t = tr)) as [->|Hne].
      * rewrite lookup_alter_eq.
        destruct (m !! tr) as [x|] eqn:E; cbn [fmap option_fmap option_map]; [|done].
        cbn [fmap option_fmap option_map] in Hk. inversion Hk as [Hk']. f_equal.
        cbn [kind session].
        rewrite (bool_decide_eq_true_2 (tr ∈ tr :: trs ∧ kind x = kind x));
          [|split; [left|done]].
        by destruct (bool_decide _).
      * rewrite lookup_alter_ne by done.
        destruct (m !! tr) as [x|]; cbn [fmap option_fmap option_map]; [|done].
        f_equal. rewrite (bool_decide_ext (tr ∈ trs ∧ kind x = k)
                            (tr ∈ t :: trs ∧ kind x = k)); [done|].
        rewrite elem_of_cons. split; [intros [? ?]; split; [by right|done]|].
        intros [[->|?] ?]; done.
    + apply bool_decide_eq_false in Hk.
      destruct (m !! tr) as [x|] eqn:E; cbn [fmap option_fmap option_map]; [|done].
      f_equal.
      rewrite (bool_decide_ext (tr ∈ trs ∧ kind x = k)
                 (tr ∈ t :: trs ∧ kind x = k)); [done|].
      rewrite elem_of_cons. split; [intros [? ?]; split; [by right|done]|].
      intros [[->|H] Hx]; [|done]. rewrite E in Hk. cbn in Hk. congruence.
Qed.

Lemma session_ok_ext u v :
  receivePcWrap u = receivePcWrap v -> pushers u = pushers v ->
  playStream u = playStream v -> session_ok v -> session_ok u.
Proof. unfold session_ok. intros -> -> ->. done. Qed.

(** [setTrackEnabledForUser(user, kind, !flag)] after the flag of that kind
    was written to the entry. *)
Lemma Inv'_mute users gone calls m n idx e u1 k :
  Inv' users gone calls m n ->
  users !! idx = Some e ->
  uref u1 = uref e -> receivePcWrap u1 = receivePcWrap e ->
  playStream u1 = playStream e -> pushers u1 = pushers e ->
  (forall k', k' <> k -> mutedFlag u1 k' = mutedFlag e k') ->
  Inv' (<[idx:=(setTrackEnabledForUser m u1 k (negb (mutedFlag u1 k))).2]> users)
    gone calls (setTrackEnabledForUser m u1 k (negb (mutedFlag u1 k))).1 n.
Proof.
  intros HI He Er Ew Es Ep Hk.
  assert (e ∈ users) as Hin by (by eapply list_elem_of_lookup_2).
  assert (stream_ok m e /\ session_ok e) as [Hse Hoe].
  { destruct HI. rewrite Forall_forall in inv_streams0, inv_session0. split; auto. }
  unfold setTrackEnabledForUser. cbn [fst snd].
  set (v := match videoRef u1 with Some el => _ | None => None end).
  set (m' := match playStream u1 with Some s => _ | None => m end).
  assert (forall tr, m' !! tr =
            (fun x => if bool_decide (tr ∈ buffered e /\ kind x = k)
                      then mkTrack (kind x) (negb (mutedFlag u1 k)) (session x) else x)
              <$> m !! tr) as Hm'.
  { intros tr. subst m'. unfold buffered. rewrite Es.
    destruct (playStream e) as [s|] eqn:E; cbn [fmap option_fmap option_map default].
    - by rewrite fold_set_enabled.
    - by destruct (m !! tr) as [x|]; cbn. }
  assert (forall tr, tr ∈ buffered e <-> exists s, playStream e = Some s /\ tr ∈ tracks s)
    as Hbuf.
  { intros tr. unfold buffered. destruct (playStream e) as [s|]; cbn.
    - split; [intros ?; by exists s|]. intros (s0 & E0 & ?). inversion E0. by subst.
    - split; [intros H; inversion H|]. intros (s0 & E0 & _). done. }
  eapply Inv'_update; [exact HI|exact He|..].
  - split; [done|]. cbn. rewrite Ew, Es. split; [|split].
    + intros w Hw. by exists w.
    + intros w Hw. by exists w.
    + intros s tr Hs Htr. by exists s.
  - eapply session_ok_ext; [..|exact Hoe]; done.
  - intros tr. rewrite Hm'. destruct (m !! tr) as [x|] eqn:E; cbn; [|done].
    eexists. split; [done|]. case_bool_decide as Hc; cbn; [|done].
    split; [done|]. split; [done|]. intros Hne. exfalso. apply Hne.
    destruct Hc as [Hc _]. apply Hbuf in Hc as (s & Hs & Htr).
    destruct (Hse s tr Hs Htr) as (x0 & Hx0 & Hs0 & _). congruence.
  - intros s tr Hs Htr. cbn in Hs. rewrite Es in Hs.
    destruct (Hse s tr Hs Htr) as (x & Hx & Hsx & Hen).
    rewrite Hm', Hx. cbn. eexists. split; [done|].
    assert (forall k0, mutedFlag (set_videoRef u1 v) k0 = mutedFlag u1 k0) as Ef by done.
    case_bool_decide as Hc; cbn.
    + destruct Hc as [_ <-]. rewrite Ef. split; [congruence|done].
    + split; [congruence|]. rewrite Ef, Hen.
      destruct (decide (kind x = k)) as [Ek|Ek].
      * exfalso. apply Hc. split; [apply Hbuf; by exists s|done].
      * by rewrite Hk.
  - intros tr x x' Hx Hx' Hsx Hen. rewrite Hm', Hx in Hx'. cbn in Hx'.
    inversion Hx' as [E]. clear Hx'. case_bool_decide as Hc; cbn.
    + right. destruct Hc as [Hc _]. apply Hbuf in Hc as (s & Hs & Htr).
      exists s. cbn. by rewrite Es.
    + by left.
Qed.

Lemma click_mute_audio_Inv r st : Inv st -> Inv (click_mute toggleAudioMute r st).
Proof.
  intros HI. unfold click_mute.
  destruct (find_first (has_uref r) (remoteUsers st)) as [[idx u]|] eqn:Hf; [|done].
  apply find_first_Some in Hf as (Hu & _ & _). unfold toggleAudioMute.
  set (u1 := set_audioMuted u _).
  change (negb (Js.truthy (audioMuted u1))) with (negb (mutedFlag u1 audio)).
  pose proof (Inv'_mute _ _ _ _ _ idx u u1 audio HI Hu) as H.
  destruct (setTrackEnabledForUser (store st) u1 audio (negb (mutedFlag u1 audio)))
    as [m' u'] eqn:E.
  unfold Inv. cbn. apply H; try done. intros [] Hk'; done.
Qed.

Lemma click_mute_video_Inv r st : Inv st -> Inv (click_mute toggleVideoMute r st).
Proof.
  intros HI. unfold click_mute.
  destruct (find_first (has_uref r) (remoteUsers st)) as [[idx u]|] eqn:Hf; [|done].
  apply find_first_Some in Hf as (Hu & _ & _). unfold toggleVideoMute.
  set (u1 := set_videoMuted u _).
  change (negb (Js.truthy (videoMuted u1))) with (negb (mutedFlag u1 video)).
  pose proof (Inv'_mute _ _ _ _ _ idx u u1 video HI Hu) as H.
  destruct (setTrackEnabledForUser (store st) u1 video (negb (mutedFlag u1 video)))
    as [m' u'] eqn:E.
  unfold Inv. cbn. apply H; try done. intros [] Hk'; done.
Qed.

(** *** Marks, mounts and departures *)

Lemma kept_same e u' :
  uref u' = uref e -> userId u' = userId e ->
  videoMuted u' = videoMuted e -> audioMuted u' = audioMuted e ->
  receivePcWrap u' = receivePcWrap e -> playStream u' = playStream e ->
  kept e u'.
Proof.
  intros E1 E2 E3 E4 E5 E6. unfold kept. rewrite E1, E2, E5, E6.
  split; [done|]. split; [done|]. split.
  { intros []; unfold mutedFlag; by rewrite ?E3, ?E4. }
  split; [|split; [|split]].
  - intros w Hw. by exists w.
  - intros w Hw. left. by exists w.
  - done.
  - intros s Hs. by left.
Qed.

Lemma mark_user_Inv id s st : Inv st -> Inv (mark_user id s st).
Proof.
  intros HI. unfold mark_user.
  destruct (find_first (is_user id) (remoteUsers st)) as [[idx u]|] eqn:Hf; [|done].
  apply find_first_Some in Hf as (Hu & _ & _). unfold Inv. cbn.
  eapply Inv'_replace; [exact HI|exact Hu|by apply kept_same|].
  eapply (session_ok_ext _ u); [done..|]. destruct HI.
  rewrite Forall_forall in inv_session0. apply inv_session0.
  by eapply list_elem_of_lookup_2.
Qed.

Lemma video_mounted_Inv r st : Inv st -> Inv (video_mounted r st).
Proof.
  intros HI. unfold video_mounted.
  destruct (find_first (has_uref r) (remoteUsers st)) as [[idx u]|] eqn:Hf; [|done].
  apply find_first_Some in Hf as (Hu & _ & _). unfold Inv. cbn.
  eapply Inv'_replace; [exact HI|exact Hu|by apply kept_same|].
  eapply (session_ok_ext _ u); [done..|]. destruct HI.
  rewrite Forall_forall in inv_session0. apply inv_session0.
  by eapply list_elem_of_lookup_2.
Qed.

Lemma splice1_middle {A} (l : list A) idx x :
  l !! idx = Some x ->
  l = take idx l ++ x :: drop (S idx) l /\ splice1 idx l = take idx l ++ drop (S idx) l.
Proof. intros H. split; [by rewrite take_drop_middle|done]. Qed.

Lemma elem_of_splice1 {A} (l : list A) idx x :
  x ∈ splice1 idx l -> x ∈ l.
Proof.
  unfold splice1. intros H. apply elem_of_app in H as [H|H].
  - by eapply subseteq_take.
  - by eapply subseteq_drop.
Qed.

(** An entry leaves the array while no continuation is queued. *)
Lemma Inv'_leave users gone calls m n idx u u1 :
  Inv' users gone calls m n ->
  (forall p, p ∈ calls -> phase p <> TracksReady) ->
  users !! idx = Some u -> uref u1 = uref u ->
  Inv' (splice1 idx users) (gone ++ [u1]) calls m n.
Proof.
  intros [] Hq Hu Er.
  destruct (splice1_middle users idx u Hu) as [Eu Es].
  assert (forall v, v ∈ splice1 idx users -> v ∈ users) as Hsub
    by (intros v; apply elem_of_splice1).
  assert (Forall session_ok (splice1 idx users) /\
          Forall (stream_ok m) (splice1 idx users) /\
          Forall (listeners_ok calls) (splice1 idx users)) as (F1 & F2 & F3).
  { rewrite !Forall_forall in *. split_and!; intros v Hv; auto. }
  split; try done.
  - rewrite Es. rewrite Eu in inv_urefs0 at 1.
    rewrite !fmap_app in *. rewrite fmap_cons in inv_urefs0. cbn. rewrite Er.
    assert ((((uref <$> take idx users) ++ (uref <$> drop (S idx) users)) ++
              (uref <$> gone) ++ [uref u]) ≡ₚ
            (((uref <$> take idx users) ++ uref u :: (uref <$> drop (S idx) users)) ++
              (uref <$> gone))) as ->; [|done].
    rewrite <- !app_assoc. apply Permutation_app_head.
    rewrite app_assoc. rewrite <- Permutation_cons_append. simpl. done.
  - intros v Hv. apply elem_of_app in Hv as [Hv|Hv].
    + apply inv_uref_lt0, elem_of_app. left. by apply Hsub.
    + apply elem_of_app in Hv as [Hv|Hv].
      * apply inv_uref_lt0, elem_of_app. by right.
      * apply list_elem_of_singleton in Hv. subst v. rewrite Er.
        apply inv_uref_lt0, elem_of_app. left. by eapply list_elem_of_lookup_2.
  - rewrite Forall_forall in *. intros p Hp v tr Hv. apply inv_collected0; auto.
  - rewrite Forall_forall in *. intros p Hp v Hv. apply inv_registered0; auto.
  - rewrite Forall_forall in *. intros p Hp Hph. by destruct (Hq p Hp).
Qed.

Lemma user_leave_Inv id st : Inv st -> quiet st -> Inv (user_leave id st).
Proof.
  intros HI Hq. unfold user_leave.
  destruct (find_first (is_user id) (remoteUsers st)) as [[idx u]|] eqn:Hf; [|done].
  apply find_first_Some in Hf as (Hu & _ & _). unfold Inv. cbn.
  by eapply Inv'_leave.
Qed.

(** *** Settled promises of a subscribe call *)

Lemma update_pull_lookup st i p f :
  lookup_pull st i = Some p ->
  exists idx, pulls st !! idx = Some p /\ pid p = i /\
              update_pull st i f = set_pulls st (<[idx:=f p]> (pulls st)).
Proof.
  intros H. destruct (lookup_pull_Some st i p H) as (idx & Hf & Hp & Hi).
  exists idx. unfold update_pull. by rewrite Hf.
Qed.

Lemma offer_settled_Inv i offer st : Inv st -> Inv (offer_settled i offer st).
Proof.
  intros HI. unfold offer_settled.
  destruct (lookup_pull st i) as [p|] eqn:Hl; [|done].
  destruct (phase p) eqn:Hph; try done.
  assert (tracks_ p = []) as Htr.
  { destruct (lookup_pull_Some st i p Hl) as (idx & _ & Hp & _).
    destruct HI. rewrite Forall_forall in inv_counting0.
    apply (inv_counting0 p); [by eapply list_elem_of_lookup_2|by left]. }
  destruct offer as [o|e].
  - destruct (update_pull_lookup st i p (fun p => set_phase p AwaitResponse) Hl)
      as (idx & Hp & _ & ->).
    unfold Inv. cbn. eapply Inv'_phase; [exact HI|exact Hp|congruence| |done].
    by apply not_waiting_AwaitResponse.
  - destruct (update_pull_lookup st i p (fun p => set_phase p (Rejected e)) Hl)
      as (idx & Hp & _ & ->).
    unfold Inv. cbn. eapply Inv'_phase; [exact HI|exact Hp|congruence| |].
    + by eapply not_waiting_Rejected.
    + intros [H|H]; done.
Qed.

(** A listener is registered on the session of an entry of the array. *)
Lemma Inv'_listen users gone calls m n idx u w w1 j p :
  Inv' users gone calls m n ->
  users !! idx = Some u -> receivePcWrap u = Some w ->
  direction w1 = direction w -> recvMap w1 = recvMap w ->
  trackListeners w1 = trackListeners w ->
  (exists q, pc w1 = Some q /\ transceivers q <> []) ->
  calls !! j = Some p -> phase p = AwaitResponse -> remoteUser p = Some (uref u) ->
  Inv' (<[idx:=set_receivePcWrap u (Some (on_track w1 (pid p)))]> users) gone
    (<[j:=set_phase p AwaitTracks]> calls) m n.
Proof.
  intros [] Hu Hw Ed Em El Hpc Hp Hph Hcap.
  set (u' := set_receivePcWrap u (Some (on_track w1 (pid p)))).
  set (p' := set_phase p AwaitTracks).
  assert (u ∈ users) as Hin by (by eapply list_elem_of_lookup_2).
  assert (p ∈ calls) as Hpin by (by eapply list_elem_of_lookup_2).
  assert (NoDup (uref <$> users)) as Hnd.
  { rewrite fmap_app in inv_urefs0. by apply NoDup_app in inv_urefs0 as (? & _). }
  assert (uref <$> <[idx:=u']> users = uref <$> users) as Eref.
  { rewrite list_fmap_insert. apply list_insert_id. by rewrite list_lookup_fmap, Hu. }
  assert (pid <$> <[j:=p']> calls = pid <$> calls) as Epid.
  { rewrite list_fmap_insert. apply list_insert_id. by rewrite list_lookup_fmap, Hp. }
  assert (forall v, v ∈ <[idx:=u']> users ->
            v = u' \/ (v ∈ users /\ uref v <> uref u)) as Hfrom.
  { intros v Hv. apply elem_of_insert_elsewhere in Hv as [->|(k & Hne & Hk)]; [by left|].
    right. split; [by eapply list_elem_of_lookup_2|]. by eapply uref_elsewhere. }
  assert (forall q, q ∈ <[j:=p']> calls ->
            q = p' \/ (q ∈ calls /\ pid q <> pid p)) as Hqfrom.
  { intros q Hq. apply elem_of_insert_elsewhere in Hq as [->|(k & Hne & Hk)]; [by left|].
    right. split; [by eapply list_elem_of_lookup_2|]. intros E. apply Hne.
    eapply NoDup_lookup; [exact inv_pids0|..].
    - rewrite list_lookup_fmap, Hk. reflexivity.
    - rewrite list_lookup_fmap, Hp. simpl. by rewrite E. }
  assert (forall q, q ∈ calls -> phase q = AwaitTracks -> q ∈ <[j:=p']> calls) as Hkeep.
  { intros q Hq Hqp.
    destruct (elem_of_insert_other calls j p p' q Hp Hq) as [H| ->]; [done|congruence]. }
  forall_hyps.
  pose proof (inv_session0 u Hin) as Hok. unfold session_ok in Hok. rewrite Hw in Hok.
  destruct Hok as (Hd & Hpu & Hs & _ & Hdom & Hndl).
  assert (pid p ∉ trackListeners w) as Hnew.
  { intros Hi. destruct (inv_listeners0 u Hin w _ Hw Hi) as (q & Hq & Hqi & Hqp & _).
    assert (q = p) as -> by (by eapply pid_inj). congruence. }
  split; try done.
  - by rewrite fmap_app, Eref, <- fmap_app.
  - intros v Hv. apply elem_of_app in Hv as [Hv|Hv].
    + apply Hfrom in Hv as [->|[Hv _]]; [change (uref u < n)|];
        apply inv_uref_lt0, elem_of_app; by left.
    + apply inv_uref_lt0, elem_of_app. by right.
  - by rewrite Epid.
  - rewrite Forall_forall. intros q Hq. apply Hqfrom in Hq as [->|[Hq _]]; auto.
    apply (inv_calls_lt0 p Hpin).
  - rewrite Forall_forall. intros v Hv. apply Hfrom in Hv as [->|[Hv _]]; auto.
    unfold session_ok. cbn. rewrite Ed, Em, El.
    split; [done|]. split; [done|]. split; [done|]. split; [done|]. split; [done|].
    apply NoDup_app. split; [done|]. split; [|apply NoDup_singleton].
    intros i Hi Hi'. apply list_elem_of_singleton in Hi'. by subst i.
  - rewrite Forall_forall. intros v Hv. apply Hfrom in Hv as [->|[Hv _]]; auto.
    apply (inv_streams0 u Hin).
  - rewrite Forall_forall. intros q Hq v tr Hv Hqc Hqw Htr.
    apply Hqfrom in Hq as [->|[Hq _]].
    + cbn in Htr. destruct (inv_counting0 p Hpin) as (_ & _ & H3).
      rewrite H3 in Htr; [inversion Htr|by right].
    + apply Hfrom in Hv as [->|[Hv _]].
      * apply (inv_collected0 q Hq u tr Hin Hqc Hqw Htr).
      * by apply (inv_collected0 q Hq v tr).
  - rewrite Forall_forall. intros v Hv w' i Hw' Hi.
    apply Hfrom in Hv as [->|[Hv Hne]].
    + cbn in Hw'. inversion Hw'; subst w'. cbn in Hi. rewrite El in Hi.
      apply elem_of_app in Hi as [Hi|Hi].
      * destruct (inv_listeners0 u Hin w i Hw Hi) as (q & Hq & Hqi & Hqp & Hqc).
        exists q. split; [by apply Hkeep|done].
      * apply list_elem_of_singleton in Hi. subst i. exists p'.
        split; [apply list_elem_of_insert; by eapply lookup_lt_Some|done].
    + destruct (inv_listeners0 v Hv w' i Hw' Hi) as (q & Hq & Hqi & Hqp & Hqc).
      exists q. split; [by apply Hkeep|done].
  - rewrite Forall_forall. intros q Hq v Hv Hqc Hqp.
    apply Hqfrom in Hq as [->|[Hq Hqne]].
    + apply Hfrom in Hv as [->|[Hv Hne]].
      * eexists. split; [reflexivity|]. cbn. apply elem_of_app. right. left.
      * cbn in Hqc. rewrite Hcap in Hqc. inversion Hqc. congruence.
    + apply Hfrom in Hv as [->|[Hv Hne]].
      * destruct (inv_registered0 q Hq u Hin Hqc Hqp) as (w0 & Hw0 & Hi).
        eexists. split; [reflexivity|]. cbn. rewrite El. apply elem_of_app. left.
        congruence.
      * by apply (inv_registered0 q Hq v).
  - rewrite Forall_forall. intros q Hq Hqp.
    apply Hqfrom in Hq as [->|[Hq _]]; [done|].
    destruct (inv_ready0 q Hq Hqp) as (v & Hv & Hqc & Hvw).
    destruct (elem_of_insert_other users idx u u' v Hu Hv) as [Hv'| ->].
    + by exists v.
    + exists u'. split; [apply list_elem_of_insert; by eapply lookup_lt_Some|].
      split; [done|]. by eexists.
  - rewrite Forall_forall. intros q Hq. apply Hqfrom in Hq as [->|[Hq _]]; auto.
    destruct (inv_counting0 p Hpin) as (H1 & H2 & H3).
    split; [done|]. split.
    + intros _. cbn. rewrite H3 by (by right). cbn. destruct (specs p); [done|]. cbn. lia.
    + intros [H|H]; done.
Qed.

(** A call starts to await tracks on an object that is not in the array. *)
Lemma Inv'_await_orphan users gone calls m n j p :
  Inv' users gone calls m n ->
  calls !! j = Some p -> phase p = AwaitResponse ->
  (forall v, v ∈ users -> remoteUser p <> Some (uref v)) ->
  Inv' users gone (<[j:=set_phase p AwaitTracks]> calls) m n.
Proof.
  intros [] Hp Hph Ho.
  set (p' := set_phase p AwaitTracks).
  assert (p ∈ calls) as Hpin by (by eapply list_elem_of_lookup_2).
  assert (pid <$> <[j:=p']> calls = pid <$> calls) as Epid.
  { rewrite list_fmap_insert. apply list_insert_id. by rewrite list_lookup_fmap, Hp. }
  split; try done; forall_hyps.
  - by rewrite Epid.
  - apply Forall_insert; [by rewrite Forall_forall|]. apply (inv_calls_lt0 p Hpin).
  - apply Forall_insert; [by rewrite Forall_forall|].
    intros v tr Hv Hc. by destruct (Ho v Hv).
  - rewrite Forall_forall. intros v Hv w i Hw Hi.
    destruct (inv_listeners0 v Hv w i Hw Hi) as (q & Hq & Hqi & Hqp & Hqc).
    exists q. split; [|done].
    destruct (elem_of_insert_other calls j p p' q Hp Hq) as [H| ->]; [done|congruence].
  - apply Forall_insert; [by rewrite Forall_forall|].
    intros v Hv Hc. by destruct (Ho v Hv).
  - apply Forall_insert; [by rewrite Forall_forall|]. done.
  - apply Forall_insert; [by rewrite Forall_forall|].
    destruct (inv_counting0 p Hpin) as (H1 & H2 & H3).
    split; [done|]. split.
    + intros _. cbn. rewrite H3 by (by right). cbn. destruct (specs p); [done|]. cbn. lia.
    + intros [H|H]; done.
Qed.

Lemma lookup_user_cases st r u :
  lookup_user st r = Some u ->
  uref u = r /\
  ((exists idx, find_first (has_uref r) (remoteUsers st) = Some (idx, u) /\
                remoteUsers st !! idx = Some u) \/
   (find_first (has_uref r) (remoteUsers st) = None /\
    exists idx, find_first (has_uref r) (departed st) = Some (idx, u) /\
                departed st !! idx = Some u)).
Proof.
  intros H. split; [by apply lookup_user_Some in H as [? _]|].
  unfold lookup_user in H.
  destruct (find_first (has_uref r) (remoteUsers st)) as [[idx v]|] eqn:E.
  - inversion H; subst v. left. exists idx. split; [done|].
    by apply find_first_Some in E as (? & _).
  - right. split; [done|].
    destruct (find_first (has_uref r) (departed st)) as [[idx v]|] eqn:E'; [|done].
    cbn in H. inversion H; subst v. exists idx. split; [done|].
    by apply find_first_Some in E' as (? & _).
Qed.

Lemma pull_settled_Inv i response st : Inv st -> Inv (pull_settled i response st).
Proof.
  intros HI. unfold pull_settled.
  destruct (lookup_pull st i) as [p|] eqn:Hl; [|done].
  destruct (phase p) eqn:Hph; try done.
  assert (forall e, Inv (update_pull st i (fun p => set_phase p (Rejected e)))) as Hrej.
  { intros e.
    destruct (update_pull_lookup st i p (fun p => set_phase p (Rejected e)) Hl)
      as (idx & Hp & _ & ->).
    unfold Inv. cbn. eapply Inv'_phase; [exact HI|exact Hp|congruence| |].
    - by eapply not_waiting_Rejected.
    - intros [H|H]; done. }
  destruct response as [r|e]; [|apply Hrej].
  destruct (negb _); [apply Hrej|].
  destruct (remoteUser p) as [c|] eqn:Hc; cbn; [|apply Hrej].
  destruct (lookup_user st c) as [u|] eqn:Hlu; [|apply Hrej].
  destruct (receivePcWrap u) as [w|] eqn:Hw; [|apply Hrej].
  unfold setRemoteDescription. destruct (pc w) as [q|] eqn:Hq; [|apply Hrej].
  apply lookup_user_cases in Hlu as [Er [(idx & Hf & Hu)|(Hnone & idx & Hf & Hu)]].
  - unfold update_user. rewrite Er, Hf.
    destruct (update_pull_lookup
                (set_remoteUsers st
                   (<[idx:=set_receivePcWrap u
                             (Some (on_track (set_pc w (Some (mkPC (transceivers q)
                                (senders q) (Some (r_sdp r))))) i))]> (remoteUsers st)))
                i p (fun p => set_phase p AwaitTracks) Hl) as (j & Hp & Hi & ->).
    unfold Inv. cbn. subst i.
    eapply Inv'_listen; try done.
    + eexists. split; [reflexivity|]. cbn.
      destruct HI. rewrite Forall_forall in inv_session0.
      assert (session_ok u) as Hok
        by (apply inv_session0; by eapply list_elem_of_lookup_2).
      unfold session_ok in Hok. rewrite Hw in Hok.
      destruct Hok as (_ & _ & _ & (q' & Hq' & Ht) & _). congruence.
    + congruence.
  - unfold update_user. rewrite Er, Hnone, Hf.
    destruct (update_pull_lookup
                (set_departed st
                   (<[idx:=set_receivePcWrap u
                             (Some (on_track (set_pc w (Some (mkPC (transceivers q)
                                (senders q) (Some (r_sdp r))))) i))]> (departed st)))
                i p (fun p => set_phase p AwaitTracks) Hl) as (j & Hp & Hi & ->).
    unfold Inv. cbn.
    eapply Inv'_await_orphan; [|exact Hp|done|].
    + eapply Inv'_gone; [exact HI|exact Hu|done].
    + intros v Hv E. rewrite find_first_None in Hnone.
      specialize (Hnone v Hv). unfold has_uref in Hnone.
      apply bool_decide_eq_false in Hnone. congruence.
Qed.

(** *** Tracks *)

(** Track objects are added to the store under fresh references. *)
Lemma Inv'_store users gone calls m m' n n' :
  Inv' users gone calls m n -> n <= n' ->
  (forall tr x, m !! tr = Some x -> m' !! tr = Some x) ->
  (forall tr, is_Some (m' !! tr) -> tr < n') ->
  Inv' users gone calls m' n'.
Proof.
  intros HI Hle Hsub Hlt.
  assert (Inv' users gone calls m n') as [] by (by eapply Inv'_later).
  split; try done; forall_hyps.
  - rewrite Forall_forall. intros u Hu s tr Hs Htr.
    destruct (inv_streams0 u Hu s tr Hs Htr) as (x & Hx & ?). exists x. split; auto.
  - rewrite Forall_forall. intros p Hp u tr Hu Hc Hw Htr.
    destruct (inv_collected0 p Hp u tr Hu Hc Hw Htr) as (x & Hx & ?). exists x. split; auto.
Qed.

(** The listener of a call collects a track and keeps waiting. *)
Lemma Inv'_collect_more users gone calls m n u j p tr x :
  Inv' users gone calls m n ->
  u ∈ users -> calls !! j = Some p -> phase p = AwaitTracks ->
  remoteUser p = Some (uref u) ->
  m !! tr = Some x -> session x = Some (uref u) -> enabled x = true ->
  length (tracks_ p ++ [tr]) < length (specs p) ->
  Inv' users gone (<[j:=push_track p tr]> calls) m n.
Proof.
  intros [] Hu Hp Hph Hcap Hx Hsx Hen Hlen.
  set (p' := push_track p tr).
  assert (p ∈ calls) as Hpin by (by eapply list_elem_of_lookup_2).
  assert (pid <$> <[j:=p']> calls = pid <$> calls) as Epid.
  { rewrite list_fmap_insert. apply list_insert_id. by rewrite list_lookup_fmap, Hp. }
  assert (tr < n) as Hlt by (apply inv_store_lt0; by rewrite Hx).
  assert (NoDup (uref <$> users)) as Hnd.
  { rewrite fmap_app in inv_urefs0. by apply NoDup_app in inv_urefs0 as (? & _). }
  split; try done; forall_hyps.
  - by rewrite Epid.
  - apply Forall_insert; [by rewrite Forall_forall|].
    destruct (inv_calls_lt0 p Hpin) as (H1 & H2 & H3). split; [done|]. split; [done|].
    intros t Ht. cbn in Ht. apply elem_of_app in Ht as [Ht|Ht]; [auto|].
    apply list_elem_of_singleton in Ht. by subst.
  - apply Forall_insert; [by rewrite Forall_forall|].
    intros v t Hv Hc Hw Ht. cbn in Ht, Hc. apply elem_of_app in Ht as [Ht|Ht].
    + apply (inv_collected0 p Hpin v t Hv Hc); [by left|done].
    + apply list_elem_of_singleton in Ht. subst t.
      assert (v = u) as ->.
      { eapply uref_inj; [exact Hnd|done|done|]. congruence. }
      exists x. split; [done|]. split; [done|]. by left.
  - rewrite Forall_forall. intros v Hv w i Hw Hi.
    destruct (inv_listeners0 v Hv w i Hw Hi) as (q & Hq & Hqi & Hqp & Hqc).
    destruct (elem_of_insert_other calls j p p' q Hp Hq) as [H| ->].
    + by exists q.
    + exists p'. split; [apply list_elem_of_insert; by eapply lookup_lt_Some|done].
  - apply Forall_insert; [by rewrite Forall_forall|].
    intros v Hv Hc _. by apply (inv_registered0 p Hpin v Hv Hc).
  - apply Forall_insert; [by rewrite Forall_forall|]. intros H. cbn in H. congruence.
  - apply Forall_insert; [by rewrite Forall_forall|].
    destruct (inv_counting0 p Hpin) as (H1 & H2 & H3).
    split; [done|]. split; [done|]. intros [H|H]; cbn in H; congruence.
Qed.

(** The listener of a call collects its last track: it is removed and the
    continuation queued. *)
Lemma Inv'_collect_ready users gone calls m n idx u w j p tr x :
  Inv' users gone calls m n ->
  users !! idx = Some u -> receivePcWrap u = Some w ->
  calls !! j = Some p -> phase p = AwaitTracks ->
  remoteUser p = Some (uref u) ->
  m !! tr = Some x -> session x = Some (uref u) -> enabled x = true ->
  Inv' (<[idx:=set_receivePcWrap u (Some (unsubscribe w (pid p)))]> users) gone
    (<[j:=set_phase (push_track p tr) TracksReady]> calls) m n.
Proof.
  intros [] Hu Hw Hp Hph Hcap Hx Hsx Hen.
  set (u' := set_receivePcWrap u (Some (unsubscribe w (pid p)))).
  set (p' := set_phase (push_track p tr) TracksReady).
  assert (u ∈ users) as Hin by (by eapply list_elem_of_lookup_2).
  assert (p ∈ calls) as Hpin by (by eapply list_elem_of_lookup_2).
  assert (NoDup (uref <$> users)) as Hnd.
  { rewrite fmap_app in inv_urefs0. by apply NoDup_app in inv_urefs0 as (? & _). }
  assert (uref <$> <[idx:=u']> users = uref <$> users) as Eref.
  { rewrite list_fmap_insert. apply list_insert_id. by rewrite list_lookup_fmap, Hu. }
  assert (pid <$> <[j:=p']> calls = pid <$> calls) as Epid.
  { rewrite list_fmap_insert. apply list_insert_id. by rewrite list_lookup_fmap, Hp. }
  assert (tr < n) as Hlt by (apply inv_store_lt0; by rewrite Hx).
  assert (forall v, v ∈ <[idx:=u']> users ->
            v = u' \/ (v ∈ users /\ uref v <> uref u)) as Hfrom.
  { intros v Hv. apply elem_of_insert_elsewhere in Hv as [->|(k & Hne & Hk)]; [by left|].
    right. split; [by eapply list_elem_of_lookup_2|]. by eapply uref_elsewhere. }
  assert (forall q, q ∈ <[j:=p']> calls ->
            q = p' \/ (q ∈ calls /\ pid q <> pid p)) as Hqfrom.
  { intros q Hq. apply elem_of_insert_elsewhere in Hq as [->|(k & Hne & Hk)]; [by left|].
    right. split; [by eapply list_elem_of_lookup_2|]. intros E. apply Hne.
    eapply NoDup_lookup; [exact inv_pids0|..].
    - rewrite list_lookup_fmap, Hk. reflexivity.
    - rewrite list_lookup_fmap, Hp. simpl. by rewrite E. }
  assert (forall i, i ∈ trackListeners (unsubscribe w (pid p)) <->
                    i ∈ trackListeners w /\ i <> pid p) as Hun.
  { intros i. cbn. rewrite list_elem_of_filter. tauto. }
  forall_hyps.
  pose proof (inv_session0 u Hin) as Hok. unfold session_ok in Hok. rewrite Hw in Hok.
  destruct Hok as (Hd & Hpu & Hs & Hpc & Hdom & Hndl).
  split; try done.
  - by rewrite fmap_app, Eref, <- fmap_app.
  - intros v Hv. apply elem_of_app in Hv as [Hv|Hv].
    + apply Hfrom in Hv as [->|[Hv _]]; [change (uref u < n)|];
        apply inv_uref_lt0, elem_of_app; by left.
    + apply inv_uref_lt0, elem_of_app. by right.
  - by rewrite Epid.
  - rewrite Forall_forall. intros q Hq. apply Hqfrom in Hq as [->|[Hq _]]; auto.
    destruct (inv_calls_lt0 p Hpin) as (H1 & H2 & H3). split; [done|]. split; [done|].
    intros t Ht. cbn in Ht. apply elem_of_app in Ht as [Ht|Ht]; [auto|].
    apply list_elem_of_singleton in Ht. by subst.
  - rewrite Forall_forall. intros v Hv. apply Hfrom in Hv as [->|[Hv _]]; auto.
    unfold session_ok. cbn.
    split; [done|]. split; [done|]. split; [done|]. split; [done|]. split; [done|].
    by apply NoDup_filter.
  - rewrite Forall_forall. intros v Hv. apply Hfrom in Hv as [->|[Hv _]]; auto.
    apply (inv_streams0 u Hin).
  - rewrite Forall_forall. intros q Hq v t Hv Hqc Hqw Ht.
    assert (exists v0, v0 ∈ users /\ uref v0 = uref v /\ playStream v0 = playStream v)
      as (v0 & Hv0 & Erv & Esv).
    { apply Hfrom in Hv as [->|[Hv _]]; [by exists u|by exists v]. }
    rewrite <- Erv, <- Esv. rewrite <- Erv in Hqc.
    apply Hqfrom in Hq as [->|[Hq _]].
    + cbn in Ht, Hqc. apply elem_of_app in Ht as [Ht|Ht].
      * apply (inv_collected0 p Hpin v0 t Hv0 Hqc); [by left|done].
      * apply list_elem_of_singleton in Ht. subst t.
        assert (v0 = u) as ->.
        { eapply uref_inj; [exact Hnd|done|done|]. congruence. }
        exists x. split; [done|]. split; [done|]. by left.
    + by apply (inv_collected0 q Hq v0 t).
  - rewrite Forall_forall. intros v Hv w' i Hw' Hi.
    apply Hfrom in Hv as [->|[Hv Hne]].
    + cbn in Hw'. inversion Hw'; subst w'. apply Hun in Hi as [Hi Hip].
      destruct (inv_listeners0 u Hin w i Hw Hi) as (q & Hq & Hqi & Hqp & Hqc).
      exists q. split; [|done].
      destruct (elem_of_insert_other calls j p p' q Hp Hq) as [H| ->]; [done|congruence].
    + destruct (inv_listeners0 v Hv w' i Hw' Hi) as (q & Hq & Hqi & Hqp & Hqc).
      exists q. split; [|done].
      destruct (elem_of_insert_other calls j p p' q Hp Hq) as [H| ->]; [done|].
      congruence.
  - rewrite Forall_forall. intros q Hq v Hv Hqc Hqp.
    apply Hqfrom in Hq as [->|[Hq Hqne]]; [done|].
    apply Hfrom in Hv as [->|[Hv Hne]].
    + destruct (inv_registered0 q Hq u Hin Hqc Hqp) as (w0 & Hw0 & Hi).
      eexists. split; [reflexivity|]. apply Hun. split; [congruence|done].
    + by apply (inv_registered0 q Hq v).
  - rewrite Forall_forall. intros q Hq Hqp.
    assert (u' ∈ <[idx:=u']> users) as Hu'
      by (apply list_elem_of_insert; by eapply lookup_lt_Some).
    apply Hqfrom in Hq as [->|[Hq _]].
    + exists u'. split; [done|]. split; [done|]. by eexists.
    + destruct (inv_ready0 q Hq Hqp) as (v & Hv & Hqc & Hvw).
      destruct (elem_of_insert_other users idx u u' v Hu Hv) as [Hv'| ->].
      * by exists v.
      * exists u'. split; [done|]. split; [done|]. by eexists.
  - rewrite Forall_forall. intros q Hq. apply Hqfrom in Hq as [->|[Hq _]]; auto.
    destruct (inv_counting0 p Hpin) as (H1 & H2 & H3).
    split; [done|]. split; [done|]. intros [H|H]; cbn in H; congruence.
Qed.

(** The loop that disables the collected tracks of muted kinds. *)
Lemma fold_respect_mute u trs (m : TrackStore) tr :
  fold_left (respect_mute u) trs m !! tr =
  (fun x => if bool_decide (tr ∈ trs /\ mutedFlag u (kind x) = true)
            then mkTrack (kind x) false (session x) else x) <$> m !! tr.
Proof.
  revert m. induction trs as [|t trs IH]; intros m; cbn [fold_left].
  - destruct (m !! tr) as [x|]; cbn [fmap option_fmap option_map]; [|done].
    rewrite bool_decide_eq_false_2; [done|]. intros [H _]. inversion H.
  - rewrite IH. clear IH. unfold respect_mute.
    destruct (m !! t) as [y|] eqn:Ey.
    + destruct (mutedFlag u (kind y)) eqn:Hy.
      * unfold set_enabled. destruct (decide (t = tr)) as [->|Hne].
        -- rewrite lookup_alter_eq, Ey. cbn [fmap option_fmap option_map kind session].
           rewrite Hy. f_equal.
           rewrite (bool_decide_eq_true_2 (tr ∈ tr :: trs ∧ true = true));
             [|split; [left|done]].
           by destruct (bool_decide _).
        -- rewrite lookup_alter_ne by done.
           destruct (m !! tr) as [x|]; cbn [fmap option_fmap option_map]; [|done].
           f_equal. rewrite (bool_decide_ext (tr ∈ trs ∧ mutedFlag u (kind x) = true)
                               (tr ∈ t :: trs ∧ mutedFlag u (kind x) = true)); [done|].
           rewrite elem_of_cons. split; [intros [? ?]; split; [by right|done]|].
           intros [[->|?] ?]; done.
      * destruct (m !! tr) as [x|] eqn:E; cbn [fmap option_fmap option_map]; [|done].
        f_equal. rewrite (bool_decide_ext (tr ∈ trs ∧ mutedFlag u (kind x) = true)
                            (tr ∈ t :: trs ∧ mutedFlag u (kind x) = true)); [done|].
        rewrite elem_of_cons. split; [intros [? ?]; split; [by right|done]|].
        intros [[->|H] Hx]; [|done]. rewrite Ey in E. inversion E; subst. congruence.
    + destruct (m !! tr) as [x|] eqn:E; cbn [fmap option_fmap option_map]; [|done].
      f_equal. rewrite (bool_decide_ext (tr ∈ trs ∧ mutedFlag u (kind x) = true)
                          (tr ∈ t :: trs ∧ mutedFlag u (kind x) = true)); [done|].
      rewrite elem_of_cons. split; [intros [? ?]; split; [by right|done]|].
      intros [[->|H] Hx]; [|done]. congruence.
Qed.

(** The loop that adds the collected tracks to the buffer: the buffer keeps
    its reference and its tracks, in order, and gains the new ones. *)
Lemma fold_addTrack trs s :
  sid (fold_left addTrack trs s) = sid s /\
  (exists extra, tracks (fold_left addTrack trs s) = tracks s ++ extra) /\
  (forall t, t ∈ tracks (fold_left addTrack trs s) <-> t ∈ tracks s \/ t ∈ trs).
Proof.
  revert s. induction trs as [|a trs IH]; intros s; cbn [fold_left].
  - split; [done|]. split; [exists []; by rewrite app_nil_r|].
    intros t. split; [by left|]. intros [H|H]; [done|inversion H].
  - destruct (IH (addTrack s a)) as (H1 & (extra & H2) & H3).
    unfold addTrack in *. case_bool_decide as Ha.
    + split; [done|]. split; [by exists extra|].
      intros t. rewrite H3, elem_of_cons. split; [tauto|].
      intros [H|[->|H]]; auto.
    + cbn in *. split; [done|]. split.
      * exists ([a] ++ extra). by rewrite H2, <- app_assoc.
      * intros t. rewrite H3, elem_of_app, list_elem_of_singleton, elem_of_cons. tauto.
Qed.

(** The continuation of a call whose promise resolved: what it writes. *)
Lemma tracks_collected_shape st i p :
  Inv st -> lookup_pull st i = Some p -> phase p = TracksReady ->
  exists idx u s j,
    remoteUsers st !! idx = Some u /\ remoteUser p = Some (uref u) /\
    playStream u = Some s /\ pulls st !! j = Some p /\
    tracks_collected st i =
    set_pulls
      (set_remoteUsers
         (set_store st (fold_left (respect_mute u) (tracks_ p) (store st)))
         (<[idx:=set_videoRef
                   (set_playStream u (Some (fold_left addTrack (tracks_ p) s)))
                   (match videoRef u with
                    | Some el =>
                        Some (mkVideo (Some (sid (fold_left addTrack (tracks_ p) s)))
                                false (opacity el))
                    | None => None
                    end)]> (remoteUsers st)))
      (<[j:=set_phase p Fulfilled]> (pulls st)).
Proof.
  intros HI Hl Hph. unfold tracks_collected. rewrite Hl, Hph.
  destruct (lookup_pull_Some st i p Hl) as (j & _ & Hp & Hi).
  assert (p ∈ pulls st) as Hpin by (by eapply list_elem_of_lookup_2).
  pose proof HI as [].
  forall_hyps.
  destruct (inv_ready0 p Hpin Hph) as (u & Hu & Hcap & [w Hw]).
  assert (NoDup (uref <$> remoteUsers st)) as Hnd.
  { rewrite fmap_app in inv_urefs0. by apply NoDup_app in inv_urefs0 as (? & _). }
  destruct (find_uref_elem (remoteUsers st) u Hnd Hu) as (idx & Hf & Hidx).
  rewrite Hcap. cbn [mbind option_bind]. unfold lookup_user. rewrite Hf.
  pose proof (inv_session0 u Hu) as Hok. unfold session_ok in Hok. rewrite Hw in Hok.
  destruct Hok as (Hd & Hpu & [s Hs] & Hpc & Hdom & Hndl).
  rewrite Hs. exists idx, u, s.
  unfold update_user. cbn [remoteUsers set_store set_remoteUsers]. rewrite Hf.
  match goal with |- context [update_pull ?x i ?f] =>
    destruct (update_pull_lookup x i p f Hl) as (j' & Hp' & _ & ->) end.
  exists j'. done.
Qed.

Lemma tracks_collected_idle st i :
  (forall p, lookup_pull st i = Some p -> phase p <> TracksReady) ->
  tracks_collected st i = st.
Proof.
  intros H. unfold tracks_collected. destruct (lookup_pull st i) as [p|]; [|done].
  specialize (H p eq_refl). by destruct (phase p).
Qed.

Lemma tracks_collected_Inv st i : Inv st -> Inv (tracks_collected st i).
Proof.
  intros HI.
  destruct (lookup_pull st i) as [p|] eqn:Hl;
    [|rewrite tracks_collected_idle; [done|by rewrite Hl]].
  destruct (decide (phase p = TracksReady)) as [Hph|Hph];
    [|rewrite tracks_collected_idle; [done|rewrite Hl; by intros ? [= <-]]].
  destruct (tracks_collected_shape st i p HI Hl Hph)
    as (idx & u & s & j & Hidx & Hcap & Hs & Hp & ->).
  assert (p ∈ pulls st) as Hpin by (by eapply list_elem_of_lookup_2).
  assert (u ∈ remoteUsers st) as Hu by (by eapply list_elem_of_lookup_2).
  pose proof HI as [].
  forall_hyps.
  set (m' := fold_left (respect_mute u) (tracks_ p) (store st)).
  set (s' := fold_left addTrack (tracks_ p) s).
  set (v := match videoRef u with Some el => _ | None => None end).
  set (u' := set_videoRef (set_playStream u (Some s')) v).
  destruct (fold_addTrack (tracks_ p) s) as (Hsid & (extra & Hext) & Hmem).
  fold s' in Hsid, Hext, Hmem.
  pose proof (inv_session0 u Hu) as Hok. unfold session_ok in Hok.
  destruct (receivePcWrap u) as [w|] eqn:Hw; [|destruct Hok; congruence].
  destruct Hok as (Hd & Hpu & _ & Hpc & Hdom & Hndl).
  assert (Inv' (<[idx:=u']> (remoteUsers st)) (departed st) (pulls st) m' (nextRef st))
    as HI'.
  { eapply Inv'_update; [exact HI|exact Hidx|..].
    - split; [done|]. cbn. rewrite Hw. split; [|split].
      + intros w0 Hw0. by exists w0.
      + intros w0 Hw0. by exists w0.
      + intros s0 tr Hs0 Htr. rewrite Hs in Hs0. inversion Hs0; subst s0.
        exists s'. split; [done|]. apply Hmem. by left.
    - unfold session_ok. cbn. rewrite Hw.
      split; [done|]. split; [done|]. split; [by eexists|]. done.
    - intros tr. subst m'. rewrite fold_respect_mute.
      destruct (store st !! tr) as [x|] eqn:E; cbn; [|done].
      eexists. split; [done|]. case_bool_decide as Hc; cbn; [|done].
      split; [done|]. split; [done|]. intros Hne. exfalso. apply Hne.
      destruct Hc as [Hc _].
      destruct (inv_collected0 p Hpin u tr Hu Hcap (or_intror Hph) Hc) as (x0 & Hx0 & ? & _).
      congruence.
    - intros s0 tr Hs0 Htr. cbn in Hs0. inversion Hs0; subst s0.
      assert (forall k0, mutedFlag u' k0 = mutedFlag u k0) as Ef by done.
      subst m'. rewrite fold_respect_mute.
      apply Hmem in Htr.
      assert (exists x, store st !! tr = Some x /\ session x = Some (uref u) /\
                (enabled x = true \/ enabled x = negb (mutedFlag u (kind x))))
        as (x & Hx & Hsx & Hen).
      { destruct Htr as [Htr|Htr].
        - destruct (inv_streams0 u Hu s tr Hs Htr) as (x & ? & ? & ?). exists x. auto.
        - destruct (inv_collected0 p Hpin u tr Hu Hcap (or_intror Hph) Htr)
            as (x & Hx & Hsx & [Hen|(s0 & Hs0' & Hts0)]).
          + exists x. auto.
          + rewrite Hs in Hs0'. inversion Hs0'; subst s0.
            destruct (inv_streams0 u Hu s tr Hs Hts0) as (x' & ? & ? & ?).
            exists x'. auto. }
      rewrite Hx. cbn. eexists. split; [done|]. rewrite Ef.
      case_bool_decide as Hc; cbn.
      + destruct Hc as [_ ->]. done.
      + split; [done|]. destruct Hen as [Hen|Hen]; [|done].
        rewrite Hen. destruct (mutedFlag u (kind x)) eqn:Hm; [|done].
        exfalso. apply Hc. split; [|done]. destruct Htr as [Htr|Htr]; [|done].
        destruct (inv_streams0 u Hu s tr Hs Htr) as (x' & Hx' & _ & Hen').
        rewrite Hx in Hx'. inversion Hx'; subst x'. rewrite Hm in Hen'. cbn in Hen'.
        congruence.
    - intros tr x x' Hx Hx' Hsx Hen. subst m'. rewrite fold_respect_mute, Hx in Hx'.
      cbn in Hx'. inversion Hx' as [E]. clear Hx'. case_bool_decide as Hc; cbn.
      + right. exists s'. split; [done|]. apply Hmem. right. by destruct Hc.
      + by left. }
  unfold Inv. cbn. eapply Inv'_phase; [exact HI'|exact Hp|congruence| |].
  - by apply not_waiting_Fulfilled.
  - intros [H|H]; done.
Qed.

(** *** A delivered track *)

Lemma find_first_insert_false {A} (f : A -> bool) (l : list A) j x y :
  l !! j = Some x -> f x = false -> f y = false ->
  find_first f (<[j:=y]> l) = find_first f l.
Proof.
  revert j. induction l as [|a l IH]; intros j Hx Hfx Hfy; [done|].
  destruct j as [|j]; simpl in *.
  - inversion Hx; subst a. by rewrite Hfx, Hfy.
  - destruct (f a); [done|]. by rewrite (IH j Hx Hfx Hfy).
Qed.

Lemma lookup_pull_other st st' j p p' i :
  pulls st !! j = Some p -> pulls st' = <[j:=p']> (pulls st) ->
  pid p' = pid p -> i <> pid p ->
  lookup_pull st' i = lookup_pull st i.
Proof.
  intros Hp E Hpid Hne. unfold lookup_pull. rewrite E.
  rewrite (find_first_insert_false _ _ j p p' Hp); [done|..].
  - unfold has_pid. by apply bool_decide_eq_false.
  - unfold has_pid. apply bool_decide_eq_false. congruence.
Qed.

Lemma lookup_pull_index st i p :
  lookup_pull st i = Some p ->
  exists j, pulls st !! j = Some p /\ pid p = i /\
    forall st' f, pulls st' = pulls st ->
      update_pull st' i f = set_pulls st' (<[j:=f p]> (pulls st')).
Proof.
  intros H. destruct (lookup_pull_Some st i p H) as (j & Hf & Hp & Hi).
  exists j. split; [done|]. split; [done|]. intros st' f E.
  unfold update_pull. by rewrite E, Hf.
Qed.

Lemma lookup_pull_insert st st' j p p' :
  NoDup (pid <$> pulls st) ->
  pulls st !! j = Some p -> pulls st' = <[j:=p']> (pulls st) -> pid p' = pid p ->
  lookup_pull st' (pid p) = Some p'.
Proof.
  intros Hnd Hp E Hpid. rewrite <- Hpid. apply lookup_pull_elem.
  - rewrite E, list_fmap_insert, Hpid. rewrite list_insert_id; [done|].
    by rewrite list_lookup_fmap, Hp.
  - rewrite E. apply list_elem_of_insert. by eapply lookup_lt_Some.
Qed.

Lemma buffer_kept_refl u : buffer_kept u u.
Proof.
  split; [done|]. split; [done|]. intros s Hs. exists s. split; [done|]. split; [done|].
  exists []. by rewrite app_nil_r.
Qed.

Lemma buffer_kept_trans u v w : buffer_kept u v -> buffer_kept v w -> buffer_kept u w.
Proof.
  intros (E1 & U1 & H1) (E2 & U2 & H2). split; [congruence|]. split; [congruence|].
  intros s Hs.
  destruct (H1 s Hs) as (s1 & Hs1 & Hi1 & e1 & He1).
  destruct (H2 s1 Hs1) as (s2 & Hs2 & Hi2 & e2 & He2).
  exists s2. split; [done|]. split; [congruence|]. exists (e1 ++ e2).
  by rewrite He2, He1, <- app_assoc.
Qed.

Lemma Forall2_kept_refl l : Forall2 buffer_kept l l.
Proof.
  apply Forall2_same_length_lookup. split; [done|].
  intros i x y Hx Hy. rewrite Hx in Hy. inversion Hy. apply buffer_kept_refl.
Qed.

Lemma array_grows_refl n l : array_grows n l l.
Proof.
  exists l, []. split; [by rewrite app_nil_r|]. split; [apply Forall2_kept_refl|done].
Qed.

Lemma array_grows_trans n n' l l' l'' :
  n <= n' -> array_grows n l l' -> array_grows n' l' l'' -> array_grows n l l''.
Proof.
  intros Hn (l1 & l2 & -> & H1 & F1) (m1 & m2 & -> & H2 & F2).
  apply Forall2_app_inv_l in H2 as (a & b & Ha & Hb & ->).
  exists a, (b ++ m2). split; [by rewrite <- app_assoc|]. split.
  - apply Forall2_same_length_lookup in H1 as [L1 H1].
    apply Forall2_same_length_lookup in Ha as [La Ha].
    apply Forall2_same_length_lookup. split; [congruence|].
    intros i x z Hx Hz.
    destruct (lookup_lt_is_Some_2 l1 i) as [y Hy].
    { rewrite <- L1. by eapply lookup_lt_Some. }
    eapply buffer_kept_trans; [by eapply H1|by eapply Ha].
  - apply Forall_app. split.
    + apply Forall2_same_length_lookup in Hb as [Lb Hb].
      rewrite Forall_forall in F1. apply Forall_forall. intros z Hz.
      apply list_elem_of_lookup in Hz as [i Hi].
      destruct (lookup_lt_is_Some_2 l2 i) as [y Hy].
      { rewrite Lb. by eapply lookup_lt_Some. }
      destruct (Hb i y z Hy Hi) as [E _]. rewrite E. apply F1.
      by eapply list_elem_of_lookup_2.
    + eapply Forall_impl; [exact F2|]. intros z Hz. cbn in Hz. lia.
Qed.

Lemma array_grows_insert n l idx e e' :
  l !! idx = Some e -> buffer_kept e e' -> array_grows n l (<[idx:=e']> l).
Proof.
  intros He Hk. exists (<[idx:=e']> l), []. split; [by rewrite app_nil_r|].
  split; [|done].
  apply Forall2_same_length_lookup. split; [by rewrite length_insert|].
  intros i x y Hx Hy. destruct (decide (i = idx)) as [->|Hne].
  - rewrite list_lookup_insert_eq in Hy by (by eapply lookup_lt_Some).
    rewrite He in Hx. inversion Hx; inversion Hy; by subst.
  - rewrite list_lookup_insert_ne in Hy by done. rewrite Hx in Hy. inversion Hy.
    apply buffer_kept_refl.
Qed.

Lemma array_grows_push n l x : n <= uref x -> array_grows n l (l ++ [x]).
Proof.
  intros Hx. exists l, [x]. split; [done|]. split; [apply Forall2_kept_refl|].
  by apply Forall_singleton.
Qed.

(** What one listener writes. *)
Lemma track_listener_shape st idx tr i p :
  lookup_pull st i = Some p -> phase p = AwaitTracks ->
  exists j, pulls st !! j = Some p /\ pid p = i /\
    track_listener idx tr st i =
    (if bool_decide (phase (heard tr p) = TracksReady) then
       match remoteUsers st !! idx with
       | Some u =>
           set_remoteUsers (set_pulls st (<[j:=heard tr p]> (pulls st)))
             (<[idx:=set_receivePcWrap u
                       ((fun w => unsubscribe w i) <$> receivePcWrap u)]> (remoteUsers st))
       | None => set_pulls st (<[j:=heard tr p]> (pulls st))
       end
     else set_pulls st (<[j:=heard tr p]> (pulls st))) /\
    (phase (heard tr p) = TracksReady \/
     (phase (heard tr p) = AwaitTracks /\
      length (tracks_ p ++ [tr]) < length (specs p))).
Proof.
  intros Hl Hph. destruct (lookup_pull_index st i p Hl) as (j & Hp & Hi & Hup).
  exists j. split; [done|]. split; [done|].
  unfold track_listener, heard in *. rewrite Hl. cbn zeta.
  destruct (expectedTrackCount (push_track p tr) <=? length (tracks_ (push_track p tr)))%nat
    eqn:Hc.
  - cbn [phase set_phase]. rewrite bool_decide_eq_true_2 by done.
    split; [|by left]. rewrite (Hup st) by done. done.
  - split.
    + rewrite (Hup st) by done. cbn [phase push_track].
      rewrite bool_decide_eq_false_2; [done|congruence].
    + right. split; [done|]. apply Nat.leb_gt in Hc. done.
Qed.

Lemma heard_ready tr p :
  phase p = AwaitTracks -> phase (heard tr p) = TracksReady ->
  heard tr p = set_phase (push_track p tr) TracksReady.
Proof.
  unfold heard. cbn zeta. intros Hp H.
  destruct (_ <=? _)%nat; [done|]. cbn in H. congruence.
Qed.

Lemma heard_more tr p :
  phase p = AwaitTracks -> phase (heard tr p) <> TracksReady ->
  heard tr p = push_track p tr.
Proof.
  unfold heard. cbn zeta. intros Hp H.
  destruct (_ <=? _)%nat; [|done]. by destruct H.
Qed.

(** The listeners registered on a session run on a delivered track. *)
Lemma listeners_pass idx tr x r rest : forall st u,
  Inv st ->
  remoteUsers st !! idx = Some u -> uref u = r ->
  store st !! tr = Some x -> session x = Some r -> enabled x = true ->
  NoDup rest ->
  (forall i, i ∈ rest ->
     exists p, lookup_pull st i = Some p /\ phase p = AwaitTracks /\
               remoteUser p = Some r) ->
  Inv (fold_left (track_listener idx tr) rest st) /\
  store (fold_left (track_listener idx tr) rest st) = store st /\
  nextRef (fold_left (track_listener idx tr) rest st) = nextRef st /\
  departed (fold_left (track_listener idx tr) rest st) = departed st /\
  array_grows (nextRef st) (remoteUsers st)
    (remoteUsers (fold_left (track_listener idx tr) rest st)) /\
  (forall i, lookup_pull (fold_left (track_listener idx tr) rest st) i =
             if bool_decide (i ∈ rest) then heard tr <$> lookup_pull st i
             else lookup_pull st i).
Proof.
  induction rest as [|i rest IH]; intros st u HI Hu Hr Hx Hsx Hen Hnd Hall.
  - cbn. split; [done|]. split; [done|]. split; [done|]. split; [done|].
    split; [apply array_grows_refl|]. intros i. rewrite bool_decide_eq_false_2; [done|].
    intros H. inversion H.
  - cbn [fold_left]. apply NoDup_cons in Hnd as [Hni Hnd].
    destruct (Hall i) as (p & Hl & Hph & Hcap); [left|].
    destruct (track_listener_shape st idx tr i p Hl Hph) as (j & Hp & Hi & E & Hcase).
    rewrite Hu in E.
    assert (p ∈ pulls st) as Hpin by (by eapply list_elem_of_lookup_2).
    assert (u ∈ remoteUsers st) as Huin by (by eapply list_elem_of_lookup_2).
    assert (exists w, receivePcWrap u = Some w) as [w Hw].
    { destruct HI. rewrite Forall_forall in inv_registered0.
      destruct (inv_registered0 p Hpin u Huin) as (w & Hw & _); [congruence|done|].
      by exists w. }
    set (st' := track_listener idx tr st i) in *.
    assert (Inv st' /\ store st' = store st /\ nextRef st' = nextRef st /\
            departed st' = departed st /\
            (exists u', remoteUsers st' !! idx = Some u' /\ uref u' = r) /\
            array_grows (nextRef st) (remoteUsers st) (remoteUsers st') /\
            pulls st' = <[j:=heard tr p]> (pulls st)) as (HI' & Es & En & Ed & Hu' & Hg & Ep).
    { case_bool_decide as Hrd.
      - rewrite E. cbn. rewrite Hw. cbn. split; [|split; [done|split; [done|split; [done|]]]].
        + unfold Inv. cbn. rewrite (heard_ready tr p Hph Hrd). subst i.
          eapply Inv'_collect_ready; try done; congruence.
        + split; [|split; [|done]].
          * eexists. split; [apply list_lookup_insert_eq; by eapply lookup_lt_Some|done].
          * eapply array_grows_insert; [done|]. split; [done|]. split; [done|]. intros s Hs.
            exists s. split; [done|]. split; [done|]. exists []. by rewrite app_nil_r.
      - rewrite E. cbn. split; [|split; [done|split; [done|split; [done|]]]].
        + unfold Inv. cbn. rewrite (heard_more tr p Hph Hrd).
          destruct Hcase as [Hc|[_ Hc]]; [done|].
          eapply Inv'_collect_more; try done; congruence.
        + split; [by exists u|]. split; [apply array_grows_refl|done]. }
    destruct Hu' as (u' & Hu' & Hr').
    assert (pid (heard tr p) = pid p) as Hpid.
    { unfold heard. cbn zeta. by destruct (_ <=? _)%nat. }
    destruct (IH st' u' HI' Hu' Hr') as (H1 & H2 & H3 & H4 & H5 & H6); try done.
    { by rewrite Es. }
    { intros i' Hi'. destruct (Hall i') as (p' & Hl' & ?); [by right|].
      exists p'. split; [|done]. rewrite <- Hl'.
      eapply lookup_pull_other; [exact Hp|exact Ep|exact Hpid|]. rewrite Hi. by intros ->. }
    split; [done|]. split; [congruence|]. split; [congruence|]. split; [congruence|].
    split; [eapply array_grows_trans; [|done|done]; lia|].
    intros i0. rewrite H6.
    destruct (decide (i0 = i)) as [->|Hne].
    + rewrite (bool_decide_eq_false_2 (i ∈ rest)) by done.
      rewrite (bool_decide_eq_true_2 (i ∈ i :: rest)) by left.
      rewrite Hl. cbn. rewrite <- Hi.
      eapply lookup_pull_insert; [|exact Hp|exact Ep|exact Hpid].
      by destruct HI.
    + rewrite (lookup_pull_other st st' j p (heard tr p) i0 Hp Ep Hpid) by congruence.
      rewrite (bool_decide_ext (i0 ∈ rest) (i0 ∈ i :: rest)); [done|].
      rewrite elem_of_cons. split; [by right|]. by intros [?|?].
Qed.

Lemma continued_idem p : continued (continued p) = continued p.
Proof. unfold continued. by repeat (case_bool_decide; cbn in *; try done). Qed.

Lemma continued_phase p : phase (continued p) <> TracksReady.
Proof. unfold continued. by case_bool_decide. Qed.

(** The continuations of the calls resolved by a delivered track run. *)
Lemma continuations_pass rest : forall st,
  Inv st ->
  Inv (fold_left tracks_collected rest st) /\
  nextRef (fold_left tracks_collected rest st) = nextRef st /\
  departed (fold_left tracks_collected rest st) = departed st /\
  array_grows (nextRef st) (remoteUsers st)
    (remoteUsers (fold_left tracks_collected rest st)) /\
  (forall i, lookup_pull (fold_left tracks_collected rest st) i =
             if bool_decide (i ∈ rest) then continued <$> lookup_pull st i
             else lookup_pull st i).
Proof.
  induction rest as [|i rest IH]; intros st HI.
  - cbn. split; [done|]. split; [done|]. split; [done|].
    split; [apply array_grows_refl|]. intros i. rewrite bool_decide_eq_false_2; [done|].
    intros H. inversion H.
  - cbn [fold_left].
    assert (Inv (tracks_collected st i)) as HI' by (by apply tracks_collected_Inv).
    remember (tracks_collected st i) as st' eqn:Est.
    assert (nextRef st' = nextRef st /\ departed st' = departed st /\
            array_grows (nextRef st) (remoteUsers st) (remoteUsers st') /\
            (forall i0, lookup_pull st' i0 =
                        if bool_decide (i0 = i) then continued <$> lookup_pull st i0
                        else lookup_pull st i0)) as (En & Ed & Hg & Hlk).
    { destruct (lookup_pull st i) as [p|] eqn:Hl.
      - destruct (decide (phase p = TracksReady)) as [Hph|Hph].
        + destruct (tracks_collected_shape st i p HI Hl Hph)
            as (idx & u & s & j & Hidx & Hcap & Hs & Hp & E).
          rewrite E in Est.
          assert (pulls st' = <[j:=set_phase p Fulfilled]> (pulls st)) as Ep
            by (by subst st').
          split; [by subst st'|]. split; [by subst st'|]. split.
          * subst st'. cbn [remoteUsers set_pulls set_remoteUsers].
            eapply array_grows_insert; [done|]. split; [done|]. split; [done|].
            intros s0 Hs0.
            rewrite Hs in Hs0. inversion Hs0; subst s0.
            destruct (fold_addTrack (tracks_ p) s) as (Hsid & Hext & _).
            eexists. split; [reflexivity|]. done.
          * intros i0. destruct (lookup_pull_Some st i p Hl) as (_ & _ & _ & Hi).
            case_bool_decide as Hi0.
            -- subst i0. rewrite Hl. cbn [fmap option_fmap option_map]. unfold continued.
               rewrite bool_decide_eq_true_2 by done. rewrite <- Hi.
               eapply lookup_pull_insert; [by destruct HI|exact Hp|exact Ep|done].
            -- eapply lookup_pull_other; [exact Hp|exact Ep|done|congruence].
        + rewrite tracks_collected_idle in Est; [|rewrite Hl; by intros ? [= <-]].
          subst st'.
          split; [done|]. split; [done|]. split; [apply array_grows_refl|].
          intros i0. case_bool_decide as Hi0; [|done]. subst i0. rewrite Hl. cbn.
          unfold continued. by rewrite bool_decide_eq_false_2.
      - rewrite tracks_collected_idle in Est; [|by rewrite Hl]. subst st'.
        split; [done|]. split; [done|]. split; [apply array_grows_refl|].
        intros i0. case_bool_decide as Hi0; [|done]. subst i0. by rewrite Hl. }
    destruct (IH st' HI') as (H1 & H2 & H3 & H4 & H5).
    split; [done|]. split; [congruence|]. split; [congruence|].
    split; [eapply array_grows_trans; [|done|done]; lia|].
    intros i0. rewrite H5, Hlk.
    destruct (decide (i0 = i)) as [->|Hne].
    + rewrite (bool_decide_eq_true_2 (i = i)) by done.
      rewrite (bool_decide_eq_true_2 (i ∈ i :: rest)) by left.
      case_bool_decide; [|done].
      destruct (lookup_pull st i) as [p|]; cbn; [|done]. by rewrite continued_idem.
    + rewrite (bool_decide_eq_false_2 (i0 = i)) by done.
      rewrite (bool_decide_ext (i0 ∈ rest) (i0 ∈ i :: rest)); [done|].
      rewrite elem_of_cons. split; [by right|]. by intros [?|?].
Qed.

(** *** What events leave in place *)

Lemma frame_refl st : frame st st.
Proof. split; [done|]. split; [apply array_grows_refl|done]. Qed.

Lemma settled_later st users' p :
  Inv st -> p ∈ pulls st ->
  array_grows (nextRef st) (remoteUsers st) users' ->
  settled (remoteUsers st) p -> settled users' p.
Proof.
  intros HI Hp (l1 & l2 & -> & H1 & H2) [H|[H|[Hph Ho]]]; [by left|right; by left|].
  right. right. split; [done|]. intros u' Hu' E.
  destruct HI. rewrite Forall_forall in inv_calls_lt0.
  destruct (inv_calls_lt0 p Hp) as (_ & Hc & _). specialize (Hc _ E).
  apply elem_of_app in Hu' as [Hu'|Hu'].
  - apply list_elem_of_lookup in Hu' as [i Hi].
    apply Forall2_same_length_lookup in H1 as [L1 H1].
    destruct (lookup_lt_is_Some_2 (remoteUsers st) i) as [u Hu].
    { rewrite L1. by eapply lookup_lt_Some. }
    destruct (H1 i u u' Hu Hi) as [Er _].
    apply (Ho u); [by eapply list_elem_of_lookup_2|congruence].
  - rewrite Forall_forall in H2. specialize (H2 u' Hu'). cbn in H2. lia.
Qed.

Lemma frame_trans st st' st'' :
  Inv st -> frame st st' -> frame st' st'' -> frame st st''.
Proof.
  intros HI (N1 & G1 & C1) (N2 & G2 & C2). split; [lia|]. split.
  - by eapply array_grows_trans.
  - intros i p Hl Hs. apply C2; [by apply C1|].
    destruct (lookup_pull_Some st i p Hl) as (j & _ & Hp & _).
    assert (p ∈ pulls st) as Hpin by (by eapply list_elem_of_lookup_2).
    assert (settled (remoteUsers st') p) as Hs' by (by eapply settled_later).
    destruct Hs' as [H|[H|[Hph Ho]]]; [by left|right; by left|].
    right. right. done.
Qed.

Lemma good_step_trans st st' st'' :
  Inv st -> good_step st st' -> good_step st' st'' -> good_step st st''.
Proof.
  intros HI (I1 & Q1 & F1) (I2 & Q2 & F2). split; [done|]. split; [done|].
  by eapply frame_trans.
Qed.

Lemma kept_buffer_kept e u' : kept e u' -> buffer_kept e u'.
Proof.
  intros (Kr & Ku & _ & _ & _ & Ks & _). split; [done|]. split; [done|]. intros s Hs.
  exists s. split; [by apply Ks|]. split; [done|]. exists []. by rewrite app_nil_r.
Qed.

(** An event that writes one entry and leaves the calls alone. *)
Lemma frame_entry st st' idx e e' :
  remoteUsers st !! idx = Some e -> buffer_kept e e' ->
  remoteUsers st' = <[idx:=e']> (remoteUsers st) ->
  pulls st' = pulls st -> nextRef st <= nextRef st' ->
  frame st st'.
Proof.
  intros He Hk Eu Ep Hn. split; [done|]. split.
  - rewrite Eu. by eapply array_grows_insert.
  - intros i p Hl _. unfold lookup_pull in *. by rewrite Ep.
Qed.

Lemma quiet_same st st' : pulls st' = pulls st -> quiet st -> quiet st'.
Proof. intros E Hq p Hp. apply Hq. by rewrite <- E. Qed.

Lemma upsertRemoteUser_good user st :
  Inv st -> quiet st -> good_step st (upsertRemoteUser nfc user st).1.
Proof.
  intros HI Hq. split; [by apply upsertRemoteUser_Inv|].
  destruct (upsertRemoteUser_frame user st) as (Ep & _ & _ & _ & _ & _ & Hn).
  split; [by eapply quiet_same|].
  unfold upsertRemoteUser in *.
  destruct (find_first (same_id nfc user) (remoteUsers st)) as [[idx e]|] eqn:Hf.
  - apply find_first_Some in Hf as (He & _ & _).
    assert (session_ok e) as Hok.
    { destruct HI. rewrite Forall_forall in inv_session0. apply inv_session0.
      by eapply list_elem_of_lookup_2. }
    destruct (merge_user_ok (nextRef st) user e Hok) as [K _].
    destruct (merge_user (nextRef st) user e) as [u n]. cbn in *.
    eapply frame_entry; [exact He|by apply kept_buffer_kept|done..].
  - pose proof (createRemoteUser_fields (nextRef st) user) as (Hr & _).
    destruct (createRemoteUser nfc (nextRef st) user) as [u n]. cbn in *.
    split; [done|]. split.
    + cbn. apply array_grows_push. lia.
    + intros i p Hl _. done.
Qed.

Lemma find_first_app_l {A} (f : A -> bool) (l k : list A) r :
  find_first f l = Some r -> find_first f (l ++ k) = Some r.
Proof.
  revert r. induction l as [|a l IH]; intros r H; [done|]. simpl in *.
  destruct (f a); [done|].
  destruct (find_first f l) as [[i y]|]; [|done]. by rewrite (IH _ eq_refl).
Qed.

Lemma pullRemoteUser_good target sp st :
  Inv st -> quiet st -> sp <> [] -> good_step st (pullRemoteUser target sp st).
Proof.
  intros HI Hq Hsp. split; [by apply pullRemoteUser_Inv|].
  destruct (pullRemoteUser_spec target sp st HI Hsp)
    as (p & -> & Hpid & _ & Hs & Ht & Hr & Hph & _).
  split.
  - intros q Hq'. cbn in Hq'. apply elem_of_app in Hq' as [Hq'|Hq']; [by apply Hq|].
    apply list_elem_of_singleton in Hq'. subst q.
    destruct Hph as [E|[e E]]; congruence.
  - split; [cbn; lia|]. split; [apply array_grows_refl|].
    intros i q Hl _. unfold lookup_pull in *. cbn.
    destruct (find_first (has_pid i) (pulls st)) as [r|] eqn:E; [|done].
    by rewrite (find_first_app_l _ _ _ r E).
Qed.

Lemma pull_pushers_good u st : Inv st -> quiet st -> good_step st (pull_pushers u st).
Proof.
  intros HI Hq. unfold pull_pushers.
  destruct (pushers u) as [|p ps] eqn:E; cbn.
  - split; [done|]. split; [done|apply frame_refl].
  - by apply pullRemoteUser_good.
Qed.

Lemma upsert_and_pull_good st user :
  Inv st -> quiet st -> good_step st (upsert_and_pull nfc st user).
Proof.
  intros HI Hq. unfold upsert_and_pull.
  pose proof (upsertRemoteUser_good user st HI Hq) as H.
  destruct (upsertRemoteUser nfc user st) as [st1 u]. cbn in H.
  eapply good_step_trans; [done|exact H|].
  destruct H as (I1 & Q1 & _). by apply pull_pushers_good.
Qed.

Lemma fold_good {A} (f : State -> A -> State) (l : list A) :
  (forall st a, Inv st -> quiet st -> good_step st (f st a)) ->
  forall st, Inv st -> quiet st -> good_step st (fold_left f l st).
Proof.
  intros Hf. induction l as [|a l IH]; intros st HI Hq; cbn.
  - split; [done|]. split; [done|apply frame_refl].
  - pose proof (Hf st a HI Hq) as H. eapply good_step_trans; [done|exact H|].
    destruct H as (I1 & Q1 & _). by apply IH.
Qed.

Lemma mark_user_good id s st : Inv st -> quiet st -> good_step st (mark_user id s st).
Proof.
  intros HI Hq. split; [by apply mark_user_Inv|]. unfold mark_user.
  destruct (find_first (is_user id) (remoteUsers st)) as [[idx u]|] eqn:Hf;
    [|split; [done|apply frame_refl]].
  apply find_first_Some in Hf as (Hu & _ & _). split; [done|].
  eapply frame_entry; [exact Hu| |done..].
  apply kept_buffer_kept. by apply kept_same.
Qed.

Lemma video_mounted_good r st : Inv st -> quiet st -> good_step st (video_mounted r st).
Proof.
  intros HI Hq. split; [by apply video_mounted_Inv|]. unfold video_mounted.
  destruct (find_first (has_uref r) (remoteUsers st)) as [[idx u]|] eqn:Hf;
    [|split; [done|apply frame_refl]].
  apply find_first_Some in Hf as (Hu & _ & _). split; [done|].
  eapply frame_entry; [exact Hu| |done..].
  apply kept_buffer_kept. by apply kept_same.
Qed.

Lemma click_mute_audio_good r st :
  Inv st -> quiet st -> good_step st (click_mute toggleAudioMute r st).
Proof.
  intros HI Hq. split; [by apply click_mute_audio_Inv|]. unfold click_mute.
  destruct (find_first (has_uref r) (remoteUsers st)) as [[idx u]|] eqn:Hf;
    [|split; [done|apply frame_refl]].
  apply find_first_Some in Hf as (Hu & _ & _).
  destruct (toggleAudioMute (store st) u) as [m u'] eqn:E.
  assert (u' = (toggleAudioMute (store st) u).2) as -> by (by rewrite E).
  split; [done|]. eapply frame_entry; [exact Hu| |done..].
  split; [done|]. split; [done|]. intros s Hs. exists s. split; [done|]. split; [done|].
  exists []. by rewrite app_nil_r.
Qed.

Lemma click_mute_video_good r st :
  Inv st -> quiet st -> good_step st (click_mute toggleVideoMute r st).
Proof.
  intros HI Hq. split; [by apply click_mute_video_Inv|]. unfold click_mute.
  destruct (find_first (has_uref r) (remoteUsers st)) as [[idx u]|] eqn:Hf;
    [|split; [done|apply frame_refl]].
  apply find_first_Some in Hf as (Hu & _ & _).
  destruct (toggleVideoMute (store st) u) as [m u'] eqn:E.
  assert (u' = (toggleVideoMute (store st) u).2) as -> by (by rewrite E).
  split; [done|]. eapply frame_entry; [exact Hu| |done..].
  split; [done|]. split; [done|]. intros s Hs. exists s. split; [done|]. split; [done|].
  exists []. by rewrite app_nil_r.
Qed.

(** An event that moves one call that is not [settled]. *)
Lemma frame_call st st' j p p' :
  NoDup (pid <$> pulls st) ->
  pulls st !! j = Some p -> ~ settled (remoteUsers st) p ->
  pulls st' = <[j:=p']> (pulls st) -> pid p' = pid p ->
  nextRef st <= nextRef st' ->
  array_grows (nextRef st) (remoteUsers st) (remoteUsers st') ->
  frame st st'.
Proof.
  intros Hnd Hp Hns Ep Hpid Hn Hg. split; [done|]. split; [done|].
  intros i q Hl Hs. rewrite <- Hl.
  eapply lookup_pull_other; [exact Hp|exact Ep|exact Hpid|].
  intros ->. apply Hns.
  assert (lookup_pull st (pid p) = Some p) as Hlp.
  { apply lookup_pull_elem; [done|]. by eapply list_elem_of_lookup_2. }
  congruence.
Qed.

Lemma quiet_call st st' j p' :
  pulls st' = <[j:=p']> (pulls st) -> phase p' <> TracksReady -> quiet st -> quiet st'.
Proof.
  intros E Hp Hq q Hq'. rewrite E in Hq'.
  apply elem_of_insert_inv in Hq' as [->|Hq']; [done|by apply Hq].
Qed.

Lemma offer_settled_good i offer st :
  Inv st -> quiet st -> good_step st (offer_settled i offer st).
Proof.
  intros HI Hq. split; [by apply offer_settled_Inv|]. unfold offer_settled.
  destruct (lookup_pull st i) as [p|] eqn:Hl; [|split; [done|apply frame_refl]].
  destruct (phase p) eqn:Hph; try (split; [done|apply frame_refl]).
  destruct (lookup_pull_index st i p Hl) as (j & Hp & Hi & Hup).
  assert (~ settled (remoteUsers st) p) as Hns.
  { intros [H|[[e H]|[H _]]]; congruence. }
  destruct offer as [o|e].
  - rewrite (Hup st) by done. split.
    + eapply quiet_call; [reflexivity| |done]. done.
    + eapply frame_call; [by destruct HI|exact Hp|done|reflexivity|done|done|].
      apply array_grows_refl.
  - rewrite (Hup st) by done. split.
    + eapply quiet_call; [reflexivity| |done]. done.
    + eapply frame_call; [by destruct HI|exact Hp|done|reflexivity|done|done|].
      apply array_grows_refl.
Qed.

Lemma pull_settled_good i response st :
  Inv st -> quiet st -> good_step st (pull_settled i response st).
Proof.
  intros HI Hq. split; [by apply pull_settled_Inv|]. unfold pull_settled.
  destruct (lookup_pull st i) as [p|] eqn:Hl; [|split; [done|apply frame_refl]].
  destruct (phase p) eqn:Hph; try (split; [done|apply frame_refl]).
  destruct (lookup_pull_index st i p Hl) as (j & Hp & Hi & Hup).
  assert (~ settled (remoteUsers st) p) as Hns.
  { intros [H|[[e H]|[H _]]]; congruence. }
  assert (NoDup (pid <$> pulls st)) as Hnd by (by destruct HI).
  assert (forall e, quiet (update_pull st i (fun p => set_phase p (Rejected e))) /\
                    frame st (update_pull st i (fun p => set_phase p (Rejected e)))) as Hrej.
  { intros e. rewrite (Hup st) by done. split.
    - eapply quiet_call; [reflexivity| |done]. done.
    - eapply frame_call; [done|exact Hp|done|reflexivity|done|done|].
      apply array_grows_refl. }
  destruct response as [r|e]; [|apply Hrej].
  destruct (negb _); [apply Hrej|].
  destruct (remoteUser p) as [c|] eqn:Hc; cbn; [|apply Hrej].
  destruct (lookup_user st c) as [u|] eqn:Hlu; [|apply Hrej].
  destruct (receivePcWrap u) as [w|] eqn:Hw; [|apply Hrej].
  unfold setRemoteDescription. destruct (pc w) as [q|] eqn:Hq'; [|apply Hrej].
  apply lookup_user_cases in Hlu as [Er [(idx & Hf & Hu)|(Hnone & idx & Hf & Hu)]].
  - unfold update_user. rewrite Er, Hf. rewrite Hup by done. cbn. split.
    + eapply quiet_call; [reflexivity| |done]. done.
    + eapply frame_call; [done|exact Hp|done|reflexivity|done|done|].
      cbn. eapply array_grows_insert; [done|]. split; [done|]. split; [done|]. intros s Hs.
      exists s. split; [done|]. split; [done|]. exists []. by rewrite app_nil_r.
  - unfold update_user. rewrite Er, Hnone, Hf. rewrite Hup by done. cbn. split.
    + eapply quiet_call; [reflexivity| |done]. done.
    + eapply frame_call; [done|exact Hp|done|reflexivity|done|done|].
      apply array_grows_refl.
Qed.

(** A delivered track: the listeners registered on the session hear it, and
    the calls they resolve continue. *)
Lemma track_delivered_good r k st :
  Inv st -> quiet st ->
  good_step st (track_delivered r k st) /\
  (forall i,
     lookup_pull (track_delivered r k st) i =
     if bool_decide (i ∈ listeners_of st r)
     then (fun p => continued (heard (nextRef st) p)) <$> lookup_pull st i
     else lookup_pull st i).
Proof.
  intros HI Hq. unfold track_delivered, listeners_of.
  assert (forall i, lookup_pull st i =
            if bool_decide (i ∈ @nil nat)
            then (fun p => continued (heard (nextRef st) p)) <$> lookup_pull st i
            else lookup_pull st i) as Hnil.
  { intros i. rewrite bool_decide_eq_false_2; [done|]. intros H. inversion H. }
  destruct (find_first (has_uref r) (remoteUsers st)) as [[idx u]|] eqn:Hf;
    [|split; [split; [done|split; [done|apply frame_refl]]|done]].
  apply find_first_Some in Hf as (Hu & Hr & _).
  unfold has_uref in Hr. apply bool_decide_eq_true in Hr.
  assert (u ∈ remoteUsers st) as Huin by (by eapply list_elem_of_lookup_2).
  destruct (receivePcWrap u) as [w|] eqn:Hw;
    [|split; [split; [done|split; [done|apply frame_refl]]|done]].
  destruct (pc w) as [q|] eqn:Hpc;
    [|split; [split; [done|split; [done|apply frame_refl]]|done]].
  set (tr := nextRef st).
  set (st0 := set_nextRef (set_store st (<[tr:=mkTrack k true (Some r)]> (store st))) (S tr)).
  assert (store st !! tr = None) as Hfresh.
  { destruct (store st !! tr) eqn:E; [|done]. destruct HI.
    assert (tr < nextRef st) by (apply inv_store_lt0; by rewrite E). unfold tr in *. lia. }
  assert (Inv st0) as HI0.
  { unfold Inv, st0. cbn. eapply Inv'_store; [exact HI|unfold tr; lia|..].
    - intros t x Hx. rewrite lookup_insert_ne; [done|]. intros <-. congruence.
    - intros t Ht. destruct (decide (tr = t)) as [<-|Hne]; [lia|].
      rewrite lookup_insert_ne in Ht by done. destruct HI.
      specialize (inv_store_lt0 t Ht). unfold tr. lia. }
  assert (forall i, lookup_pull st0 i = lookup_pull st i) as Hl0 by done.
  assert (forall i, i ∈ trackListeners w ->
            exists p, lookup_pull st0 i = Some p /\ phase p = AwaitTracks /\
                      remoteUser p = Some r) as Hall.
  { intros i Hi. destruct HI. rewrite Forall_forall in inv_listeners0.
    destruct (inv_listeners0 u Huin w i Hw Hi) as (p & Hp & Hpi & Hph & Hc).
    exists p. rewrite Hl0. split; [|split; [done|congruence]].
    rewrite <- Hpi. by apply lookup_pull_elem. }
  assert (NoDup (trackListeners w)) as Hndl.
  { destruct HI. rewrite Forall_forall in inv_session0.
    pose proof (inv_session0 u Huin) as Hok. unfold session_ok in Hok.
    rewrite Hw in Hok. by destruct Hok as (_ & _ & _ & _ & _ & ?). }
  destruct (listeners_pass idx tr (mkTrack k true (Some r)) r (trackListeners w) st0 u)
    as (I1 & S1 & N1 & D1 & G1 & L1); try done.
  { unfold st0. cbn. apply lookup_insert_eq. }
  remember (fold_left (track_listener idx tr) (trackListeners w) st0) as st1 eqn:E1.
  destruct (continuations_pass (trackListeners w) st1 I1) as (I2 & N2 & D2 & G2 & L2).
  remember (fold_left tracks_collected (trackListeners w) st1) as st2 eqn:E2.
  assert (forall i, lookup_pull st2 i =
            if bool_decide (i ∈ trackListeners w)
            then (fun p => continued (heard tr p)) <$> lookup_pull st i
            else lookup_pull st i) as L.
  { intros i. rewrite L2, L1, Hl0. case_bool_decide; [|done].
    by destruct (lookup_pull st i). }
  split; [|done]. split; [done|]. split.
  - intros p Hp Hph.
    assert (lookup_pull st2 (pid p) = Some p) as Hlp
      by (apply lookup_pull_elem; [by destruct I2|done]).
    rewrite L in Hlp. case_bool_decide as Hin.
    + destruct (lookup_pull st (pid p)) as [p0|]; [|done]. cbn in Hlp.
      inversion Hlp as [E]. apply (continued_phase (heard tr p0)). by rewrite E.
    + destruct (lookup_pull_Some st _ p Hlp) as (j & _ & Hj & _).
      apply (Hq p); [by eapply list_elem_of_lookup_2|done].
  - split; [rewrite N2, N1; unfold st0; cbn; unfold tr; lia|]. split.
    + eapply (array_grows_trans _ (nextRef st1)); [| |exact G2].
      * rewrite N1. unfold st0. cbn. unfold tr. lia.
      * eapply (array_grows_trans _ (nextRef st0)); [|apply array_grows_refl|exact G1].
        unfold st0. cbn. unfold tr. lia.
    + intros i p Hl Hs. rewrite L. case_bool_decide as Hin; [|done]. exfalso.
      destruct HI. rewrite Forall_forall in inv_listeners0.
      destruct (inv_listeners0 u Huin w i Hw Hin) as (p0 & Hp0 & Hpi & Hph & Hc).
      assert (lookup_pull st i = Some p0) as Hl0'
        by (rewrite <- Hpi; by apply lookup_pull_elem).
      rewrite Hl in Hl0'. inversion Hl0'; subst p0.
      destruct Hs as [H|[[e H]|[_ Ho]]]; [congruence..|]. by apply (Ho u).
Qed.


(** *** Events that leave the array and the calls alone *)

Lemma good_same st st' :
  remoteUsers st' = remoteUsers st -> departed st' = departed st ->
  pulls st' = pulls st -> store st' = store st -> nextRef st' = nextRef st ->
  Inv st -> quiet st -> good_step st st'.
Proof.
  intros Eu Ed Ep Es En HI Hq. split; [|split].
  - unfold Inv. by rewrite Eu, Ed, Ep, Es, En.
  - by eapply quiet_same.
  - split; [lia|]. split; [rewrite Eu; apply array_grows_refl|].
    intros i p Hl _. unfold lookup_pull in *. by rewrite Ep.
Qed.

Lemma onJoin_good st : Inv st -> quiet st -> good_step st (onJoin st).
Proof. intros HI Hq. unfold onJoin. destruct (wsPeer st); by apply good_same. Qed.

Lemma socket_opened_good st : Inv st -> quiet st -> good_step st (socket_opened st).
Proof.
  intros HI Hq. unfold socket_opened. cbn. destruct (joinPhase st); by apply good_same.
Qed.

Lemma socket_failed_good st : Inv st -> quiet st -> good_step st (socket_failed st).
Proof.
  intros HI Hq. unfold socket_failed. destruct (joinPhase st); by apply good_same.
Qed.

Lemma join_settled_good response st :
  Inv st -> quiet st -> good_step st (join_settled nfc response st).
Proof.
  intros HI Hq. unfold join_settled.
  destruct (joinPhase st); try (by apply good_same).
  destruct response as [r|e]; [|by apply good_same].
  set (st1 := set_wsStatus st ws_joined).
  assert (good_step st st1) as G1 by (by apply good_same).
  set (st2 := match j_users r with
              | Some users =>
                  if Js.strict_eq (j_code r) (Js.Num 0)
                  then fold_left (fun s u => (upsertRemoteUser nfc u s).1) users st1
                  else st1
              | None => st1
              end).
  assert (good_step st st2) as G2.
  { unfold st2. destruct (j_users r) as [users|]; [|done].
    destruct (Js.strict_eq (j_code r) (Js.Num 0)); [|done].
    eapply good_step_trans; [done|exact G1|]. destruct G1 as (I1 & Q1 & _).
    apply (fold_good (fun s u => (upsertRemoteUser nfc u s).1)); [|done..].
    intros s a Hs Hqs. by apply upsertRemoteUser_good. }
  set (st3 := fold_left (fun s u => pull_pushers u s) (remoteUsers st2) st2).
  assert (good_step st st3) as G3.
  { eapply good_step_trans; [done|exact G2|]. destruct G2 as (I2 & Q2 & _).
    apply (fold_good (fun s u => pull_pushers u s)); [|done..].
    intros s a Hs Hqs. by apply pull_pushers_good. }
  eapply good_step_trans; [done|exact G3|]. destruct G3 as (I3 & Q3 & _).
  by apply good_same.
Qed.

(** *** Local capture *)

Lemma store_captured_spec kinds : forall ref m,
  (forall tr x, tr < ref -> m !! tr = Some x -> store_captured ref kinds m !! tr = Some x) /\
  (forall tr, is_Some (store_captured ref kinds m !! tr) ->
              is_Some (m !! tr) \/ tr < ref + length kinds).
Proof.
  induction kinds as [|k r IH]; intros ref m; cbn.
  - split; [done|]. intros tr H. by left.
  - destruct (IH (S ref) (<[ref:=mkTrack k true None]> m)) as [H1 H2]. split.
    + intros tr x Hlt Hx. apply H1; [lia|]. rewrite lookup_insert_ne; [done|lia].
    + intros tr H. destruct (H2 tr H) as [Hi|Hlt]; [|right; lia].
      destruct (decide (ref = tr)) as [<-|Hne]; [right; lia|].
      rewrite lookup_insert_ne in Hi by done. by left.
Qed.

Lemma onOpenDevices_users captured offer response st :
  let st' := onOpenDevices captured offer response st in
  remoteUsers st' = remoteUsers st /\ departed st' = departed st /\ pulls st' = pulls st.
Proof. cbn zeta. unfold onOpenDevices. by repeat case_match. Qed.

Lemma onOpenDevices_core captured offer response st :
  (forall tr, is_Some (store st !! tr) -> tr < nextRef st) ->
  let st' := onOpenDevices captured offer response st in
  remoteUsers st' = remoteUsers st /\ departed st' = departed st /\
  pulls st' = pulls st /\ nextRef st <= nextRef st' /\
  (forall tr x, store st !! tr = Some x -> store st' !! tr = Some x) /\
  (forall tr, is_Some (store st' !! tr) -> tr < nextRef st').
Proof.
  intros Hlt. cbn zeta. unfold onOpenDevices.
  assert (forall n kinds,
    nextRef st <= n ->
    (forall tr x, store st !! tr = Some x ->
                  store_captured (S n) kinds (store st) !! tr = Some x) /\
    (forall tr, is_Some (store_captured (S n) kinds (store st) !! tr) ->
                tr < S n + length kinds)) as Hcap.
  { intros n kinds Hn. destruct (store_captured_spec kinds (S n) (store st)) as [H1 H2].
    split.
    - intros tr x Hx. apply H1; [|done].
      assert (tr < nextRef st) by (apply Hlt; by rewrite Hx). lia.
    - intros tr H. destruct (H2 tr H) as [Hi|?]; [|done].
      specialize (Hlt tr Hi). lia. }
  repeat case_match; cbn; simplify_eq;
    repeat match goal with
    | |- _ /\ _ => split
    | |- _ = _ => reflexivity
    | |- _ <= _ => lia
    end;
    try done;
    try (intros tr H'; specialize (Hlt tr H'); lia);
    try (by (intros tr x Hx; eapply Hcap; [|exact Hx]; cbn; lia));
    try match goal with
        | |- forall tr, is_Some (store_captured (S ?n) ?k _ !! tr) -> _ =>
            intros tr H'; destruct (Hcap n k) as [_ Hc]; [cbn; lia|];
            specialize (Hc tr H'); cbn in *; lia
        end.
Qed.

Lemma onOpenDevices_good captured offer response st :
  Inv st -> quiet st -> good_step st (onOpenDevices captured offer response st).
Proof.
  intros HI Hq.
  destruct (onOpenDevices_core captured offer response st)
    as (Eu & Ed & Ep & Hn & Hs & Hlt).
  { intros tr Ht. destruct HI. by apply inv_store_lt0. }
  split; [|split].
  - unfold Inv. rewrite Eu, Ed, Ep. by eapply Inv'_store.
  - by eapply quiet_same.
  - split; [done|]. split; [rewrite Eu; apply array_grows_refl|].
    intros i p Hl _. unfold lookup_pull in *. by rewrite Ep.
Qed.

(** *** Every event *)

Lemma user_leave_quiet id st : quiet st -> quiet (user_leave id st).
Proof.
  intros Hq. eapply quiet_same; [|exact Hq]. unfold user_leave.
  by destruct (find_first (is_user id) (remoteUsers st)) as [[idx u]|].
Qed.

Lemma step_good st ev :
  Inv st -> quiet st -> leaves ev = false -> good_step st (step nfc st ev).
Proof.
  intros HI Hq Hl. destruct ev as [n| | | | |response|c o r|r|r|r|i o|i r|r k]; cbn.
  - destruct n as [users|id|id|user| |id|]; cbn; try done.
    + apply (fold_good (upsert_and_pull nfc)); [|done..].
      intros s a Hs Hqs. by apply upsert_and_pull_good.
    + by apply mark_user_good.
    + by apply mark_user_good.
    + by apply upsert_and_pull_good.
    + by apply good_same.
    + by apply good_same.
  - by apply onJoin_good.
  - by apply socket_opened_good.
  - by apply socket_failed_good.
  - by apply good_same.
  - by apply join_settled_good.
  - by apply onOpenDevices_good.
  - by apply click_mute_audio_good.
  - by apply click_mute_video_good.
  - by apply video_mounted_good.
  - by apply offer_settled_good.
  - by apply pull_settled_good.
  - by apply track_delivered_good.
Qed.

Lemma step_Inv st ev : Inv st -> quiet st -> Inv (step nfc st ev) /\ quiet (step nfc st ev).
Proof.
  intros HI Hq. destruct (leaves ev) eqn:Hl.
  - destruct ev as [n| | | | |response|c o r|r|r|r|i o|i r|r k]; try done.
    destruct n as [users|id|id|user| |id|]; try done. cbn.
    split; [by apply user_leave_Inv|by apply user_leave_quiet].
  - destruct (step_good st ev HI Hq Hl) as (? & ? & _). done.
Qed.

Lemma initial_Inv : Inv initial /\ quiet initial.
Proof.
  split.
  - unfold Inv. cbn. split; cbn; try done; try apply NoDup_nil_2; try apply Forall_nil_2.
    + intros u Hu. inversion Hu.
    + intros tr H. rewrite lookup_empty in H. by destruct H.
  - intros p Hp. inversion Hp.
Qed.

Lemma reachable_Inv st : reachable nfc st -> Inv st /\ quiet st.
Proof.
  induction 1 as [|st ev _ [HI Hq]]; [apply initial_Inv|by apply step_Inv].
Qed.

Lemma run_reachable evs : forall st, reachable nfc st -> reachable nfc (run nfc st evs).
Proof.
  induction evs as [|ev evs IH]; intros st H; [done|]. cbn. apply IH. by constructor.
Qed.

(** *** Where the entries of the array come from *)

Lemma user_leave_fields id st :
  pulls (user_leave id st) = pulls st /\ store (user_leave id st) = store st /\
  nextRef (user_leave id st) = nextRef st /\
  (forall u, u ∈ remoteUsers (user_leave id st) -> u ∈ remoteUsers st).
Proof.
  unfold user_leave.
  destruct (find_first (is_user id) (remoteUsers st)) as [[idx u]|]; [|done].
  cbn. split; [done|]. split; [done|]. split; [done|]. intros u'. apply elem_of_splice1.
Qed.

Lemma step_nextRef st ev : Inv st -> quiet st -> nextRef st <= nextRef (step nfc st ev).
Proof.
  intros HI Hq. destruct (leaves ev) eqn:Hl.
  - destruct ev as [n| | | | |response|c o r|r|r|r|i o|i r|r k]; try done.
    destruct n as [users|id|id|user| |id|]; try done. cbn.
    destruct (user_leave_fields id st) as (_ & _ & -> & _). done.
  - by destruct (step_good st ev HI Hq Hl) as (_ & _ & ? & _).
Qed.

Lemma array_grows_origin n l l' u' :
  array_grows n l l' -> u' ∈ l' ->
  (exists u, u ∈ l /\ buffer_kept u u') \/ n <= uref u'.
Proof.
  intros (l1 & l2 & -> & H1 & H2) Hu'. apply elem_of_app in Hu' as [Hu'|Hu'].
  - left. apply list_elem_of_lookup in Hu' as [i Hi].
    apply Forall2_same_length_lookup in H1 as [L1 H1].
    destruct (lookup_lt_is_Some_2 l i) as [u Hu].
    { rewrite L1. by eapply lookup_lt_Some. }
    exists u. split; [by eapply list_elem_of_lookup_2|by eapply H1].
  - right. rewrite Forall_forall in H2. by apply H2.
Qed.

Lemma step_origin st ev u' :
  Inv st -> quiet st -> u' ∈ remoteUsers (step nfc st ev) ->
  (exists u, u ∈ remoteUsers st /\ buffer_kept u u') \/ nextRef st <= uref u'.
Proof.
  intros HI Hq Hu'. destruct (leaves ev) eqn:Hl.
  - destruct ev as [n| | | | |response|c o r|r|r|r|i o|i r|r k]; try done.
    destruct n as [users|id|id|user| |id|]; try done. cbn in Hu'.
    destruct (user_leave_fields id st) as (_ & _ & _ & Hsub).
    left. exists u'. split; [by apply Hsub|apply buffer_kept_refl].
  - destruct (step_good st ev HI Hq Hl) as (_ & _ & _ & G & _).
    by eapply array_grows_origin.
Qed.

(** A call that is settled stays as it is. *)
Lemma step_settled st ev i p :
  Inv st -> quiet st -> lookup_pull st i = Some p -> settled (remoteUsers st) p ->
  lookup_pull (step nfc st ev) i = Some p /\ settled (remoteUsers (step nfc st ev)) p.
Proof.
  intros HI Hq Hl Hs.
  assert (p ∈ pulls st) as Hp.
  { destruct (lookup_pull_Some st i p Hl) as (j & _ & Hj & _).
    by eapply list_elem_of_lookup_2. }
  assert (forall r, remoteUser p = Some r -> r < nextRef st) as Hlt.
  { destruct HI. rewrite Forall_forall in inv_calls_lt0.
    by destruct (inv_calls_lt0 p Hp) as (_ & ? & _). }
  assert (settled (remoteUsers (step nfc st ev)) p) as Hs'.
  { destruct Hs as [H|[H|[Hph Ho]]]; [by left|right; by left|].
    right. right. split; [done|]. intros u' Hu' E.
    destruct (step_origin st ev u' HI Hq Hu') as [(u & Hu & Hk & _)|Hge].
    - apply (Ho u Hu). by rewrite <- Hk.
    - specialize (Hlt _ E). lia. }
  split; [|done]. destruct (leaves ev) eqn:Hlv.
  - destruct ev as [n| | | | |response|c o r|r|r|r|i' o|i' r|r k]; try done.
    destruct n as [users|id|id|user| |id|]; try done. cbn.
    destruct (user_leave_fields id st) as (Ep & _). unfold lookup_pull in *. by rewrite Ep.
  - destruct (step_good st ev HI Hq Hlv) as (_ & _ & _ & _ & Hc). by apply Hc.
Qed.

Lemma run_settled evs : forall st i p,
  Inv st -> quiet st -> lookup_pull st i = Some p -> settled (remoteUsers st) p ->
  lookup_pull (run nfc st evs) i = Some p.
Proof.
  induction evs as [|ev evs IH]; intros st i p HI Hq Hl Hs; [done|]. cbn.
  destruct (step_Inv st ev HI Hq) as [HI' Hq'].
  destruct (step_settled st ev i p HI Hq Hl Hs) as [Hl' Hs']. by apply IH.
Qed.

Lemma run_app st evs ev : run nfc st (evs ++ [ev]) = step nfc (run nfc st evs) ev.
Proof. unfold run. by rewrite fold_left_app. Qed.

Lemma run_nextRef evs : forall st,
  Inv st -> quiet st -> nextRef st <= nextRef (run nfc st evs).
Proof.
  induction evs as [|ev evs IH]; intros st HI Hq; [done|]. cbn.
  destruct (step_Inv st ev HI Hq) as [HI' Hq'].
  pose proof (step_nextRef st ev HI Hq). specialize (IH _ HI' Hq'). unfold run in IH. lia.
Qed.

Lemma run_Inv evs : forall st,
  Inv st -> quiet st -> Inv (run nfc st evs) /\ quiet (run nfc st evs).
Proof.
  induction evs as [|ev evs IH]; intros st HI Hq; [done|]. cbn.
  destruct (step_Inv st ev HI Hq) as [HI' Hq']. by apply IH.
Qed.

(** An entry of the array with a reference allocated earlier is the entry
    that had this reference, with its buffer kept. *)
Lemma run_origin evs : forall st u',
  Inv st -> quiet st -> u' ∈ remoteUsers (run nfc st evs) -> uref u' < nextRef st ->
  exists u, u ∈ remoteUsers st /\ buffer_kept u u'.
Proof.
  induction evs as [|ev evs IH] using rev_ind; intros st u' HI Hq Hu' Hlt.
  - exists u'. split; [done|apply buffer_kept_refl].
  - rewrite run_app in Hu'. destruct (run_Inv evs st HI Hq) as [HI' Hq'].
    pose proof (run_nextRef evs st HI Hq) as Hn.
    destruct (step_origin _ ev u' HI' Hq' Hu') as [(u1 & Hu1 & Hk)|Hge]; [|lia].
    destruct (IH st u1 HI Hq Hu1) as (u & Hu & Hk0).
    { destruct Hk as [<- _]. done. }
    exists u. split; [done|]. by eapply buffer_kept_trans.
Qed.

Lemma splice1_distinct {A B} (f : A -> B) (l : list A) idx x y :
  NoDup (f <$> l) -> l !! idx = Some x -> y ∈ splice1 idx l -> f y <> f x.
Proof.
  intros Hd Hx Hy. destruct (splice1_middle l idx x Hx) as [El Es].
  rewrite El, fmap_app, fmap_cons in Hd. apply NoDup_app in Hd as (_ & H2 & H3).
  apply NoDup_cons in H3 as [H3 _]. rewrite Es in Hy.
  apply elem_of_app in Hy as [Hy|Hy]; intros E.
  - apply (H2 (f y)); [apply list_elem_of_fmap; by exists y|]. rewrite E. left.
  - apply H3. rewrite <- E. apply list_elem_of_fmap. by exists y.
Qed.

(** *** The ids of the array *)

Lemma ids_insert (l : list RemoteUser) idx e e' :
  l !! idx = Some e -> userId e' = userId e -> userId <$> <[idx:=e']> l = userId <$> l.
Proof.
  intros He E. rewrite list_fmap_insert, E. apply list_insert_id.
  by rewrite list_lookup_fmap, He.
Qed.

Lemma update_user_ids st r f :
  (forall u, userId (f u) = userId u) -> ids (update_user st r f) = ids st.
Proof.
  intros Hf. unfold ids, update_user.
  destruct (find_first (has_uref r) (remoteUsers st)) as [[idx u]|] eqn:E.
  - apply find_first_Some in E as (Hu & _). cbn. by eapply ids_insert.
  - by destruct (find_first (has_uref r) (departed st)) as [[idx u]|].
Qed.

Lemma update_pull_ids st i f : ids (update_pull st i f) = ids st.
Proof.
  unfold ids, update_pull. by destruct (find_first (has_pid i) (pulls st)) as [[idx p]|].
Qed.

Lemma pullRemoteUser_ids target sp st : ids (pullRemoteUser target sp st) = ids st.
Proof.
  unfold ids, pullRemoteUser. cbn.
  destruct (find_first _ (remoteUsers st)) as [[idx u]|] eqn:E; [|done].
  apply find_first_Some in E as (Hu & _).
  destruct (receivePcWrap u) as [w|]; [|done].
  destruct (createOfferAndEmit_begin (store st) w) as [w' [[]|e]]; cbn;
    by eapply ids_insert.
Qed.

Lemma pull_pushers_ids u st : ids (pull_pushers u st) = ids st.
Proof.
  unfold pull_pushers. destruct (pushers u); [done|]. cbn. apply pullRemoteUser_ids.
Qed.

Lemma fold_ids {A} (f : State -> A -> State) (l : list A) :
  (forall st a, ids (f st a) = ids st) -> forall st, ids (fold_left f l st) = ids st.
Proof.
  intros Hf. induction l as [|a l IH]; intros st; cbn; [done|]. by rewrite IH, Hf.
Qed.

Lemma mark_user_ids id s st : ids (mark_user id s st) = ids st.
Proof.
  unfold ids, mark_user.
  destruct (find_first (is_user id) (remoteUsers st)) as [[idx u]|] eqn:E; [|done].
  apply find_first_Some in E as (Hu & _). cbn. by eapply ids_insert.
Qed.

Lemma video_mounted_ids r st : ids (video_mounted r st) = ids st.
Proof.
  unfold ids, video_mounted.
  destruct (find_first (has_uref r) (remoteUsers st)) as [[idx u]|] eqn:E; [|done].
  apply find_first_Some in E as (Hu & _). cbn. by eapply ids_insert.
Qed.

Lemma setTrackEnabledForUser_id m u k b :
  userId (setTrackEnabledForUser m u k b).2 = userId u.
Proof. unfold setTrackEnabledForUser. by repeat case_match. Qed.

Lemma click_mute_ids toggle r st :
  (forall m u, userId (toggle m u).2 = userId u) ->
  ids (click_mute toggle r st) = ids st.
Proof.
  intros Ht. unfold ids, click_mute.
  destruct (find_first (has_uref r) (remoteUsers st)) as [[idx u]|] eqn:E; [|done].
  apply find_first_Some in E as (Hu & _). specialize (Ht (store st) u).
  destruct (toggle (store st) u) as [m u']. cbn in *. by eapply ids_insert.
Qed.

Lemma offer_settled_ids i offer st : ids (offer_settled i offer st) = ids st.
Proof.
  unfold offer_settled. repeat case_match; try done.
  - unfold ids. cbn. apply update_pull_ids.
  - apply update_pull_ids.
Qed.

Lemma pull_settled_ids i response st : ids (pull_settled i response st) = ids st.
Proof.
  unfold pull_settled. repeat case_match; try done; rewrite ?update_pull_ids; try done.
  by apply update_user_ids.
Qed.

Lemma track_listener_ids idx tr st i : ids (track_listener idx tr st i) = ids st.
Proof.
  unfold track_listener. repeat case_match; try done; rewrite ?update_pull_ids; try done.
  unfold ids in *. cbn. erewrite ids_insert; [|done..]. apply update_pull_ids.
Qed.

Lemma tracks_collected_ids st i : ids (tracks_collected st i) = ids st.
Proof.
  unfold tracks_collected. repeat case_match; try done; rewrite ?update_pull_ids; try done.
  all: by rewrite update_user_ids.
Qed.

Lemma track_delivered_ids r k st : ids (track_delivered r k st) = ids st.
Proof.
  unfold track_delivered. repeat case_match; try done.
  rewrite (fold_ids tracks_collected) by apply tracks_collected_ids.
  rewrite (fold_ids (track_listener _ _)) by apply track_listener_ids. done.
Qed.

Lemma user_leave_ids id st :
  ids (user_leave id st) = ids st \/
  exists idx u, find_first (is_user id) (remoteUsers st) = Some (idx, u) /\
                ids (user_leave id st) = splice1 idx (ids st).
Proof.
  unfold user_leave.
  destruct (find_first (is_user id) (remoteUsers st)) as [[idx u]|] eqn:E; [|by left].
  right. exists idx, u. split; [done|]. unfold ids, splice1. cbn.
  by rewrite fmap_app, fmap_take, fmap_drop.
Qed.

(** *** Identity under normalised comparison *)

Section Identity.

(** [trim] then [normalize('NFC')] is idempotent: normalising leaves no
    white space at the ends of a trimmed string, and a normalised string is
    in normal form. *)
Hypothesis nfc_idem : forall s, nfc (Js.trim (nfc (Js.trim s))) = nfc (Js.trim s).

Lemma normalizeId_fixed id :
  normalizeId nfc (Js.Str (normalizeId nfc id)) = normalizeId nfc id.
Proof. unfold normalizeId. cbn. apply nfc_idem. Qed.

Lemma ids_unique_normal st : ids_normal nfc st -> NoDup (ids st) -> ids_unique nfc st.
Proof.
  unfold ids_normal, ids_unique, ids. intros Hn Hd.
  assert ((fun u => normalizeId nfc (Js.Str (userId u))) <$> remoteUsers st =
          userId <$> remoteUsers st) as ->; [|done].
  apply list_eq. intros i. rewrite !list_lookup_fmap.
  destruct (remoteUsers st !! i) as [u|] eqn:E; [|done]. cbn. f_equal.
  rewrite Forall_forall in Hn. apply Hn. apply list_elem_of_fmap. exists u.
  split; [done|]. by eapply list_elem_of_lookup_2.
Qed.

Lemma upsertRemoteUser_ids user st :
  ids_normal nfc st ->
  match find_first (same_id nfc user) (remoteUsers st) with
  | Some (idx, e) =>
      ids (upsertRemoteUser nfc user st).1 = ids st /\
      remoteUsers (upsertRemoteUser nfc user st).1 =
        <[idx := (upsertRemoteUser nfc user st).2]> (remoteUsers st) /\
      remoteUsers st !! idx = Some e /\
      normalizeId nfc (Js.Str (userId e)) = normalizeId nfc (p_userId user) /\
      uref (upsertRemoteUser nfc user st).2 = uref e /\
      userId (upsertRemoteUser nfc user st).2 = userId e
  | None =>
      ids (upsertRemoteUser nfc user st).1 = ids st ++ [normalizeId nfc (p_userId user)] /\
      normalizeId nfc (p_userId user) ∉ ids st
  end.
Proof.
  intros Hn. unfold upsertRemoteUser.
  destruct (find_first (same_id nfc user) (remoteUsers st)) as [[idx e]|] eqn:Hf.
  - apply find_first_Some in Hf as (He & Hs & _).
    unfold same_id in Hs. apply bool_decide_eq_true in Hs.
    destruct (merge_user_fields (nextRef st) user e) as (Hr & Hi & _).
    destruct (merge_user (nextRef st) user e) as [e' ref]. cbn in *.
    split; [by eapply ids_insert|done].
  - pose proof (proj1 (find_first_None _ _) Hf) as Hno.
    destruct (createRemoteUser_fields (nextRef st) user) as (_ & Hi & _).
    destruct (createRemoteUser nfc (nextRef st) user) as [c ref]. cbn in *.
    unfold ids. cbn. rewrite fmap_app. cbn. rewrite Hi. split; [done|].
    intros Hin. apply list_elem_of_fmap in Hin as (u & Hu & Hin).
    specialize (Hno u Hin). unfold same_id in Hno. apply bool_decide_eq_false in Hno.
    apply Hno. unfold ids_normal in Hn. rewrite Forall_forall in Hn. rewrite Hu.
    apply Hn. apply list_elem_of_fmap. by exists u.
Qed.

Lemma upsertRemoteUser_ids_inv user st :
  ids_normal nfc st /\ NoDup (ids st) ->
  ids_normal nfc (upsertRemoteUser nfc user st).1 /\ NoDup (ids (upsertRemoteUser nfc user st).1).
Proof.
  intros [Hn Hd]. pose proof (upsertRemoteUser_ids user st Hn) as H.
  destruct (find_first (same_id nfc user) (remoteUsers st)) as [[idx e]|].
  - destruct H as (E & _). unfold ids_normal. by rewrite E.
  - destruct H as (E & Hnew). unfold ids_normal. rewrite E. split.
    + apply Forall_app. split; [done|]. apply Forall_singleton, normalizeId_fixed.
    + apply NoDup_app. split; [done|]. split; [|apply NoDup_singleton].
      intros x Hx Hx'. apply list_elem_of_singleton in Hx'. by subst.
Qed.

Lemma same_ids st st' :
  ids st' = ids st -> ids_normal nfc st /\ NoDup (ids st) ->
  ids_normal nfc st' /\ NoDup (ids st').
Proof. intros E. unfold ids_normal. by rewrite E. Qed.

Lemma fold_ids_inv {A} (f : State -> A -> State) (l : list A) :
  (forall st a, ids_normal nfc st /\ NoDup (ids st) ->
                ids_normal nfc (f st a) /\ NoDup (ids (f st a))) ->
  forall st, ids_normal nfc st /\ NoDup (ids st) ->
             ids_normal nfc (fold_left f l st) /\ NoDup (ids (fold_left f l st)).
Proof.
  intros Hf. induction l as [|a l IH]; intros st H; cbn; [done|]. by apply IH, Hf.
Qed.

Lemma upsert_and_pull_ids_inv st user :
  ids_normal nfc st /\ NoDup (ids st) ->
  ids_normal nfc (upsert_and_pull nfc st user) /\ NoDup (ids (upsert_and_pull nfc st user)).
Proof.
  intros H. unfold upsert_and_pull.
  pose proof (upsertRemoteUser_ids_inv user st H) as H1.
  destruct (upsertRemoteUser nfc user st) as [st1 u]. cbn in H1.
  eapply same_ids; [apply pull_pushers_ids|done].
Qed.

Lemma sublist_ids (l : list string) idx :
  Forall (fun s => normalizeId nfc (Js.Str s) = s) l /\ NoDup l ->
  Forall (fun s => normalizeId nfc (Js.Str s) = s) (splice1 idx l) /\ NoDup (splice1 idx l).
Proof.
  intros [Hn Hd]. unfold splice1. rewrite <- delete_take_drop.
  pose proof (sublist_delete l idx) as Hsub. split.
  - rewrite Forall_forall in *. intros x Hx. apply Hn.
    eapply elem_of_submseteq; [exact Hx|by apply sublist_submseteq].
  - by eapply sublist_NoDup.
Qed.

Lemma step_ids st ev :
  ids_normal nfc st /\ NoDup (ids st) ->
  ids_normal nfc (step nfc st ev) /\ NoDup (ids (step nfc st ev)).
Proof.
  intros H. destruct ev as [n| | | | |response|c o r|r|r|r|i o|i r|r k]; cbn.
  - destruct n as [users|id|id|user| |id|]; cbn; try done.
    + by apply (fold_ids_inv (upsert_and_pull nfc)); [apply upsert_and_pull_ids_inv|].
    + eapply same_ids; [apply mark_user_ids|done].
    + eapply same_ids; [apply mark_user_ids|done].
    + by apply upsert_and_pull_ids_inv.
    + destruct (user_leave_ids id st) as [E|(idx & u & _ & E)].
      * by eapply same_ids.
      * unfold ids_normal. rewrite E. by apply sublist_ids.
  - eapply same_ids; [|done]. unfold onJoin. by destruct (wsPeer st).
  - eapply same_ids; [|done]. unfold socket_opened. cbn. by destruct (joinPhase st).
  - eapply same_ids; [|done]. unfold socket_failed. by destruct (joinPhase st).
  - done.
  - unfold join_settled. destruct (joinPhase st); try done.
    destruct response as [resp|e]; [|done].
    eapply same_ids; [unfold ids; cbn; apply (fold_ids (fun s u => pull_pushers u s))|].
    { intros s a. apply pull_pushers_ids. }
    destruct (j_users resp) as [users|]; [|done].
    destruct (Js.strict_eq (j_code resp) (Js.Num 0)); [|done].
    apply (fold_ids_inv (fun s u => (upsertRemoteUser nfc u s).1)); [|done].
    intros s a. apply upsertRemoteUser_ids_inv.
  - eapply same_ids; [|done]. unfold ids.
    by destruct (onOpenDevices_users c o r st) as (-> & _).
  - eapply same_ids; [|done]. apply click_mute_ids. intros m u.
    unfold toggleAudioMute, toggleVideoMute. by rewrite setTrackEnabledForUser_id.
  - eapply same_ids; [|done]. apply click_mute_ids. intros m u.
    unfold toggleAudioMute, toggleVideoMute. by rewrite setTrackEnabledForUser_id.
  - eapply same_ids; [apply video_mounted_ids|done].
  - eapply same_ids; [apply offer_settled_ids|done].
  - eapply same_ids; [apply pull_settled_ids|done].
  - eapply same_ids; [apply track_delivered_ids|done].
Qed.

Lemma reachable_ids st : reachable nfc st -> ids_normal nfc st /\ NoDup (ids st).
Proof.
  induction 1 as [|st ev _ IH]; [|by apply step_ids].
  split; [apply Forall_nil_2|apply NoDup_nil_2].
Qed.

(** C2: on every page the events can produce, no two entries of the array
    have ids that are equal under normalised comparison ([String], [trim],
    NFC), before and after an upsert; an upsert whose id normalises to the
    id of an entry writes that entry in place (same object, same stored id,
    same array length), whatever the representation of the payload id, and
    an upsert of an id that no entry has appends one entry. *)
Theorem upsert_keeps_identity_unique st user :
  reachable nfc st ->
  ids_unique nfc st /\
  ids_unique nfc (upsertRemoteUser nfc user st).1 /\
  (forall u, u ∈ remoteUsers st ->
     normalizeId nfc (Js.Str (userId u)) = normalizeId nfc (p_userId user) ->
     exists idx,
       remoteUsers st !! idx = Some u /\
       remoteUsers (upsertRemoteUser nfc user st).1 =
         <[idx := (upsertRemoteUser nfc user st).2]> (remoteUsers st) /\
       uref (upsertRemoteUser nfc user st).2 = uref u /\
       userId (upsertRemoteUser nfc user st).2 = userId u /\
       length (remoteUsers (upsertRemoteUser nfc user st).1) = length (remoteUsers st)) /\
  ((forall u, u ∈ remoteUsers st ->
      normalizeId nfc (Js.Str (userId u)) <> normalizeId nfc (p_userId user)) ->
   ids (upsertRemoteUser nfc user st).1 = ids st ++ [normalizeId nfc (p_userId user)]).
Proof.
  intros Hr. pose proof (reachable_ids st Hr) as [Hn Hd].
  destruct (upsertRemoteUser_ids_inv user st (conj Hn Hd)) as [Hn' Hd'].
  split; [by apply ids_unique_normal|]. split; [by apply ids_unique_normal|].
  pose proof (upsertRemoteUser_ids user st Hn) as H.
  destruct (find_first (same_id nfc user) (remoteUsers st)) as [[idx e]|] eqn:Hf.
  - destruct H as (Ei & Eu & He & Hs & Hre & Hid). split.
    + intros u Hu Hsame. apply list_elem_of_lookup in Hu as [j Hj].
      assert (forall v, v ∈ remoteUsers st -> normalizeId nfc (Js.Str (userId v)) = userId v)
        as Hfix.
      { intros v Hv. unfold ids_normal in Hn. rewrite Forall_forall in Hn. apply Hn.
        apply list_elem_of_fmap. by exists v. }
      assert (userId u = userId e) as Hue.
      { rewrite <- (Hfix u), <- (Hfix e); [congruence|..]; by eapply list_elem_of_lookup_2. }
      assert (j = idx) as ->.
      { eapply (NoDup_lookup (ids st)); [done|..]; unfold ids; rewrite list_lookup_fmap.
        - by rewrite Hj.
        - rewrite He. cbn. by rewrite Hue. }
      assert (u = e) as -> by congruence.
      exists idx. split; [done|]. split; [done|]. split; [done|]. split; [done|].
      by rewrite Eu, length_insert.
    + intros Hno. exfalso. apply (Hno e); [by eapply list_elem_of_lookup_2|done].
  - destruct H as (Ei & Hnew). split; [|done].
    intros u Hu Hsame. exfalso.
    pose proof (proj1 (find_first_None _ _) Hf u Hu) as Hfalse.
    unfold same_id in Hfalse. by apply bool_decide_eq_false in Hfalse.
Qed.

(** C1: a [userLeave] notification whose id is strictly equal to a stored
    id takes that entry out of the array: afterwards no entry has that id,
    and the object is not an entry.  A subscribe call that awaits its
    tracks on that entry is not rejected and does not resolve: whatever
    events follow, the call stays exactly as it was, awaiting its tracks. *)
Theorem leave_removes_entry_and_wait_stays_pending st id idx u :
  reachable nfc st ->
  find_first (is_user id) (remoteUsers st) = Some (idx, u) ->
  (forall u', u' ∈ remoteUsers (step nfc st (Notified (userLeave id))) ->
     Js.Str (userId u') <> id /\ uref u' <> uref u) /\
  (forall i p, lookup_pull st i = Some p -> remoteUser p = Some (uref u) ->
     phase p = AwaitTracks ->
     forall evs,
       lookup_pull (run nfc (step nfc st (Notified (userLeave id))) evs) i = Some p).
Proof.
  intros Hr Hf. destruct (reachable_Inv st Hr) as [HI Hq].
  destruct (reachable_ids st Hr) as [_ Hd].
  pose proof (find_first_Some _ _ _ _ Hf) as (Hu & Hid & _).
  unfold is_user, Js.strict_eq in Hid. apply bool_decide_eq_true in Hid.
  assert (remoteUsers (step nfc st (Notified (userLeave id))) = splice1 idx (remoteUsers st))
    as Eu by (cbn; unfold user_leave; by rewrite Hf).
  assert (forall u', u' ∈ splice1 idx (remoteUsers st) ->
            userId u' <> userId u /\ uref u' <> uref u) as Hne.
  { intros u' Hu'. split.
    - by eapply (splice1_distinct userId).
    - eapply (splice1_distinct uref); [|done..]. destruct HI.
      rewrite fmap_app in inv_urefs0. by apply NoDup_app in inv_urefs0 as (? & _). }
  split.
  - intros u' Hu'. rewrite Eu in Hu'. destruct (Hne u' Hu') as [H1 H2].
    split; [|done]. rewrite <- Hid. congruence.
  - intros i p Hl Hp Hph evs.
    destruct (step_Inv st (Notified (userLeave id)) HI Hq) as [HI' Hq'].
    apply run_settled; [done..| |].
    + cbn. destruct (user_leave_fields id st) as (Ep & _).
      unfold lookup_pull in *. by rewrite Ep.
    + right. right. split; [done|]. intros u' Hu' E. rewrite Eu in Hu'.
      destruct (Hne u' Hu') as [_ H2]. congruence.
Qed.

End Identity.

(** *** The buffer, the mute flags and the reserved slots *)

(** C9: an entry has a buffer exactly when it has a publication; from then
    on, as long as the entry is in the array, whatever events happen, its
    buffer is the same object, and the tracks it held are still there, in
    place, with the later tracks after them. *)
Theorem play_stream_created_once_then_appended st evs u u' :
  reachable nfc st ->
  u ∈ remoteUsers st -> u' ∈ remoteUsers (run nfc st evs) -> uref u' = uref u ->
  (playStream u = None <-> pushers u = []) /\
  (forall s, playStream u = Some s ->
     exists s' extra, playStream u' = Some s' /\ sid s' = sid s /\
                      tracks s' = tracks s ++ extra).
Proof.
  intros Hr Hu Hu' E. destruct (reachable_Inv st Hr) as [HI Hq]. split.
  - destruct HI. rewrite Forall_forall in inv_session0.
    pose proof (inv_session0 u Hu) as Hs. unfold session_ok in Hs.
    destruct (receivePcWrap u) as [w|].
    + destruct Hs as (_ & Hp & [s Hs] & _). rewrite Hs. split; intros; done.
    + by destruct Hs as [-> ->].
  - intros s Hs.
    destruct (run_origin evs st u' HI Hq Hu') as (u0 & Hu0 & Hk).
    { rewrite E. destruct HI. apply inv_uref_lt0. apply elem_of_app. by left. }
    assert (u0 = u) as ->.
    { destruct HI. rewrite fmap_app in inv_urefs0.
      apply NoDup_app in inv_urefs0 as (Hd & _).
      eapply uref_inj; [done..|]. destruct Hk as [<- _]. done. }
    destruct Hk as (_ & _ & Hk). destruct (Hk s Hs) as (s' & Hs' & Hi & extra & He).
    by exists s', extra.
Qed.

(** C4: on every page the events can produce, every track of the buffer of
    an entry is enabled exactly when the entry's mute flag for the track's
    kind, as it is on that page, is off; so a track is appended in the
    state the flags ask for at that moment, whatever the flags were when
    the subscribe call was made. *)
Theorem appended_track_follows_current_mute_flag st u s tr :
  reachable nfc st ->
  u ∈ remoteUsers st -> playStream u = Some s -> tr ∈ tracks s ->
  exists x, store st !! tr = Some x /\ enabled x = negb (mutedFlag u (kind x)).
Proof.
  intros Hr Hu Hs Ht. destruct (reachable_Inv st Hr) as [HI _]. destruct HI.
  rewrite Forall_forall in inv_streams0.
  destruct (inv_streams0 u Hu s tr Hs Ht) as (x & Hx & _ & He). by exists x.
Qed.

(** C7: on every page the events can produce, the receive session of an
    entry is recvonly and has reserved slots, so that the offer creation
    that a subscribe call starts with goes ahead; offer creation on a
    recvonly session without a transceiver raises an error. *)
Theorem offer_creation_follows_reservation st u w :
  reachable nfc st ->
  u ∈ remoteUsers st -> receivePcWrap u = Some w ->
  (direction w = recvonly /\
   (exists p, pc w = Some p /\ transceivers p <> []) /\
   createOfferAndEmit_begin (store st) w = (w, Ok ())) /\
  (forall m w0, direction w0 = recvonly ->
     (forall p, pc w0 = Some p -> transceivers p = []) ->
     exists e, (createOfferAndEmit_begin m w0).2 = Err e).
Proof.
  intros Hr Hu Hw. destruct (reachable_Inv st Hr) as [HI _]. destruct HI.
  rewrite Forall_forall in inv_session0.
  pose proof (inv_session0 u Hu) as Hs. unfold session_ok in Hs. rewrite Hw in Hs.
  destruct Hs as (Hd & _ & _ & (p & Hp & Ht) & _). split.
  - split; [done|]. split; [by exists p|]. by eapply createOfferAndEmit_begin_ready.
  - intros m w0. apply createOfferAndEmit_begin_empty.
Qed.

(** *** The track wait of a subscribe call *)

Lemma continued_heard tr p :
  phase p = AwaitTracks -> length (tracks_ p) < length (specs p) ->
  continued (heard tr p) =
  mkPull (pid p) (targetUserId p) (specs p) (remoteUser p) (tracks_ p ++ [tr])
    (if bool_decide (S (length (tracks_ p)) = length (specs p))
     then Fulfilled else AwaitTracks).
Proof.
  intros Hp Hlt. unfold heard, continued, expectedTrackCount, push_track, set_phase. cbn.
  rewrite length_app. cbn.
  destruct (length (specs p) <=? length (tracks_ p) + 1)%nat eqn:E; cbn.
  - apply Nat.leb_le in E. rewrite bool_decide_eq_true_2 by done. cbn.
    rewrite bool_decide_eq_true_2 by lia. done.
  - apply Nat.leb_gt in E. rewrite Hp. rewrite bool_decide_eq_false_2 by done.
    rewrite bool_decide_eq_false_2 by lia. done.
Qed.

Lemma listeners_of_elem st r i :
  i ∈ listeners_of st r ->
  exists idx u w, remoteUsers st !! idx = Some u /\ uref u = r /\
                  receivePcWrap u = Some w /\ is_Some (pc w) /\ i ∈ trackListeners w.
Proof.
  unfold listeners_of. intros H.
  destruct (find_first (has_uref r) (remoteUsers st)) as [[idx u]|] eqn:Hf;
    [|by inversion H].
  apply find_first_Some in Hf as (Hu & Hr & _).
  unfold has_uref in Hr. apply bool_decide_eq_true in Hr.
  destruct (receivePcWrap u) as [w|] eqn:Hw; [|by inversion H].
  destruct (pc w) as [q|] eqn:Hq; [|by inversion H].
  exists idx, u, w. rewrite Hq. done.
Qed.

Lemma listeners_of_intro st u w i :
  Inv st -> u ∈ remoteUsers st -> receivePcWrap u = Some w -> i ∈ trackListeners w ->
  i ∈ listeners_of st (uref u).
Proof.
  intros HI Hu Hw Hi. unfold listeners_of. destruct HI.
  rewrite fmap_app in inv_urefs0. apply NoDup_app in inv_urefs0 as (Hd & _).
  destruct (find_uref_elem _ u Hd Hu) as (idx & -> & _). rewrite Hw.
  rewrite Forall_forall in inv_session0. pose proof (inv_session0 u Hu) as Hs.
  unfold session_ok in Hs. rewrite Hw in Hs.
  destruct Hs as (_ & _ & _ & (q & -> & _) & _). done.
Qed.

(** C3: what a delivered track does to a subscribe call.  A call has at
    least one spec and, while it awaits its tracks, fewer tracks than
    specs and its listener on the session of its entry.  A track that the
    session delivers, of either kind, is collected by every call with a
    listener there; the call is fulfilled, and its listener removed, when
    this track makes as many tracks as it has specs, and goes on waiting
    with its listener otherwise.  A call without a listener there - one
    that does not await tracks has none - is left as it is. *)
Theorem track_wait_counts_delivered_tracks st r k i p :
  reachable nfc st -> lookup_pull st i = Some p ->
  specs p <> [] /\
  (phase p = AwaitTracks -> length (tracks_ p) < length (specs p)) /\
  (phase p = AwaitTracks -> forall u, u ∈ remoteUsers st -> remoteUser p = Some (uref u) ->
     i ∈ listeners_of st (uref u)) /\
  (phase p <> AwaitTracks -> i ∉ listeners_of st r) /\
  (i ∉ listeners_of st r -> lookup_pull (step nfc st (TrackDelivered r k)) i = Some p) /\
  (i ∈ listeners_of st r ->
     lookup_pull (step nfc st (TrackDelivered r k)) i =
       Some (mkPull (pid p) (targetUserId p) (specs p) (remoteUser p)
               (tracks_ p ++ [nextRef st])
               (if bool_decide (S (length (tracks_ p)) = length (specs p))
                then Fulfilled else AwaitTracks)) /\
     (i ∈ listeners_of (step nfc st (TrackDelivered r k)) r <->
      S (length (tracks_ p)) <> length (specs p))).
Proof.
  intros Hr Hl. destruct (reachable_Inv st Hr) as [HI Hq].
  assert (p ∈ pulls st /\ pid p = i) as [Hp Hpi].
  { destruct (lookup_pull_Some st i p Hl) as (j & _ & Hj & ?).
    split; [by eapply list_elem_of_lookup_2|done]. }
  assert (counting p) as (Hc1 & Hc2 & _).
  { destruct HI. rewrite Forall_forall in inv_counting0. by apply inv_counting0. }
  assert (forall st0 r0, Inv st0 -> i ∈ listeners_of st0 r0 ->
            exists p0, lookup_pull st0 i = Some p0 /\ phase p0 = AwaitTracks /\
                       remoteUser p0 = Some r0) as Hlis.
  { intros st0 r0 HI0 Hi. destruct (listeners_of_elem st0 r0 i Hi)
      as (idx & u & w & Hu & Hur & Hw & _ & Hiw).
    destruct HI0. rewrite Forall_forall in inv_listeners0.
    destruct (inv_listeners0 u (list_elem_of_lookup_2 _ _ _ Hu) w i Hw Hiw)
      as (p0 & Hp0 & Hpi0 & Hph0 & Hru).
    exists p0. split; [|split; [done|congruence]].
    rewrite <- Hpi0. by apply lookup_pull_elem. }
  assert (forall st0 u, Inv st0 -> u ∈ remoteUsers st0 ->
            forall p0, lookup_pull st0 i = Some p0 -> phase p0 = AwaitTracks ->
            remoteUser p0 = Some (uref u) -> i ∈ listeners_of st0 (uref u)) as Hreg.
  { intros st0 u HI0 Hu p0 Hl0 Hph0 Hru.
    destruct (lookup_pull_Some st0 i p0 Hl0) as (j & _ & Hj & Hpi0).
    pose proof HI0 as HI0'. destruct HI0'. rewrite Forall_forall in inv_registered0.
    destruct (inv_registered0 p0 (list_elem_of_lookup_2 _ _ _ Hj) u Hu Hru Hph0)
      as (w & Hw & Hiw).
    rewrite Hpi0 in Hiw. by eapply listeners_of_intro. }
  split; [done|]. split; [done|]. split.
  { intros Hph u Hu Hru. by eapply Hreg. }
  split.
  { intros Hph Hi. destruct (Hlis st r HI Hi) as (p0 & Hl0 & Hph0 & _). congruence. }
  destruct (track_delivered_good r k st HI Hq) as ((HI' & _ & _ & G & _) & L).
  cbn [step]. split.
  { intros Hi. rewrite L. by rewrite bool_decide_eq_false_2. }
  intros Hi. destruct (Hlis st r HI Hi) as (p0 & Hl0 & Hph & Hru).
  assert (p0 = p) as -> by congruence.
  assert (lookup_pull (track_delivered r k st) i =
          Some (mkPull (pid p) (targetUserId p) (specs p) (remoteUser p)
                  (tracks_ p ++ [nextRef st])
                  (if bool_decide (S (length (tracks_ p)) = length (specs p))
                   then Fulfilled else AwaitTracks))) as Hl'.
  { rewrite L, bool_decide_eq_true_2, Hl by done. cbn.
    rewrite continued_heard; [done..|]. by apply Hc2. }
  split; [done|]. split.
  - intros Hi'. destruct (Hlis _ r HI' Hi') as (p1 & Hl1 & Hph1 & _).
    rewrite Hl' in Hl1. inversion Hl1 as [E]. rewrite <- E in Hph1. cbn in Hph1.
    case_bool_decide; [done|lia].
  - intros Hne. destruct (listeners_of_elem st r i Hi) as (idx & u & w & Hu & Hur & _).
    destruct G as (l1 & l2 & El & F2 & _).
    apply Forall2_same_length_lookup in F2 as [Hlen F2].
    destruct (lookup_lt_is_Some_2 l1 idx) as [u' Hu'].
    { rewrite <- Hlen. by eapply lookup_lt_Some. }
    destruct (F2 idx u u' Hu Hu') as (Hur' & _).
    assert (u' ∈ remoteUsers (track_delivered r k st)) as Hin.
    { rewrite El. apply elem_of_app. left. by eapply list_elem_of_lookup_2. }
    replace (listeners_of (track_delivered r k st) r)
      with (listeners_of (track_delivered r k st) (uref u')) by (f_equal; congruence).
    eapply (Hreg _ u' HI' Hin); [exact Hl'| |].
    + cbn. by rewrite bool_decide_eq_false_2.
    + cbn. rewrite Hru. congruence.
Qed.

(** *** Publications of an entry *)

Lemma fresh_ids_NoDup (old new : list Pusher) :
  NoDup (pusherId <$> old) -> NoDup (pusherId <$> new) ->
  NoDup (pusherId <$> (old ++ filter (fun p => pusherId p ∉ pusherId <$> old) new)).
Proof.
  intros Ho Hn. rewrite fmap_app. apply NoDup_app. split; [done|]. split.
  - intros id Hid Hid'. apply list_elem_of_fmap in Hid' as (p & -> & Hp).
    apply list_elem_of_filter in Hp as [Hp _]. done.
  - eapply sublist_NoDup; [exact Hn|]. apply fmap_sublist, sublist_filter.
Qed.

Lemma extend_slots (w : PCWrap.t) (fresh : list Pusher) base :
  direction w = recvonly ->
  transceivers (initPeerConnection w).1 = base ->
  NoDup (pusherId <$> fresh) ->
  (forall id, id ∈ pusherId <$> fresh -> recvMap w !! id = None) ->
  exists p', pc (extend w (specs_of fresh)) = Some p' /\
    transceivers p' =
      base ++ ((fun q => mkTransceiver (av_type (rtpParam q)) recvonly) <$> fresh).
Proof.
  intros Hd Hb Hn Hnone. rewrite extend_recvonly by done. cbn.
  eexists. split; [done|]. rewrite reserve_fresh.
  - rewrite Hb. f_equal. unfold specs_of. by rewrite <- list_fmap_compose.
  - by rewrite specs_of_ids.
  - intros id Hid. rewrite specs_of_ids in Hid. by apply Hnone.
Qed.

(** The branch of [upsertRemoteUser] for an entry that exists. *)
Lemma merge_publications st user idx e :
  reachable nfc st ->
  find_first (same_id nfc user) (remoteUsers st) = Some (idx, e) ->
  NoDup (pusherId <$> pushers e) ->
  NoDup (pusherId <$> default [] (p_pushers user)) ->
  let e' := (upsertRemoteUser nfc user st).2 in
  let fresh := filter (fun p => pusherId p ∉ pusherId <$> pushers e)
                 (default [] (p_pushers user)) in
  remoteUsers (upsertRemoteUser nfc user st).1 !! idx = Some e' /\
  pushers e' = pushers e ++ fresh /\
  NoDup (pusherId <$> pushers e') /\
  (forall w p, receivePcWrap e = Some w -> pc w = Some p ->
     exists w' p', receivePcWrap e' = Some w' /\ pc w' = Some p' /\
       transceivers p' =
         transceivers p ++
         ((fun q => mkTransceiver (av_type (rtpParam q)) recvonly) <$> fresh)) /\
  (receivePcWrap e = None -> fresh <> [] ->
     exists w' p', receivePcWrap e' = Some w' /\ pc w' = Some p' /\
       transceivers p' =
         (fun q => mkTransceiver (av_type (rtpParam q)) recvonly) <$> fresh).
Proof.
  intros Hr Hf Hde Hdp. cbn zeta.
  destruct (reachable_Inv st Hr) as [HI _].
  pose proof (find_first_Some _ _ _ _ Hf) as (He & _ & _).
  assert (session_ok e) as Hok.
  { destruct HI. rewrite Forall_forall in inv_session0.
    apply inv_session0. by eapply list_elem_of_lookup_2. }
  set (fresh := filter (fun p => pusherId p ∉ pusherId <$> pushers e)
                  (default [] (p_pushers user))).
  assert (NoDup (pusherId <$> fresh)) as Hnf.
  { eapply sublist_NoDup; [exact Hdp|]. apply fmap_sublist, sublist_filter. }
  assert ((upsertRemoteUser nfc user st).2 = (merge_user (nextRef st) user e).1 /\
          remoteUsers (upsertRemoteUser nfc user st).1 =
            <[idx := (merge_user (nextRef st) user e).1]> (remoteUsers st)) as [-> Eu].
  { unfold upsertRemoteUser. rewrite Hf.
    by destruct (merge_user (nextRef st) user e) as [e' ref]. }
  destruct (merge_user_fields (nextRef st) user e) as (_ & _ & _ & Hp & _).
  fold fresh in Hp. split.
  { rewrite Eu. apply list_lookup_insert_eq. by eapply lookup_lt_Some. }
  split; [done|]. split.
  { rewrite Hp. by apply fresh_ids_NoDup. }
  unfold session_ok in Hok. unfold merge_user. cbn zeta. fold fresh.
  cbn [receivePcWrap set_pushers set_userName pushers].
  destruct (receivePcWrap e) as [w|] eqn:Hw.
  - destruct Hok as (Hd & _ & _ & (p0 & Hp0 & _) & Hdom & _). split; [|done].
    intros w0 p Hw0 Hpc. inversion Hw0; subst w0.
    assert (transceivers (initPeerConnection w).1 = transceivers p) as Hb
      by (unfold initPeerConnection; by rewrite Hpc).
    assert (forall id, id ∈ pusherId <$> fresh -> recvMap w !! id = None) as Hnone.
    { intros id Hid. apply list_elem_of_fmap in Hid as (q & -> & Hq).
      apply list_elem_of_filter in Hq as [Hq _].
      destruct (recvMap w !! pusherId q) eqn:E; [|done].
      exfalso. apply Hq, Hdom. by rewrite E. }
    destruct (extend_slots w fresh _ Hd Hb Hnf Hnone) as (p' & Hp' & Ht).
    assert (forall x, receivePcWrap x = Some w -> fresh = [] -> exists w' p',
              receivePcWrap x = Some w' /\ pc w' = Some p' /\
              transceivers p' = transceivers p ++
                ((fun q => mkTransceiver (av_type (rtpParam q)) recvonly) <$> fresh)) as Hsame.
    { intros x Hx ->. exists w, p. by rewrite app_nil_r. }
    destruct (0 <? length (default [] (p_pushers user)))%nat eqn:E1.
    + destruct (0 <? length (specs_of fresh))%nat eqn:E2.
      * exists (extend w (specs_of fresh)), p'.
        split; [reflexivity|]. split; [exact Hp'|exact Ht].
      * apply Hsame; [exact Hw|]. apply Nat.ltb_ge in E2. unfold specs_of in E2.
        rewrite length_fmap in E2. destruct fresh; [done|cbn in E2; lia].
    + apply Hsame; [exact Hw|]. apply Nat.ltb_ge in E1.
      destruct (default [] (p_pushers user)) eqn:E; [done|cbn in E1; lia].
  - destruct Hok as [Hpe _]. split; [done|]. intros _ Hne.
    assert (pushers e ++ fresh = fresh) as Epf by (by rewrite Hpe).
    rewrite Epf.
    destruct (0 <? length fresh)%nat eqn:E.
    + destruct (extend_slots (PCWrap.new (nextRef st) recvonly) fresh [])
        as (p' & Hp' & Ht); [done..|].
      exists (extend (PCWrap.new (nextRef st) recvonly) (specs_of fresh)), p'.
      split; [reflexivity|]. split; [exact Hp'|exact Ht].
    + apply Nat.ltb_ge in E. destruct fresh; [done|cbn in E; lia].
Qed.

(** The branch of [upsertRemoteUser] for an id that no entry has. *)
Lemma create_publications st user :
  find_first (same_id nfc user) (remoteUsers st) = None ->
  NoDup (pusherId <$> default [] (p_pushers user)) ->
  let e' := (upsertRemoteUser nfc user st).2 in
  pushers e' = default [] (p_pushers user) /\
  (default [] (p_pushers user) <> [] ->
     exists w' p', receivePcWrap e' = Some w' /\ pc w' = Some p' /\
       transceivers p' =
         (fun q => mkTransceiver (av_type (rtpParam q)) recvonly) <$>
           default [] (p_pushers user)).
Proof.
  intros Hf Hd. cbn zeta. unfold upsertRemoteUser. rewrite Hf.
  unfold createRemoteUser. cbn [pushers].
  destruct (default [] (p_pushers user)) as [|q qs] eqn:E; [done|].
  cbn [length Nat.ltb Nat.leb snd fst pushers receivePcWrap]. split; [done|]. intros _.
  destruct (extend_slots (PCWrap.new (nextRef st + 1) recvonly) (q :: qs) [])
    as (p' & Hp' & Ht); [done..|].
  exists (extend (PCWrap.new (nextRef st + 1) recvonly) (specs_of (q :: qs))), p'.
  split; [reflexivity|]. split; [exact Hp'|exact Ht].
Qed.

(** C6: an upsert whose payload has pairwise distinct publication
    identifiers, on a page where the entry it finds, if any, has pairwise
    distinct publication identifiers.  The identifiers of the entry
    returned are pairwise distinct.  For an entry that exists, the
    publications it had stay as they are, in place; the publications of
    the payload with an identifier it did not have are added after them,
    and the receive session gets one new slot for each added publication
    and no other.  For a new entry the publications are those of the
    payload, with one slot each. *)
Theorem upsert_adds_only_unknown_publications st user :
  reachable nfc st ->
  (forall idx e, find_first (same_id nfc user) (remoteUsers st) = Some (idx, e) ->
                 NoDup (pusherId <$> pushers e)) ->
  NoDup (pusherId <$> default [] (p_pushers user)) ->
  NoDup (pusherId <$> pushers (upsertRemoteUser nfc user st).2) /\
  match find_first (same_id nfc user) (remoteUsers st) with
  | Some (idx, e) =>
      let fresh := filter (fun p => pusherId p ∉ pusherId <$> pushers e)
                     (default [] (p_pushers user)) in
      pushers (upsertRemoteUser nfc user st).2 = pushers e ++ fresh /\
      (forall w p, receivePcWrap e = Some w -> pc w = Some p ->
         exists w' p', receivePcWrap (upsertRemoteUser nfc user st).2 = Some w' /\
           pc w' = Some p' /\
           transceivers p' =
             transceivers p ++
             ((fun q => mkTransceiver (av_type (rtpParam q)) recvonly) <$> fresh)) /\
      (receivePcWrap e = None -> fresh <> [] ->
         exists w' p', receivePcWrap (upsertRemoteUser nfc user st).2 = Some w' /\
           pc w' = Some p' /\
           transceivers p' =
             (fun q => mkTransceiver (av_type (rtpParam q)) recvonly) <$> fresh)
  | None =>
      pushers (upsertRemoteUser nfc user st).2 = default [] (p_pushers user) /\
      (default [] (p_pushers user) <> [] ->
         exists w' p', receivePcWrap (upsertRemoteUser nfc user st).2 = Some w' /\
           pc w' = Some p' /\
           transceivers p' =
             (fun q => mkTransceiver (av_type (rtpParam q)) recvonly) <$>
               default [] (p_pushers user))
  end.
Proof.
  intros Hr He Hd.
  destruct (find_first (same_id nfc user) (remoteUsers st)) as [[idx e]|] eqn:Hf.
  - destruct (merge_publications st user idx e Hr Hf (He idx e eq_refl) Hd)
      as (_ & Hp & Hn & Hw & Hnone).
    split; [exact Hn|]. cbn zeta. split; [exact Hp|]. split; [exact Hw|exact Hnone].
  - destruct (create_publications st user Hf Hd) as [Hp Hw].
    split; [by rewrite Hp|]. split; [exact Hp|exact Hw].
Qed.

(** *** A join response with a code that is not 0 *)

Lemma pull_pushers_page u st :
  wsStatus (pull_pushers u st) = wsStatus st /\ effects (pull_pushers u st) = effects st.
Proof.
  unfold pull_pushers. destruct (pushers u); [done|]. cbn.
  unfold pullRemoteUser. by repeat case_match.
Qed.

Lemma fold_pull_pushers_page l : forall st,
  wsStatus (fold_left (fun s u => pull_pushers u s) l st) = wsStatus st /\
  effects (fold_left (fun s u => pull_pushers u s) l st) = effects st.
Proof.
  induction l as [|u l IH]; intros st; [done|]. cbn.
  destruct (IH (pull_pushers u st)) as [-> ->]. apply pull_pushers_page.
Qed.

(** C5: what [onJoin] does with a [join] response whose code is not 0.
    The page is marked joined, nothing is alerted, no participant of the
    response is upserted, and every entry of the array with publications
    is pulled. *)
Theorem join_response_with_error_code_joins st r :
  joinPhase st = JoinRequesting ->
  Js.strict_eq (j_code r) (Js.Num 0) = false ->
  join_settled nfc (Ok r) st =
    set_joinPhase
      (fold_left (fun s u => pull_pushers u s) (remoteUsers st) (set_wsStatus st ws_joined))
      JoinReturned /\
  wsStatus (join_settled nfc (Ok r) st) = ws_joined /\
  effects (join_settled nfc (Ok r) st) = effects st /\
  ids (join_settled nfc (Ok r) st) = ids st.
Proof.
  intros Hj Hc.
  assert (join_settled nfc (Ok r) st =
          set_joinPhase
            (fold_left (fun s u => pull_pushers u s) (remoteUsers st)
               (set_wsStatus st ws_joined))
            JoinReturned) as E.
  { unfold join_settled. rewrite Hj, Hc. by destruct (j_users r). }
  split; [done|]. rewrite E.
  destruct (fold_pull_pushers_page (remoteUsers st) (set_wsStatus st ws_joined)) as [H1 H2].
  split; [exact H1|]. split; [exact H2|].
  apply (fold_ids (fun s u => pull_pushers u s) (remoteUsers st)
           (fun s u => pull_pushers_ids u s) (set_wsStatus st ws_joined)).
Qed.

(** *** The chat log *)


(** *** The connection side of the page *)

Lemma update_user_conn st r f : conn (update_user st r f) = conn st.
Proof.
  unfold update_user.
  destruct (find_first (has_uref r) (remoteUsers st)) as [[idx u]|]; [done|].
  by destruct (find_first (has_uref r) (departed st)) as [[idx u]|].
Qed.

Lemma update_pull_conn st i f : conn (update_pull st i f) = conn st.
Proof. unfold update_pull. by destruct (find_first (has_pid i) (pulls st)) as [[idx p]|]. Qed.

Lemma pullRemoteUser_conn target sp st : conn (pullRemoteUser target sp st) = conn st.
Proof. unfold pullRemoteUser. by repeat case_match. Qed.

Lemma pull_pushers_conn u st : conn (pull_pushers u st) = conn st.
Proof. unfold pull_pushers. destruct (_ <? _)%nat; [apply pullRemoteUser_conn|done]. Qed.

Lemma fold_conn {A} (f : State -> A -> State) (l : list A) :
  (forall st a, conn (f st a) = conn st) -> forall st, conn (fold_left f l st) = conn st.
Proof.
  intros Hf. induction l as [|a l IH]; intros st; cbn; [done|]. by rewrite IH, Hf.
Qed.

Lemma upsertRemoteUser_conn user st : conn (upsertRemoteUser nfc user st).1 = conn st.
Proof.
  unfold upsertRemoteUser.
  destruct (find_first (same_id nfc user) (remoteUsers st)) as [[idx e]|].
  - by destruct (merge_user (nextRef st) user e).
  - by destruct (createRemoteUser nfc (nextRef st) user).
Qed.

Lemma upsert_and_pull_conn st user : conn (upsert_and_pull nfc st user) = conn st.
Proof.
  unfold upsert_and_pull. pose proof (upsertRemoteUser_conn user st) as H.
  destruct (upsertRemoteUser nfc user st) as [st1 u]. cbn in H.
  by rewrite pull_pushers_conn.
Qed.

Lemma track_listener_conn idx tr st i : conn (track_listener idx tr st i) = conn st.
Proof.
  unfold track_listener. repeat case_match; try done; rewrite ?update_pull_conn; try done.
  unfold conn in *. cbn. apply (update_pull_conn st i).
Qed.

Lemma tracks_collected_conn st i : conn (tracks_collected st i) = conn st.
Proof.
  unfold tracks_collected.
  repeat case_match; try done; by rewrite update_pull_conn, ?update_user_conn.
Qed.

Lemma step_conn st ev : connects ev = false -> conn (step nfc st ev) = conn st.
Proof.
  intros Hc. destruct ev as [n| | | | |response|c o r|r|r|r|i o|i r|r k]; try done; cbn.
  - destruct n as [users|id|id|user| |id|]; cbn; try done.
    + apply (fold_conn (upsert_and_pull nfc)). apply upsert_and_pull_conn.
    + unfold mark_user. by destruct (find_first _ _) as [[idx u]|].
    + unfold mark_user. by destruct (find_first _ _) as [[idx u]|].
    + apply upsert_and_pull_conn.
    + unfold user_leave. by destruct (find_first _ _) as [[idx u]|].
  - unfold onOpenDevices. by repeat case_match.
  - unfold click_mute. destruct (find_first _ _) as [[idx u]|]; [|done].
    by destruct (toggleAudioMute (store st) u).
  - unfold click_mute. destruct (find_first _ _) as [[idx u]|]; [|done].
    by destruct (toggleVideoMute (store st) u).
  - unfold video_mounted. by destruct (find_first _ _) as [[idx u]|].
  - unfold offer_settled. repeat case_match; try done.
    + unfold conn. cbn. apply (update_pull_conn st i).
    + apply update_pull_conn.
  - unfold pull_settled.
    repeat case_match; try done; by rewrite update_pull_conn, ?update_user_conn.
  - unfold track_delivered. repeat case_match; try done.
    rewrite (fold_conn tracks_collected) by apply tracks_collected_conn.
    rewrite (fold_conn (track_listener _ _)) by apply track_listener_conn. done.
Qed.

Lemma step_peer st ev : wsPeer st = true -> wsPeer (step nfc st ev) = true.
Proof.
  intros Hp. destruct (connects ev) eqn:Hc.
  - destruct ev as [n| | | | |response|c o r|r|r|r|i o|i r|r k]; try done; cbn.
    + unfold onJoin. by rewrite Hp.
    + unfold socket_opened. cbn. by destruct (joinPhase st).
    + unfold socket_failed. by destruct (joinPhase st).
    + unfold join_settled. destruct (joinPhase st); try done.
      destruct response as [resp|e]; [|done]. cbn [wsPeer set_joinPhase].
      assert (forall s, conn (fold_left (fun s u => pull_pushers u s) (remoteUsers s) s) = conn s)
        as Hf by (intros s; apply (fold_conn (fun s u => pull_pushers u s));
                  intros; apply pull_pushers_conn).
      match goal with |- wsPeer (fold_left _ (remoteUsers ?s) ?s) = _ =>
        pose proof (Hf s) as E; unfold conn in E; inversion E as [[E1 E2 E3]]; rewrite E2
      end.
      destruct (j_users resp) as [users|]; [|done].
      destruct (Js.strict_eq (j_code resp) (Js.Num 0)); [|done].
      pose proof (fold_conn (fun s u => (upsertRemoteUser nfc u s).1) users
                    (fun s u => upsertRemoteUser_conn u s) (set_wsStatus st ws_joined)) as E'.
      unfold conn in E'. inversion E' as [[E1' E2' E3']]. by rewrite E2'.
  - pose proof (step_conn st ev Hc) as E. unfold conn in E. inversion E. congruence.
Qed.

Lemma run_peer evs : forall st, wsPeer st = true -> wsPeer (run nfc st evs) = true.
Proof.
  induction evs as [|ev evs IH]; intros st Hp; [done|]. cbn. by apply IH, step_peer.
Qed.

(** X9: the page never closes the signaling client, so joining is one
    shot: once the client holds a peer, whatever happens next (the
    connection opens, fails or closes, the [join] request settles either
    way), it holds it for good, and every Join click only alerts "Already
    connected" and starts no connection. *)
Theorem join_click_is_one_shot st evs :
  wsPeer st = true ->
  wsPeer (run nfc st evs) = true /\
  step nfc (run nfc st evs) ClickJoin =
    emit (run nfc st evs)
      (Alert "Failed to connect: Already connected. Call close() first.").
Proof.
  intros H0. pose proof (run_peer evs st H0) as Hp.
  split; [exact Hp|].
  set (s := run nfc st evs) in *. cbn [step]. unfold onJoin.
  by rewrite Hp.
Qed.




(** *** Alerts and requests *)

Lemma update_user_effects st r f : effects (update_user st r f) = effects st.
Proof.
  unfold update_user.
  destruct (find_first (has_uref r) (remoteUsers st)) as [[idx u]|]; [done|].
  by destruct (find_first (has_uref r) (departed st)) as [[idx u]|].
Qed.

Lemma update_pull_effects st i f : effects (update_pull st i f) = effects st.
Proof. unfold update_pull. by destruct (find_first (has_pid i) (pulls st)) as [[idx p]|]. Qed.

Lemma track_listener_effects idx tr st i : effects (track_listener idx tr st i) = effects st.
Proof.
  unfold track_listener. repeat case_match; try done; rewrite ?update_pull_effects; try done.
  cbn. apply update_pull_effects.
Qed.

Lemma tracks_collected_effects st i : effects (tracks_collected st i) = effects st.
Proof.
  unfold tracks_collected.
  repeat case_match; try done; by rewrite update_pull_effects, ?update_user_effects.
Qed.

Lemma fold_effects {A} (f : State -> A -> State) (l : list A) :
  (forall st a, effects (f st a) = effects st) ->
  forall st, effects (fold_left f l st) = effects st.
Proof.
  intros Hf. induction l as [|a l IH]; intros st; cbn; [done|]. by rewrite IH, Hf.
Qed.

(** X20: a subscribe call fails in silence.  When the promises of a
    subscribe call settle, for better or worse, and when tracks arrive, no
    alert is raised: the only effect is the [pull] request, sent when the
    offer of a call that awaits it is created. *)
Theorem subscribe_failures_are_silent st :
  (forall i offer,
     effects (step nfc st (OfferSettled i offer)) = effects st \/
     (effects (step nfc st (OfferSettled i offer)) = effects st ++ [Request "pull"] /\
      (exists sdp, offer = Ok sdp) /\
      exists p, lookup_pull st i = Some p /\ phase p = AwaitOffer)) /\
  (forall i response, effects (step nfc st (PullSettled i response)) = effects st) /\
  (forall r k, effects (step nfc st (TrackDelivered r k)) = effects st).
Proof.
  split; [|split].
  - intros i offer. cbn. unfold offer_settled.
    destruct (lookup_pull st i) as [p|] eqn:Hl; [|by left].
    destruct (phase p) eqn:Hp; try (by left).
    destruct offer as [sdp|e].
    + right. cbn. rewrite update_pull_effects. split; [done|]. split; [by exists sdp|].
      by exists p.
    + left. apply update_pull_effects.
  - intros i response. cbn. unfold pull_settled.
    repeat case_match; try done; by rewrite update_pull_effects, ?update_user_effects.
  - intros r k. cbn. unfold track_delivered. repeat case_match; try done.
    rewrite (fold_effects tracks_collected) by apply tracks_collected_effects.
    rewrite (fold_effects (track_listener _ _)) by apply track_listener_effects. done.
Qed.


(** *** Buffers, states and mute flags of the entries *)

(** X11: on every page the events can produce, a track in the buffer of an
    entry was delivered by that entry's own receive session; no track is in
    the buffers of two entries. *)
Theorem buffer_holds_own_session_tracks st u1 u2 s1 s2 tr :
  reachable nfc st ->
  u1 ∈ remoteUsers st -> u2 ∈ remoteUsers st ->
  playStream u1 = Some s1 -> playStream u2 = Some s2 -> tr ∈ tracks s1 ->
  (exists x, store st !! tr = Some x /\ session x = Some (uref u1)) /\
  (tr ∈ tracks s2 -> u1 = u2).
Proof.
  intros Hr H1 H2 Hs1 Hs2 Ht. destruct (reachable_Inv st Hr) as [HI _]. destruct HI.
  rewrite Forall_forall in inv_streams0.
  destruct (inv_streams0 u1 H1 s1 tr Hs1 Ht) as (x & Hx & Hsx & _).
  split; [by exists x|]. intros Ht2.
  destruct (inv_streams0 u2 H2 s2 tr Hs2 Ht2) as (x' & Hx' & Hsx' & _).
  rewrite fmap_app in inv_urefs0. apply NoDup_app in inv_urefs0 as (Hd & _).
  eapply uref_inj; [done..|]. congruence.
Qed.

Lemma find_first_insert_true {A} (f : A -> bool) (l : list A) j x y :
  find_first f l = Some (j, x) -> f y = true ->
  find_first f (<[j:=y]> l) = Some (j, y).
Proof.
  intros Hf Hy. pose proof (find_first_Some _ _ _ _ Hf) as (Hx & _ & Hlt).
  clear Hf. revert j Hx Hlt. induction l as [|a l IH]; intros j Hx Hlt; [done|].
  destruct j as [|j]; simpl in *.
  - by rewrite Hy.
  - rewrite (Hlt 0 a); [|lia|done].
    rewrite (IH j Hx); [done|]. intros i z Hi Hz. apply (Hlt (S i) z); [lia|done].
Qed.

(** X12: a [userDisconnect] followed by a [userReconnect] for a stored id
    leaves the page as it was, but for the [state] of that entry, which is
    'connected': the entry keeps its place, its session, its buffer and
    its publications, and no other entry, call or track is touched. *)
Theorem disconnect_then_reconnect_restores st id idx u :
  find_first (is_user id) (remoteUsers st) = Some (idx, u) ->
  step nfc st (Notified (userDisconnect id)) =
    set_remoteUsers st (<[idx := set_state u (Some disconnected)]> (remoteUsers st)) /\
  step nfc (step nfc st (Notified (userDisconnect id))) (Notified (userReconnect id)) =
    set_remoteUsers st (<[idx := set_state u (Some connected)]> (remoteUsers st)).
Proof.
  intros Hf. pose proof (find_first_Some _ _ _ _ Hf) as (Hu & Hid & _).
  assert (step nfc st (Notified (userDisconnect id)) =
          set_remoteUsers st (<[idx := set_state u (Some disconnected)]> (remoteUsers st)))
    as E by (cbn; unfold mark_user; by rewrite Hf).
  split; [exact E|]. rewrite E. cbn. unfold mark_user. cbn [remoteUsers set_remoteUsers].
  rewrite (find_first_insert_true _ _ idx u (set_state u (Some disconnected)) Hf Hid).
  unfold set_remoteUsers. cbn. by rewrite list_insert_insert_eq.
Qed.

Lemma toggleMute_spec k (m : TrackStore) u :
  (forall tr, (toggleMute k m u).1 !! tr =
     (fun x => if bool_decide (tr ∈ buffered u /\ kind x = k)
               then mkTrack (kind x) (mutedFlag u k) (session x) else x) <$> m !! tr) /\
  mutedFlag (toggleMute k m u).2 k = negb (mutedFlag u k) /\
  (forall k', k' <> k -> mutedFlag (toggleMute k m u).2 k' = mutedFlag u k') /\
  uref (toggleMute k m u).2 = uref u /\
  playStream (toggleMute k m u).2 = playStream u /\
  receivePcWrap (toggleMute k m u).2 = receivePcWrap u /\
  pushers (toggleMute k m u).2 = pushers u /\
  state (toggleMute k m u).2 = state u.
Proof.
  split.
  - intros tr. unfold buffered.
    destruct k; cbn; (destruct (playStream u) as [s|]; cbn;
      [rewrite fold_set_enabled; destruct (m !! tr) as [x|]; cbn; [|done];
       by rewrite negb_involutive
      |destruct (m !! tr) as [x|]; cbn; [|done];
       rewrite bool_decide_eq_false_2; [done|]; intros [H _]; inversion H]).
  - destruct k; cbn; (split; [done|]); (split; [intros []; done|]); done.
Qed.

Lemma click_mute_toggle k r st :
  step nfc st (ClickMute k r) = click_mute (toggleMute k) r st.
Proof. by destruct k. Qed.

(** X13: a click on a mute button of an entry flips the entry's flag of
    that kind and writes the [enabled] flag of the tracks of that kind in
    the entry's buffer: they are enabled exactly if the flag was set
    before.  Tracks of the other kind, tracks outside that buffer, the
    other flag, the session and the buffer are left as they were. *)
Theorem mute_click_touches_only_its_kind st k r idx u :
  find_first (has_uref r) (remoteUsers st) = Some (idx, u) ->
  (forall tr, store (step nfc st (ClickMute k r)) !! tr =
     (fun x => if bool_decide (tr ∈ buffered u /\ kind x = k)
               then mkTrack (kind x) (mutedFlag u k) (session x) else x) <$> store st !! tr) /\
  exists u',
    remoteUsers (step nfc st (ClickMute k r)) = <[idx := u']> (remoteUsers st) /\
    mutedFlag u' k = negb (mutedFlag u k) /\
    (forall k', k' <> k -> mutedFlag u' k' = mutedFlag u k') /\
    playStream u' = playStream u /\ receivePcWrap u' = receivePcWrap u /\
    pushers u' = pushers u /\ state u' = state u.
Proof.
  intros Hf. rewrite click_mute_toggle. unfold click_mute. rewrite Hf.
  destruct (toggleMute_spec k (store st) u) as (Hm & H1 & H2 & _ & H3 & H4 & H5 & H6).
  destruct (toggleMute k (store st) u) as [m' u'] eqn:E. cbn in *.
  split; [exact Hm|]. by exists u'.
Qed.

(** X14: on every page the events can produce, two clicks on the same
    mute button of an entry restore every track of the page, the flags of
    the entry, its buffer and its session. *)
Theorem mute_twice_restores st k r idx u :
  reachable nfc st ->
  find_first (has_uref r) (remoteUsers st) = Some (idx, u) ->
  store (step nfc (step nfc st (ClickMute k r)) (ClickMute k r)) = store st /\
  exists u2,
    remoteUsers (step nfc (step nfc st (ClickMute k r)) (ClickMute k r)) =
      <[idx := u2]> (remoteUsers st) /\
    (forall k', mutedFlag u2 k' = mutedFlag u k') /\
    playStream u2 = playStream u /\ receivePcWrap u2 = receivePcWrap u /\
    pushers u2 = pushers u /\ state u2 = state u.
Proof.
  intros Hr Hf. destruct (reachable_Inv st Hr) as [HI _].
  pose proof (find_first_Some _ _ _ _ Hf) as (Hu & Hid & _).
  assert (stream_ok (store st) u) as Hok.
  { destruct HI. rewrite Forall_forall in inv_streams0. apply inv_streams0.
    by eapply list_elem_of_lookup_2. }
  rewrite !click_mute_toggle. unfold click_mute at 2 4. rewrite Hf.
  destruct (toggleMute_spec k (store st) u) as (Hm1 & F1 & G1 & R1 & P1 & W1 & Q1 & S1).
  destruct (toggleMute k (store st) u) as [m1 u1] eqn:E1. cbn in Hm1, F1, G1, R1, P1, W1, Q1, S1.
  unfold click_mute. cbn [remoteUsers set_remoteUsers store set_store].
  rewrite (find_first_insert_true _ _ idx u u1 Hf).
  2:{ unfold has_uref in *. apply bool_decide_eq_true. apply bool_decide_eq_true in Hid.
      congruence. }
  destruct (toggleMute_spec k m1 u1) as (Hm2 & F2 & G2 & R2 & P2 & W2 & Q2 & S2).
  destruct (toggleMute k m1 u1) as [m2 u2] eqn:E2. cbn in Hm2, F2, G2, R2, P2, W2, Q2, S2.
  cbn. split.
  - apply map_eq. intros tr. rewrite Hm2, Hm1. unfold buffered. rewrite P1.
    destruct (store st !! tr) as [x|] eqn:Ex; cbn; [|done]. f_equal.
    destruct (bool_decide (tr ∈ default [] (tracks <$> playStream u) ∧ kind x = k)) eqn:Hc.
    + apply bool_decide_eq_true in Hc as [Hin Hk]. cbn [kind].
      rewrite bool_decide_eq_true_2 by done. cbn [kind session]. rewrite F1.
      destruct (playStream u) as [s|] eqn:Es; [|by inversion Hin]. cbn in Hin.
      destruct (Hok s tr Es Hin) as (x' & Hx' & _ & He).
      rewrite Ex in Hx'. inversion Hx'; subst x'. rewrite Hk in He. rewrite <- He.
      by destruct x.
    + by rewrite Hc.
  - exists u2. split; [by rewrite list_insert_insert_eq|]. split.
    + intros k'. destruct (decide (k' = k)) as [->|Hne].
      * by rewrite F2, F1, negb_involutive.
      * by rewrite G2, G1.
    + split_and!; congruence.
Qed.

(** *** The video elements of the entries *)

Lemma bound_insert (l : list RemoteUser) idx e e' :
  Forall bound l -> l !! idx = Some e -> (bound e -> bound e') ->
  Forall bound (<[idx:=e']> l).
Proof.
  intros Hl He Hb. apply Forall_insert; [done|]. apply Hb.
  rewrite Forall_forall in Hl. apply Hl. by eapply list_elem_of_lookup_2.
Qed.

Lemma bound_same e e' :
  videoRef e' = videoRef e -> playStream e' = playStream e -> bound e -> bound e'.
Proof. unfold bound. intros -> ->. done. Qed.

Lemma update_user_bound st r f :
  (forall u, bound u -> bound (f u)) ->
  Forall bound (remoteUsers st) -> Forall bound (remoteUsers (update_user st r f)).
Proof.
  intros Hf Hb. unfold update_user.
  destruct (find_first (has_uref r) (remoteUsers st)) as [[idx u]|] eqn:E.
  - apply find_first_Some in E as (Hu & _). cbn. eapply bound_insert; [done..|apply Hf].
  - by destruct (find_first (has_uref r) (departed st)) as [[idx u]|].
Qed.

Lemma update_pull_users st i f : remoteUsers (update_pull st i f) = remoteUsers st.
Proof. unfold update_pull. by destruct (find_first (has_pid i) (pulls st)) as [[idx p]|]. Qed.

Lemma pullRemoteUser_bound target sp st :
  Forall bound (remoteUsers st) -> Forall bound (remoteUsers (pullRemoteUser target sp st)).
Proof.
  intros Hb. unfold pullRemoteUser. cbn.
  destruct (find_first _ (remoteUsers st)) as [[idx u]|] eqn:E; [|done].
  apply find_first_Some in E as (Hu & _).
  destruct (receivePcWrap u) as [w|]; [|done].
  destruct (createOfferAndEmit_begin (store st) w) as [w' [[]|e]]; cbn;
    (eapply bound_insert; [done..|by apply bound_same]).
Qed.

Lemma pull_pushers_bound u st :
  Forall bound (remoteUsers st) -> Forall bound (remoteUsers (pull_pushers u st)).
Proof.
  intros Hb. unfold pull_pushers. destruct (_ <? _)%nat; [by apply pullRemoteUser_bound|done].
Qed.

Lemma fold_bound {A} (f : State -> A -> State) (l : list A) :
  (forall st a, Forall bound (remoteUsers st) -> Forall bound (remoteUsers (f st a))) ->
  forall st, Forall bound (remoteUsers st) -> Forall bound (remoteUsers (fold_left f l st)).
Proof.
  intros Hf. induction l as [|a l IH]; intros st Hb; cbn; [done|]. by apply IH, Hf.
Qed.

Lemma upsertRemoteUser_bound user st :
  Forall bound (remoteUsers st) ->
  Forall bound (remoteUsers (upsertRemoteUser nfc user st).1).
Proof.
  intros Hb. unfold upsertRemoteUser.
  destruct (find_first (same_id nfc user) (remoteUsers st)) as [[idx e]|] eqn:Hf.
  - apply find_first_Some in Hf as (He & _).
    assert (bound e -> bound (merge_user (nextRef st) user e).1) as Hm.
    { intros Hbe. unfold merge_user. cbn zeta.
      repeat case_match; cbn [fst]; try (by apply (bound_same e)).
      all: intros el0 s0 Hel Hs Ht; cbn in Hs; inversion Hs; subst s0; done. }
    destruct (merge_user (nextRef st) user e) as [e' ref]. cbn in *.
    by eapply bound_insert.
  - assert (bound (createRemoteUser nfc (nextRef st) user).1) as Hc.
    { unfold createRemoteUser. case_match; intros el0 s0 Hel; cbn in Hel; done. }
    destruct (createRemoteUser nfc (nextRef st) user) as [c ref]. cbn in *.
    apply Forall_app. split; [done|]. by apply Forall_singleton.
Qed.

Lemma upsert_and_pull_bound st user :
  Forall bound (remoteUsers st) -> Forall bound (remoteUsers (upsert_and_pull nfc st user)).
Proof.
  intros Hb. unfold upsert_and_pull. pose proof (upsertRemoteUser_bound user st Hb) as H.
  destruct (upsertRemoteUser nfc user st) as [st1 u]. by apply pull_pushers_bound.
Qed.

Lemma track_listener_bound idx tr st i :
  Forall bound (remoteUsers st) -> Forall bound (remoteUsers (track_listener idx tr st i)).
Proof.
  intros Hb. unfold track_listener.
  repeat case_match; try done; rewrite ?update_pull_users; try done.
  cbn. match goal with H : remoteUsers (update_pull _ _ _) !! _ = Some _ |- _ =>
    rewrite update_pull_users in H end.
  eapply bound_insert; [done..|by apply bound_same].
Qed.

Lemma fold_addTrack_sid trs : forall s, sid (fold_left addTrack trs s) = sid s.
Proof.
  induction trs as [|t trs IH]; intros s; cbn; [done|]. rewrite IH.
  unfold addTrack. by case_bool_decide.
Qed.

Lemma tracks_collected_bound st i :
  Forall bound (remoteUsers st) -> Forall bound (remoteUsers (tracks_collected st i)).
Proof.
  intros Hb. unfold tracks_collected.
  repeat case_match; try done; rewrite ?update_pull_users; try done;
    apply update_user_bound; try done.
  intros u0 _ el0 s0 Hel Hs Ht. cbn in Hel, Hs. inversion Hel. inversion Hs. done.
Qed.

Lemma step_bound st ev :
  Forall bound (remoteUsers st) -> Forall bound (remoteUsers (step nfc st ev)).
Proof.
  intros Hb. destruct ev as [n| | | | |response|c o r|r|r|r|i o|i r|r k]; cbn.
  - destruct n as [users|id|id|user| |id|]; cbn; try done.
    + apply (fold_bound (upsert_and_pull nfc)); [|done]. apply upsert_and_pull_bound.
    + unfold mark_user. destruct (find_first _ _) as [[idx u]|] eqn:E; [|done].
      apply find_first_Some in E as (Hu & _). cbn.
      eapply bound_insert; [done..|by apply bound_same].
    + unfold mark_user. destruct (find_first _ _) as [[idx u]|] eqn:E; [|done].
      apply find_first_Some in E as (Hu & _). cbn.
      eapply bound_insert; [done..|by apply bound_same].
    + by apply upsert_and_pull_bound.
    + destruct (user_leave_fields id st) as (_ & _ & _ & Hsub).
      rewrite Forall_forall in *. intros u Hu. by apply Hb, Hsub.
  - unfold onJoin. by destruct (wsPeer st).
  - unfold socket_opened. cbn. by destruct (joinPhase st).
  - unfold socket_failed. by destruct (joinPhase st).
  - done.
  - unfold join_settled. destruct (joinPhase st); try done.
    destruct response as [resp|e]; [|done]. cbn [remoteUsers set_joinPhase].
    apply (fold_bound (fun s u => pull_pushers u s)).
    { intros s a. apply pull_pushers_bound. }
    destruct (j_users resp) as [users|]; [|done].
    destruct (Js.strict_eq (j_code resp) (Js.Num 0)); [|done].
    apply (fold_bound (fun s u => (upsertRemoteUser nfc u s).1)); [|done].
    intros s a. apply upsertRemoteUser_bound.
  - by destruct (onOpenDevices_users c o r st) as (-> & _).
  - rewrite <- (click_mute_toggle audio). rewrite click_mute_toggle. unfold click_mute.
    destruct (find_first _ _) as [[idx u]|] eqn:E; [|done].
    apply find_first_Some in E as (Hu & _).
    destruct (toggleMute audio (store st) u) as [m' u'] eqn:Et. cbn.
    eapply bound_insert; [done..|]. intros Hbu.
    assert (u' = (toggleMute audio (store st) u).2) as -> by (by rewrite Et).
    cbn. intros el s Hel Hs Ht. cbn in Hel, Hs.
    destruct (videoRef u) as [el0|] eqn:Ev; [|done]. inversion Hel; subst el. cbn.
    by eapply Hbu.
  - rewrite <- (click_mute_toggle video). rewrite click_mute_toggle. unfold click_mute.
    destruct (find_first _ _) as [[idx u]|] eqn:E; [|done].
    apply find_first_Some in E as (Hu & _).
    destruct (toggleMute video (store st) u) as [m' u'] eqn:Et. cbn.
    eapply bound_insert; [done..|]. intros Hbu.
    assert (u' = (toggleMute video (store st) u).2) as -> by (by rewrite Et).
    cbn. intros el s Hel Hs Ht. cbn in Hel, Hs.
    destruct (videoRef u) as [el0|] eqn:Ev; [|done]. inversion Hel; subst el. cbn.
    by eapply Hbu.
  - unfold video_mounted. destruct (find_first _ _) as [[idx u]|] eqn:E; [|done].
    apply find_first_Some in E as (Hu & _). cbn [remoteUsers set_remoteUsers].
    eapply bound_insert; [done..|]. intros Hbu el s Hel Hs Ht.
    cbn [videoRef set_videoRef] in Hel. cbn [playStream set_videoRef] in Hs.
    assert ((0 <? length (tracks s))%nat = true) as Hlt.
    { apply Nat.ltb_lt. destruct (tracks s); [done|cbn; lia]. }
    rewrite Hs, Hlt in Hel. injection Hel as <-. cbn [andb].
    destruct (videoRef u) as [el0|] eqn:Ev; cbn [default].
    + case_bool_decide as Hsrc; cbn [negb]; [by eapply Hbu|done].
    + cbn [srcObject]. rewrite bool_decide_eq_false_2; [done|]. by intros [? ?].
  - unfold offer_settled. repeat case_match; try done; cbn; by rewrite update_pull_users.
  - unfold pull_settled.
    repeat case_match; try done; rewrite update_pull_users; try done.
    apply update_user_bound; [|done]. intros u0. by apply bound_same.
  - unfold track_delivered. repeat case_match; try done.
    apply (fold_bound tracks_collected); [apply tracks_collected_bound|].
    apply (fold_bound (track_listener _ _)); [apply track_listener_bound|]. done.
Qed.

(** X16: on every page the events can produce, the video element of an
    entry, once mounted, plays the entry's buffer as soon as the buffer has
    a track: whether the element is mounted before or after the tracks
    arrive, its [srcObject] is that buffer. *)
Theorem mounted_video_plays_the_buffer st u el s :
  reachable nfc st ->
  u ∈ remoteUsers st -> videoRef u = Some el -> playStream u = Some s ->
  tracks s <> [] ->
  srcObject el = Some (sid s).
Proof.
  intros Hr. revert u el s. induction Hr as [|st ev Hr IH].
  - intros u el s Hu. inversion Hu.
  - assert (Forall bound (remoteUsers st)) as Hb.
    { apply Forall_forall. intros u Hu el s. by apply IH. }
    pose proof (step_bound st ev Hb) as Hb'. rewrite Forall_forall in Hb'.
    intros u el s Hu. by apply Hb'.
Qed.

(** *** Subscribe calls made by the notification handlers *)

Section Subscriptions.

Hypothesis nfc_idem : forall s, nfc (Js.trim (nfc (Js.trim s))) = nfc (Js.trim s).

Lemma find_userId_elem (l : list RemoteUser) u :
  NoDup (userId <$> l) -> u ∈ l ->
  exists idx, find_first (fun v => bool_decide (userId v = userId u)) l = Some (idx, u) /\
              l !! idx = Some u.
Proof.
  intros Hnd Hu.
  destruct (find_first (fun v => bool_decide (userId v = userId u)) l) as [[idx v]|] eqn:E.
  - apply find_first_Some in E as (H1 & H2 & _). apply bool_decide_eq_true in H2.
    apply list_elem_of_lookup in Hu as [j Hj].
    assert (idx = j) as ->.
    { eapply (NoDup_lookup (userId <$> l)); [done|..]; rewrite list_lookup_fmap.
      - by rewrite H1.
      - rewrite Hj. cbn. by rewrite H2. }
    assert (v = u) as -> by congruence. by exists j.
  - rewrite find_first_None in E. specialize (E u Hu).
    by apply bool_decide_eq_false in E.
Qed.

Lemma pullRemoteUser_found sp st u :
  Inv st -> NoDup (ids st) -> u ∈ remoteUsers st -> pushers u <> [] ->
  pullRemoteUser (userId u) sp st =
  set_pulls (set_nextRef st (S (nextRef st)))
    (pulls st ++ [mkPull (nextRef st) (userId u) sp (Some (uref u)) [] AwaitOffer]).
Proof.
  intros HI Hd Hu Hp. unfold pullRemoteUser. cbn.
  destruct (find_userId_elem _ u Hd Hu) as (idx & -> & Hl).
  assert (session_ok u) as Hok.
  { destruct HI. rewrite Forall_forall in inv_session0. by apply inv_session0. }
  unfold session_ok in Hok. destruct (receivePcWrap u) as [w|] eqn:Hw.
  - destruct Hok as (Hdir & _ & _ & (q & Hq & Htr) & _).
    rewrite (createOfferAndEmit_begin_ready _ w q Hdir Hq Htr).
    assert (<[idx:=set_receivePcWrap u (Some w)]> (remoteUsers st) = remoteUsers st) as ->.
    { apply list_insert_id. rewrite Hl. f_equal. destruct u; simpl in *. by subst. }
    by destruct st.
  - by destruct Hok as [? _].
Qed.

Lemma upsert_result_in_table user st :
  (upsertRemoteUser nfc user st).2 ∈ remoteUsers (upsertRemoteUser nfc user st).1.
Proof.
  unfold upsertRemoteUser.
  destruct (find_first (same_id nfc user) (remoteUsers st)) as [[idx e]|] eqn:Hf.
  - apply find_first_Some in Hf as (He & _).
    destruct (merge_user (nextRef st) user e) as [e' ref]. cbn.
    apply (list_elem_of_lookup_2 _ idx). apply list_lookup_insert_eq. by eapply lookup_lt_Some.
  - destruct (createRemoteUser nfc (nextRef st) user) as [c ref]. cbn.
    apply elem_of_app. right. left.
Qed.

(** X15: the subscribe call that the [newUser] and [newPusher] handlers
    make for the entry they upserted.  Without a publication no call is
    made.  With one, the call finds that entry, passes the session and
    transceiver checks and awaits its offer; its specs are all the
    publications of the entry, those subscribed before included. *)
Theorem notified_subscribe_call_proceeds st user :
  reachable nfc st ->
  (pushers (upsertRemoteUser nfc user st).2 = [] ->
   upsert_and_pull nfc st user = (upsertRemoteUser nfc user st).1) /\
  (pushers (upsertRemoteUser nfc user st).2 <> [] ->
   upsert_and_pull nfc st user =
   set_pulls
     (set_nextRef (upsertRemoteUser nfc user st).1
        (S (nextRef (upsertRemoteUser nfc user st).1)))
     (pulls (upsertRemoteUser nfc user st).1 ++
      [mkPull (nextRef (upsertRemoteUser nfc user st).1)
         (userId (upsertRemoteUser nfc user st).2)
         (specs_of (pushers (upsertRemoteUser nfc user st).2))
         (Some (uref (upsertRemoteUser nfc user st).2)) [] AwaitOffer])).
Proof.
  intros Hr. destruct (reachable_Inv st Hr) as [HI _].
  pose proof (upsertRemoteUser_Inv user st HI) as HI1.
  destruct (upsertRemoteUser_ids_inv nfc_idem user st (reachable_ids nfc_idem st Hr))
    as [_ Hd1].
  pose proof (upsert_result_in_table user st) as Hin.
  unfold upsert_and_pull. destruct (upsertRemoteUser nfc user st) as [st1 u]. cbn in *.
  unfold pull_pushers. split.
  - intros ->. done.
  - intros Hp. destruct (pushers u) as [|q qs] eqn:E; [done|]. cbn [length Nat.ltb Nat.leb].
    rewrite <- E. apply pullRemoteUser_found; try done. by rewrite E.
Qed.

End Subscriptions.

(** X17: a subscribe call that is fulfilled or rejected is final: whatever
    events follow - settled promises with its reference, tracks of its
    session, notifications - the call keeps its phase, its tracks and its
    rejection reason. *)
Theorem settled_call_is_final st i p evs :
  reachable nfc st -> lookup_pull st i = Some p ->
  phase p = Fulfilled \/ (exists e, phase p = Rejected e) ->
  lookup_pull (run nfc st evs) i = Some p.
Proof.
  intros Hr Hl Hp. destruct (reachable_Inv st Hr) as [HI Hq].
  apply run_settled; [done..|]. destruct Hp as [Hp|Hp]; [by left|right; by left].
Qed.
End Properties.

(** A numeric [userId] names nobody, although it normalises to the stored
    id "6725". *)
Lemma raw_id_notification_changes_nothing_witness :
  normalizeId nfc_ascii (Js.Num 6725) = "6725" /\
  (userId <$> remoteUsers st_announced) = ["6725"] /\
  step nfc_ascii st_announced (Notified (userLeave (Js.Num 6725))) = st_announced.
Proof.
  split; [reflexivity|]. split; [reflexivity|].
  apply (raw_id_notification_changes_nothing nfc_ascii st_announced (Js.Num 6725)).
  intros u Hu. discriminate.
Defined.


(** ** Examples *)

Lemma nfc_ascii_idem s : nfc_ascii (Js.trim (nfc_ascii (Js.trim s))) = nfc_ascii (Js.trim s).
Proof. unfold nfc_ascii. apply trim_idem. Qed.

Lemma concrete_reachable evs : reachable nfc_ascii (run nfc_ascii initial evs).
Proof. apply run_reachable. constructor. Qed.

Lemma st_announced_reachable : reachable nfc_ascii st_announced.
Proof. apply concrete_reachable. Qed.

Lemma st_waiting_reachable : reachable nfc_ascii st_waiting.
Proof. apply run_reachable, st_announced_reachable. Qed.

(** "6725" leaves while call 3 awaits its tracks: the call still awaits
    them after the leave, and after anything that follows. *)
Lemma leave_removes_entry_and_wait_stays_pending_witness :
  find_first (is_user (Js.Str "6725")) (remoteUsers st_waiting) = Some (0, bob_waiting) /\
  lookup_pull st_waiting 3 = Some (call_3 [] AwaitTracks) /\
  lookup_pull
    (run nfc_ascii (step nfc_ascii st_waiting (Notified (userLeave (Js.Str "6725"))))
       [TrackDelivered 0 video]) 3 = Some (call_3 [] AwaitTracks).
Proof.
  assert (find_first (is_user (Js.Str "6725")) (remoteUsers st_waiting) =
          Some (0, bob_waiting)) as Hf by (vm_compute; reflexivity).
  split; [exact Hf|]. split; [reflexivity|].
  destruct (leave_removes_entry_and_wait_stays_pending nfc_ascii nfc_ascii_idem
              st_waiting (Js.Str "6725") 0 bob_waiting st_waiting_reachable Hf) as [_ H].
  apply (H 3 (call_3 [] AwaitTracks)); reflexivity.
Defined.

(** Not every call that awaits its tracks on a participant who leaves is
    rejected: call 3 on that page is not. *)
Lemma leave_rejects_pending_wait_counterexample :
  ~ (forall st id idx u i p,
       reachable nfc_ascii st ->
       find_first (is_user id) (remoteUsers st) = Some (idx, u) ->
       lookup_pull st i = Some p -> remoteUser p = Some (uref u) ->
       phase p = AwaitTracks ->
       exists e, phase <$> lookup_pull (step nfc_ascii st (Notified (userLeave id))) i
                 = Some (Rejected e)).
Proof.
  intros H.
  destruct (H st_waiting (Js.Str "6725") 0 bob_waiting 3 (call_3 [] AwaitTracks)
              st_waiting_reachable) as [e He]; try (vm_compute; reflexivity).
  vm_compute in He. discriminate.
Qed.

(** An upsert with the number 6725 finds the entry with the stored id
    "6725": the array keeps its one entry. *)
Lemma upsert_keeps_identity_unique_witness :
  ids st_announced = ["6725"] /\
  ids_unique nfc_ascii
    (upsertRemoteUser nfc_ascii (mkUserPayload (Js.Num 6725) None None) st_announced).1 /\
  length (remoteUsers
            (upsertRemoteUser nfc_ascii (mkUserPayload (Js.Num 6725) None None)
               st_announced).1) = 1.
Proof.
  split; [reflexivity|].
  destruct (upsert_keeps_identity_unique nfc_ascii nfc_ascii_idem st_announced
              (mkUserPayload (Js.Num 6725) None None) st_announced_reachable)
    as (_ & Hu & Hin & _).
  split; [exact Hu|].
  destruct (Hin bob_announced) as (idx & _ & _ & _ & _ & Hlen).
  - apply (list_elem_of_lookup_2 _ 0). vm_compute. reflexivity.
  - vm_compute. reflexivity.
  - exact Hlen.
Defined.

(** Call 3 has one spec; the track that arrives is collected, the call is
    fulfilled and its listener removed. *)
Lemma track_wait_counts_delivered_tracks_witness :
  lookup_pull st_waiting 3 = Some (call_3 [] AwaitTracks) /\
  listeners_of st_waiting 0 = [3] /\
  lookup_pull (step nfc_ascii st_waiting (TrackDelivered 0 video)) 3 =
    Some (call_3 [4] Fulfilled).
Proof.
  split; [reflexivity|]. split; [reflexivity|].
  destruct (track_wait_counts_delivered_tracks nfc_ascii st_waiting 0 video 3
              (call_3 [] AwaitTracks) st_waiting_reachable eq_refl)
    as (_ & _ & _ & _ & _ & H).
  destruct H as [H _]; [|exact H].
  change (3 ∈ [3]). apply list_elem_of_here.
Defined.

(** With two calls on the session of "6725", an audio track fulfils call 3,
    whose one spec asks for video. *)
Lemma fulfilled_call_kinds_counterexample :
  ~ (forall st i p,
       reachable nfc_ascii st -> lookup_pull st i = Some p -> phase p = Fulfilled ->
       collected_kinds st p ≡ₚ requested_kinds p).
Proof.
  intros H.
  assert (reachable nfc_ascii (step nfc_ascii st_two_calls (TrackDelivered 0 audio))) as Hr.
  { constructor. apply run_reachable, st_announced_reachable. }
  specialize (H _ 3 (call_3 [5] Fulfilled) Hr).
  assert ([Some audio] ≡ₚ [Some video]) as Hp.
  { apply H; vm_compute; reflexivity. }
  apply Permutation_singleton_r in Hp. discriminate.
Qed.

(** The video of "6725" is muted after the pull request was sent and
    before the track arrives: the track of the buffer is disabled. *)
Lemma appended_track_follows_current_mute_flag_witness :
  remoteUsers st_muted_arrival = [bob_muted] /\
  store st_muted_arrival !! 4 = Some (mkTrack video false (Some 0)) /\
  exists x, store st_muted_arrival !! 4 = Some x /\
            enabled x = negb (mutedFlag bob_muted (kind x)).
Proof.
  assert (remoteUsers st_muted_arrival = [bob_muted]) as E by (vm_compute; reflexivity).
  split; [exact E|]. split; [vm_compute; reflexivity|].
  apply (appended_track_follows_current_mute_flag nfc_ascii st_muted_arrival bob_muted
           (mkMediaStream 2 [4]) 4).
  - apply run_reachable, st_waiting_reachable.
  - rewrite E. apply list_elem_of_here.
  - reflexivity.
  - apply list_elem_of_here.
Defined.

(** The [join] response has code 1 and "6725" is in the array: the page is
    marked joined, nothing is alerted, and "6725" is pulled again. *)
Lemma join_response_with_error_code_joins_witness :
  joinPhase st_requesting = JoinRequesting /\
  wsStatus st_requesting = ws_connected /\
  wsStatus (join_settled nfc_ascii (Ok (mkJoinResponse (Js.Num 1) None)) st_requesting)
    = ws_joined /\
  effects (join_settled nfc_ascii (Ok (mkJoinResponse (Js.Num 1) None)) st_requesting)
    = effects st_requesting /\
  length (pulls (join_settled nfc_ascii (Ok (mkJoinResponse (Js.Num 1) None)) st_requesting))
    = S (length (pulls st_requesting)).
Proof.
  split; [reflexivity|]. split; [reflexivity|].
  destruct (join_response_with_error_code_joins nfc_ascii st_requesting
              (mkJoinResponse (Js.Num 1) None) eq_refl eq_refl) as (_ & Hw & He & _).
  split; [exact Hw|]. split; [exact He|]. vm_compute. reflexivity.
Defined.

(** A payload with the known publication "p1" and the new one "p2" adds
    "p2" and one audio slot. *)
Lemma upsert_adds_only_unknown_publications_witness :
  find_first (same_id nfc_ascii (mkUserPayload (Js.Num 6725) None
                                   (Some [pusher_p1; pusher_p2])))
    (remoteUsers st_announced) = Some (0, bob_announced) /\
  pushers (upsertRemoteUser nfc_ascii
             (mkUserPayload (Js.Num 6725) None (Some [pusher_p1; pusher_p2]))
             st_announced).2 = [pusher_p1; pusher_p2] /\
  NoDup (pusherId <$>
           pushers (upsertRemoteUser nfc_ascii
                      (mkUserPayload (Js.Num 6725) None (Some [pusher_p1; pusher_p2]))
                      st_announced).2).
Proof.
  assert (find_first (same_id nfc_ascii (mkUserPayload (Js.Num 6725) None
                                           (Some [pusher_p1; pusher_p2])))
            (remoteUsers st_announced) = Some (0, bob_announced)) as Hf
    by (vm_compute; reflexivity).
  split; [exact Hf|]. split; [vm_compute; reflexivity|].
  apply (upsert_adds_only_unknown_publications nfc_ascii st_announced
           (mkUserPayload (Js.Num 6725) None (Some [pusher_p1; pusher_p2]))
           st_announced_reachable).
  - intros idx e He. rewrite Hf in He. inversion He. apply NoDup_singleton.
  - apply (bool_decide_unpack _). vm_compute. exact I.
Defined.

(** A payload that names "p1" twice, for an id that no entry has, makes an
    entry with two publications "p1". *)
Lemma publication_ids_stay_unique_counterexample :
  ~ (forall st user,
       reachable nfc_ascii st ->
       (forall u, u ∈ remoteUsers st -> NoDup (pusherId <$> pushers u)) ->
       forall u', u' ∈ remoteUsers (upsertRemoteUser nfc_ascii user st).1 ->
                  NoDup (pusherId <$> pushers u')).
Proof.
  intros H.
  assert (NoDup (pusherId <$> pushers (upsertRemoteUser nfc_ascii user_twice st_joined).2))
    as Hd.
  { apply (H st_joined user_twice (concrete_reachable _)).
    - intros u Hu. inversion Hu.
    - apply (list_elem_of_lookup_2 _ 0). vm_compute. reflexivity. }
  assert (pusherId <$> pushers (upsertRemoteUser nfc_ascii user_twice st_joined).2 =
          ["p1"; "p1"]) as E by (vm_compute; reflexivity).
  rewrite E in Hd. apply NoDup_cons in Hd as [Hd _].
  apply Hd. apply list_elem_of_here.
Qed.

(** The receive session of "6725" has its video slot before the offer of
    call 3 is created. *)
Lemma offer_creation_follows_reservation_witness :
  remoteUsers st_announced = [bob_announced] /\
  createOfferAndEmit_begin (store st_announced)
    (bob_session [video_slot] {["p1" := ""]} None []) =
  (bob_session [video_slot] {["p1" := ""]} None [], Ok ()).
Proof.
  assert (remoteUsers st_announced = [bob_announced]) as E by (vm_compute; reflexivity).
  split; [exact E|].
  destruct (offer_creation_follows_reservation nfc_ascii st_announced bob_announced
              (bob_session [video_slot] {["p1" := ""]} None [])
              st_announced_reachable) as [(_ & _ & H) _].
  - rewrite E. apply list_elem_of_here.
  - reflexivity.
  - exact H.
Defined.

(** With the devices open and published, opening them again keeps the
    capture stream and asks for no capture. *)
Lemma open_local_publish_idempotent_witness :
  sendPcWarp st_published = Some publish_wrap /\
  PCWrap.openDevices publish_wrap (Ok (mkMediaStream 4 [5; 6])) =
    (publish_wrap, Ok capture_stream, false) /\
  nextRef (step nfc_ascii st_published
             (ClickOpen (Ok [audio; video]) (Ok "offer")
                (Ok (mkSdpResponse (Js.Num 0) Js.Undefined "answer")))) =
    nextRef st_published.
Proof.
  assert (sendPcWarp st_published = Some publish_wrap) as Hw by (vm_compute; reflexivity).
  split; [exact Hw|].
  destruct (open_local_publish_idempotent nfc_ascii st_published publish_wrap capture_stream
              (Ok [audio; video]) (Ok "offer")
              (Ok (mkSdpResponse (Js.Num 0) Js.Undefined "answer"))
              eq_refl Hw eq_refl) as (Ho & _ & _ & _ & Hn & _).
  split; [apply Ho|exact Hn].
Defined.

(** The buffer of "6725" (reference 2) is the same object after the track
    arrived, with the track in it. *)
Lemma play_stream_created_once_then_appended_witness :
  remoteUsers st_waiting = [bob_waiting] /\
  remoteUsers (run nfc_ascii st_waiting [TrackDelivered 0 video]) = [bob_playing] /\
  exists s' extra, playStream bob_playing = Some s' /\ sid s' = 2 /\
                   tracks s' = [] ++ extra.
Proof.
  assert (remoteUsers st_waiting = [bob_waiting]) as E by (vm_compute; reflexivity).
  assert (remoteUsers (run nfc_ascii st_waiting [TrackDelivered 0 video]) = [bob_playing])
    as E' by (vm_compute; reflexivity).
  split; [exact E|]. split; [exact E'|].
  destruct (play_stream_created_once_then_appended nfc_ascii st_waiting
              [TrackDelivered 0 video] bob_waiting bob_playing st_waiting_reachable)
    as [_ H].
  - rewrite E. apply list_elem_of_here.
  - rewrite E'. apply list_elem_of_here.
  - reflexivity.
  - apply (H (mkMediaStream 2 [])). reflexivity.
Defined.

(** ** More of PCWrap.ts *)

Lemma reserve_known specs : forall p m,
  (forall spec, spec ∈ specs -> is_Some (m !! pusher_id spec)) ->
  reserve specs p m = (p, m).
Proof.
  induction specs as [|spec rest IH]; intros p m H; cbn; [done|].
  destruct (H spec) as [x Hx]; [left|]. rewrite Hx. apply IH.
  intros s Hs. apply H. by right.
Qed.

Lemma reserve_values specs : forall p m id,
  is_Some (m !! id) -> (reserve specs p m).2 !! id = m !! id.
Proof.
  induction specs as [|spec rest IH]; intros p m id H; cbn; [done|].
  destruct (m !! pusher_id spec) eqn:E; [by apply IH|].
  rewrite IH.
  - apply lookup_insert_ne. intros <-. rewrite E in H. by destruct H.
  - rewrite lookup_insert_ne; [done|]. intros <-. rewrite E in H. by destruct H.
Qed.

(** X1: [addTransceivers] on a recvonly wrapper succeeds; afterwards every
    spec's [pusher_id] is a key of [recvMap], the keys it had keep their
    values, and adding the same specs again changes nothing. *)
Theorem addTransceivers_idempotent (w : PCWrap.t) specs :
  direction w = recvonly ->
  exists w1,
    addTransceivers w specs = Ok w1 /\
    (forall spec, spec ∈ specs -> is_Some (recvMap w1 !! pusher_id spec)) /\
    (forall id, is_Some (recvMap w !! id) -> recvMap w1 !! id = recvMap w !! id) /\
    addTransceivers w1 specs = Ok w1.
Proof.
  intros Hd. rewrite (addTransceivers_recvonly w specs Hd).
  set (p := (initPeerConnection w).1).
  eexists. split; [reflexivity|]. cbn [recvMap].
  assert (forall spec, spec ∈ specs ->
            is_Some ((reserve specs p (recvMap w)).2 !! pusher_id spec)) as Hk.
  { intros spec Hs. apply reserve_dom. right. apply list_elem_of_fmap. by exists spec. }
  split; [exact Hk|]. split; [intros id; apply reserve_values|].
  rewrite addTransceivers_recvonly by done.
  unfold initPeerConnection at 1 2. cbn [pc fst recvMap wid localStream trackListeners].
  by rewrite (reserve_known specs _ _ Hk).
Qed.

(** X2: [close()] keeps [recvMap].  On a closed recvonly wrapper,
    [addTransceivers] with specs whose [pusher_id]s are all keys of
    [recvMap] makes a connection without any transceiver, on which
    [createOfferAndEmit] throws. *)
Theorem closed_wrapper_reserves_nothing (m : TrackStore) (w : PCWrap.t) specs :
  direction w = recvonly ->
  (forall spec, spec ∈ specs -> is_Some (recvMap w !! pusher_id spec)) ->
  exists w1,
    addTransceivers (PCWrap.close w) specs = Ok w1 /\
    recvMap w1 = recvMap w /\
    (exists p, pc w1 = Some p /\ transceivers p = []) /\
    exists e, (createOfferAndEmit_begin m w1).2 = Err e.
Proof.
  intros Hd Hk.
  assert (direction (PCWrap.close w) = recvonly) as Hd' by done.
  rewrite (addTransceivers_recvonly _ specs Hd').
  unfold initPeerConnection. cbn [PCWrap.close pc set_pc set_localStream direction fst
    recvMap wid localStream trackListeners].
  rewrite Hd, bool_decide_eq_true_2 by done. cbn [fst].
  rewrite (reserve_known specs _ _ Hk). cbn [fst snd].
  eexists. split; [reflexivity|]. split; [done|]. split; [by eexists|].
  apply createOfferAndEmit_begin_empty; [done|]. cbn. intros p Hp. by inversion Hp.
Qed.

(** *** Local tracks *)

Lemma attachLocalTracks_pc (store : TrackStore) (w : PCWrap.t) p s :
  pc w = Some p -> localStream w = Some s ->
  attachLocalTracks store w =
  set_pc w (Some (mkPC (transceivers p)
                    (senders p ++
                     filter (fun tr => match store !! tr with
                                       | Some x => existsb (carries store (kind x)) (senders p)
                                       | None => false
                                       end = false) (tracks s))
                    (remoteDescription p))).
Proof. intros Hp Hs. unfold attachLocalTracks. by rewrite Hp, Hs. Qed.

Lemma filter_none {A} (P : A -> Prop) `{!forall x, Decision (P x)} (l : list A) :
  (forall x, x ∈ l -> ~ P x) -> filter P l = [].
Proof.
  induction l as [|a l IH]; intros Hno; [done|].
  rewrite filter_cons_False; [|apply Hno; left]. apply IH. intros x Hx. apply Hno. by right.
Qed.




(** X4: [setLocalStream] on a wrapper whose connection already sends a
    track of every kind the new stream has: the new stream is stored, and
    the connection keeps its senders; no track of the new stream is
    sent. *)
Theorem setLocalStream_keeps_senders (store : TrackStore) (w : PCWrap.t) p s :
  pc w = Some p ->
  (forall tr, tr ∈ tracks s ->
     exists x, store !! tr = Some x /\
               existsb (carries store (kind x)) (senders p) = true) ->
  localStream (setLocalStream store w s) = Some s /\
  pc (setLocalStream store w s) = Some p.
Proof.
  intros Hp Hc. unfold setLocalStream. cbn [pc set_localStream]. rewrite Hp.
  erewrite attachLocalTracks_pc; [|exact Hp|reflexivity]. cbn. split; [done|].
  rewrite filter_none.
  - rewrite app_nil_r. by destruct p.
  - intros tr Htr. destruct (Hc tr Htr) as (x & -> & ->). done.
Qed.


(** ** ProtooClientWrap.ts *)

(** X6: [sendRequest] and [sendNotify] hand the call to the peer exactly
    when [isConnected()] is true, which is exactly when [getState()] is
    'connected'; without a peer they fail with "Not connected", with a
    closed peer with "Peer is closed". *)
Theorem send_succeeds_iff_connected (c : ProtooClientWrap.t) :
  (ProtooClientWrap.sendRequest c = Ok () <-> ProtooClientWrap.isConnected c = true) /\
  (ProtooClientWrap.sendNotify c = Ok () <-> ProtooClientWrap.isConnected c = true) /\
  (ProtooClientWrap.isConnected c = true <->
   ProtooClientWrap.getState c = ProtooClientWrap.state_connected) /\
  (ProtooClientWrap.peer c = None ->
   ProtooClientWrap.sendRequest c = Err "Not connected. Call connect() first.") /\
  (forall p, ProtooClientWrap.peer c = Some p -> ProtooClientWrap.closed p = true ->
   ProtooClientWrap.sendRequest c = Err "Peer is closed.").
Proof.
  unfold ProtooClientWrap.sendRequest, ProtooClientWrap.sendNotify, ProtooClientWrap.guard,
    ProtooClientWrap.isConnected, ProtooClientWrap.getState.
  destruct (ProtooClientWrap.peer c) as [p|]; [destruct (ProtooClientWrap.closed p) eqn:E|];
    cbn; repeat split; try done; try (intros q Hq Hc; inversion Hq; subst; congruence).
Qed.

(** X7: [reconnect()] on a client with a URL closes it and connects with
    no URL: [this.url] is read after [close()] has reset it.  Whether the
    peer for [null] can be built or not, the URL is lost, a peer that was
    built is not for the URL the client had, and a second [reconnect()]
    fails with "No URL to reconnect to". *)
Theorem reconnect_loses_url (c : ProtooClientWrap.t) u made made' :
  ProtooClientWrap.url c = Some u -> u <> "" ->
  ProtooClientWrap.url (ProtooClientWrap.reconnect c made).1 = None /\
  (forall p, ProtooClientWrap.peer (ProtooClientWrap.reconnect c made).1 = Some p ->
     ProtooClientWrap.transport_url p = None) /\
  ProtooClientWrap.reconnect (ProtooClientWrap.reconnect c made).1 made' =
    ((ProtooClientWrap.reconnect c made).1,
     Err "No URL to reconnect to. Call connect() first.").
Proof.
  intros Hu Hne. unfold ProtooClientWrap.reconnect at 1 2 4 5. rewrite Hu.
  assert (Js.truthy_string u = true) as ->.
  { unfold Js.truthy_string. apply negb_true_iff. by apply String.eqb_neq. }
  destruct made as [[]|e]; cbn; (split; [done|]); (split; [|done]).
  - intros p Hp. by inversion Hp.
  - intros p Hp. done.
Qed.

(** X8: [connect(url)] fails with "Already connected" as long as the
    wrapper holds a peer, also a closed one; after [close()] the wrapper
    holds none, its state is 'new', sending fails with "Not connected",
    and [connect(url)] makes a peer for that URL, which counts as
    connected; when the peer cannot be built, the URL is kept all the
    same and the wrapper holds no peer. *)
Theorem connect_needs_close (c : ProtooClientWrap.t) u made :
  (is_Some (ProtooClientWrap.peer c) ->
   ProtooClientWrap.connect c u made = (c, Err "Already connected. Call close() first.") /\
   ProtooClientWrap.connect (ProtooClientWrap.peer_closed c) u made =
     (ProtooClientWrap.peer_closed c, Err "Already connected. Call close() first.")) /\
  ProtooClientWrap.getState (ProtooClientWrap.close c) = ProtooClientWrap.state_new /\
  ProtooClientWrap.sendRequest (ProtooClientWrap.close c) =
    Err "Not connected. Call connect() first." /\
  ProtooClientWrap.connect (ProtooClientWrap.close c) u (Ok ()) =
    (ProtooClientWrap.mk (Some (ProtooClientWrap.mkPeer u false)) u, Ok ()) /\
  ProtooClientWrap.isConnected
    (ProtooClientWrap.connect (ProtooClientWrap.close c) u (Ok ())).1 = true /\
  (forall e, ProtooClientWrap.connect (ProtooClientWrap.close c) u (Err e) =
             (ProtooClientWrap.mk None u, Err e)).
Proof.
  split; [|done]. intros [p Hp]. unfold ProtooClientWrap.connect, ProtooClientWrap.peer_closed.
  cbn. rewrite Hp. done.
Qed.

(** ** Chat and capture *)

(** X18: what Enter in the chat input does.  Input that is blank after
    [trim] does nothing.  When the page is not joined, two alerts are
    raised and the input is kept.  When it is joined and the client is
    connected, the trimmed text is appended as the local participant's
    own message and the input is cleared.  Every message that Enter
    appends is the sender's own, not empty, and without white space at
    its ends. *)
Theorem chat_enter_appends_trimmed_text status client meId meName now chat :
  (Js.trim (chatInput chat) = "" ->
   onChatEnter status client meId meName now chat = (chat, [])) /\
  (Js.trim (chatInput chat) <> "" -> status <> ws_joined ->
   onChatEnter status client meId meName now chat =
     (chat, ["Please join a room first."; "Message send failed: Not joined"])) /\
  (Js.trim (chatInput chat) <> "" -> status = ws_joined ->
   ProtooClientWrap.isConnected client = false ->
   exists e, onChatEnter status client meId meName now chat =
               (chat, ["Message send failed: " +:+ e])) /\
  (Js.trim (chatInput chat) <> "" -> status = ws_joined ->
   ProtooClientWrap.isConnected client = true ->
   onChatEnter status client meId meName now chat =
     (mkChat (chatMessages chat ++
                [mkChatMessage meId (Js.Str meName) (Js.trim (chatInput chat)) true now])
             "", [])) /\
  (forall m, m ∈ chatMessages (onChatEnter status client meId meName now chat).1 ->
     m ∈ chatMessages chat \/
     (c_self m = true /\ c_message m <> "" /\ Js.trim (c_message m) = c_message m)).
Proof.
  unfold onChatEnter, sendMessage, ProtooClientWrap.sendNotify, ProtooClientWrap.guard,
    ProtooClientWrap.isConnected.
  destruct (Js.truthy_string (Js.trim (chatInput chat))) eqn:Ht; cbn [negb].
  - apply truthy_string_true in Ht.
    destruct status; (split; [done|]);
      destruct (ProtooClientWrap.peer client) as [p|];
      try destruct (ProtooClientWrap.closed p); cbn;
      repeat split; try done; try (by eexists); try (intros m Hm; by left).
    intros m Hm. apply elem_of_app in Hm as [Hm|Hm]; [by left|].
    apply list_elem_of_singleton in Hm. subst m. right. cbn.
    split; [done|]. split; [done|apply trim_idem].
  - apply truthy_string_false in Ht. split; [done|]. repeat split; try done.
    intros m Hm. by left.
Qed.

(** X19: the two capture paths agree.  On a wrapper that is not recvonly,
    [PCWrap.openDevices] does what [Device.openDevices] does on a device
    holding the same stream: the same result, [getUserMedia] invoked in
    the same cases, the same stream held afterwards; the connection of
    the wrapper is not touched.  A recvonly wrapper without a stream fails
    without invoking [getUserMedia]. *)
Theorem capture_paths_agree (w : PCWrap.t) (d : Device.t) captured :
  (direction w <> recvonly -> Device.stream d = localStream w ->
   (PCWrap.openDevices w captured).1.2 = (Device.openDevices d captured).1.2 /\
   (PCWrap.openDevices w captured).2 = (Device.openDevices d captured).2 /\
   localStream (PCWrap.openDevices w captured).1.1 =
     Device.stream (Device.openDevices d captured).1.1 /\
   pc (PCWrap.openDevices w captured).1.1 = pc w) /\
  (direction w = recvonly -> localStream w = None ->
   PCWrap.openDevices w captured =
     (w, Err "openDevices() not valid in recvonly mode", false)).
Proof.
  unfold PCWrap.openDevices, Device.openDevices. split.
  - intros Hd E. rewrite E. destruct (localStream w) as [s|] eqn:Es.
    { cbn. split_and!; congruence. }
    rewrite bool_decide_eq_false_2 by done. destruct captured; cbn; split_and!; congruence.
  - intros Hd ->. by rewrite bool_decide_eq_true_2.
Qed.

(** ** Examples for the properties above *)

(** Two specs for "p1" and one for "p2" reserve two slots; adding them
    again changes nothing. *)
Lemma addTransceivers_idempotent_witness :
  exists w1,
    addTransceivers (PCWrap.new 1 recvonly)
      [mkSpec video "p1"; mkSpec audio "p2"; mkSpec video "p1"] = Ok w1 /\
    (transceivers <$> pc w1) = Some [video_slot; audio_slot] /\
    addTransceivers w1 [mkSpec video "p1"; mkSpec audio "p2"; mkSpec video "p1"] = Ok w1.
Proof.
  destruct (addTransceivers_idempotent (PCWrap.new 1 recvonly)
              [mkSpec video "p1"; mkSpec audio "p2"; mkSpec video "p1"] eq_refl)
    as (w1 & H1 & _ & _ & H2).
  exists w1. split; [exact H1|]. split; [|exact H2].
  vm_compute in H1. injection H1 as <-. reflexivity.
Defined.

(** The session of "6725", closed, reserves nothing for "p1" again. *)
Lemma closed_wrapper_reserves_nothing_witness :
  exists w1,
    addTransceivers (PCWrap.close (bob_session [video_slot] {["p1" := ""]} None []))
      [mkSpec video "p1"] = Ok w1 /\
    exists e, (createOfferAndEmit_begin ∅ w1).2 = Err e.
Proof.
  destruct (closed_wrapper_reserves_nothing ∅
              (bob_session [video_slot] {["p1" := ""]} None []) [mkSpec video "p1"])
    as (w1 & H1 & _ & _ & H2).
  - reflexivity.
  - intros spec Hs. apply list_elem_of_singleton in Hs. subst spec. by eexists.
  - exists w1. split; [exact H1|exact H2].
Defined.


(** A second capture set on the published wrapper: the senders stay the
    tracks of the first capture. *)
Lemma setLocalStream_keeps_senders_witness :
  localStream (setLocalStream local_tracks publish_wrap second_stream) = Some second_stream /\
  pc (setLocalStream local_tracks publish_wrap second_stream) =
    Some (mkPC [] [2; 3] (Some "answer")).
Proof.
  apply (setLocalStream_keeps_senders local_tracks publish_wrap
           (mkPC [] [2; 3] (Some "answer")) second_stream eq_refl).
  intros tr Htr. apply elem_of_cons in Htr as [->|Htr].
  - exists (mkTrack audio true None). split; reflexivity.
  - apply list_elem_of_singleton in Htr. subst tr.
    exists (mkTrack video true None). split; reflexivity.
Defined.


(** Reconnecting the connected client leaves it with a peer built for no
    URL, and without its URL. *)
Lemma reconnect_loses_url_witness :
  ProtooClientWrap.reconnect client_connected (Ok ()) =
    (ProtooClientWrap.mk (Some (ProtooClientWrap.mkPeer None false)) None, Ok ()) /\
  ProtooClientWrap.url (ProtooClientWrap.reconnect client_connected (Ok ())).1 = None.
Proof.
  split; [reflexivity|].
  apply (reconnect_loses_url client_connected "ws://192.168.1.4:7443/webrtc" (Ok ()) (Ok ())
           eq_refl).
  discriminate.
Defined.

Lemma st_playing_reachable : reachable nfc_ascii st_playing.
Proof. apply run_reachable, st_waiting_reachable. Qed.

(** The socket failed after the first Join click; a second click only
    alerts. *)
Lemma join_click_is_one_shot_witness :
  wsPeer (step nfc_ascii initial ClickJoin) = true /\
  effects (step nfc_ascii (run nfc_ascii (step nfc_ascii initial ClickJoin) [SocketFailed])
             ClickJoin) =
    [Alert "Failed to connect: Failed to connect to protoo server";
     Alert "Failed to connect: Already connected. Call close() first."].
Proof.
  split; [reflexivity|].
  destruct (join_click_is_one_shot nfc_ascii (step nfc_ascii initial ClickJoin) [SocketFailed]
              eq_refl) as [_ H].
  rewrite H. reflexivity.
Defined.


(** The track of the buffer of "6725" was delivered by its session. *)
Lemma buffer_holds_own_session_tracks_witness :
  remoteUsers st_playing = [bob_playing] /\
  exists x, store st_playing !! 4 = Some x /\ session x = Some 0.
Proof.
  assert (remoteUsers st_playing = [bob_playing]) as E by (vm_compute; reflexivity).
  split; [exact E|].
  destruct (buffer_holds_own_session_tracks nfc_ascii st_playing bob_playing bob_playing
              (mkMediaStream 2 [4]) (mkMediaStream 2 [4]) 4 st_playing_reachable)
    as [H _]; try (rewrite E; apply list_elem_of_here); try reflexivity.
  - apply list_elem_of_here.
  - exact H.
Defined.

(** "6725" disconnects and reconnects. *)
Lemma disconnect_then_reconnect_restores_witness :
  find_first (is_user (Js.Str "6725")) (remoteUsers st_announced) = Some (0, bob_announced) /\
  (state <$> remoteUsers
     (step nfc_ascii (step nfc_ascii st_announced (Notified (userDisconnect (Js.Str "6725"))))
        (Notified (userReconnect (Js.Str "6725"))))) = [Some connected].
Proof.
  assert (find_first (is_user (Js.Str "6725")) (remoteUsers st_announced) =
          Some (0, bob_announced)) as Hf by (vm_compute; reflexivity).
  split; [exact Hf|].
  destruct (disconnect_then_reconnect_restores nfc_ascii st_announced (Js.Str "6725") 0
              bob_announced Hf) as [_ H].
  rewrite H. vm_compute. reflexivity.
Defined.

(** Muting the video of "6725" disables its video track. *)
Lemma mute_click_touches_only_its_kind_witness :
  find_first (has_uref 0) (remoteUsers st_playing) = Some (0, bob_playing) /\
  store (step nfc_ascii st_playing (ClickMute video 0)) !! 4 =
    Some (mkTrack video false (Some 0)).
Proof.
  assert (find_first (has_uref 0) (remoteUsers st_playing) = Some (0, bob_playing)) as Hf
    by (vm_compute; reflexivity).
  split; [exact Hf|].
  destruct (mute_click_touches_only_its_kind nfc_ascii st_playing video 0 0 bob_playing Hf)
    as [H _].
  rewrite H. vm_compute. reflexivity.
Defined.

(** Muting and unmuting the video of "6725". *)
Lemma mute_twice_restores_witness :
  store (step nfc_ascii (step nfc_ascii st_playing (ClickMute video 0)) (ClickMute video 0)) =
  store st_playing.
Proof.
  assert (find_first (has_uref 0) (remoteUsers st_playing) = Some (0, bob_playing)) as Hf
    by (vm_compute; reflexivity).
  destruct (mute_twice_restores nfc_ascii st_playing video 0 0 bob_playing
              st_playing_reachable Hf) as [H _].
  exact H.
Defined.

(** "6725" is announced on the joined page: its call awaits its offer. *)
Lemma notified_subscribe_call_proceeds_witness :
  pulls (upsert_and_pull nfc_ascii st_joined user_6725) = [call_3 [] AwaitOffer].
Proof.
  destruct (notified_subscribe_call_proceeds nfc_ascii nfc_ascii_idem st_joined user_6725
              (concrete_reachable _)) as [_ H].
  rewrite H; [vm_compute; reflexivity|]. vm_compute. discriminate.
Defined.

(** The element of "6725" was mounted before the track arrived. *)
Lemma mounted_video_plays_the_buffer_witness :
  remoteUsers st_mounted = [bob_mounted] /\
  srcObject (mkVideo (Some 2) false "") = Some 2.
Proof.
  assert (remoteUsers st_mounted = [bob_mounted]) as E by (vm_compute; reflexivity).
  split; [exact E|].
  apply (mounted_video_plays_the_buffer nfc_ascii st_mounted bob_mounted
           (mkVideo (Some 2) false "") (mkMediaStream 2 [4])).
  - apply run_reachable, st_waiting_reachable.
  - rewrite E. apply list_elem_of_here.
  - reflexivity.
  - reflexivity.
  - discriminate.
Defined.

(** Call 3 is fulfilled; another track of the session leaves it alone. *)
Lemma settled_call_is_final_witness :
  lookup_pull st_playing 3 = Some (call_3 [4] Fulfilled) /\
  lookup_pull (run nfc_ascii st_playing [TrackDelivered 0 audio]) 3 =
    Some (call_3 [4] Fulfilled).
Proof.
  split; [reflexivity|].
  apply (settled_call_is_final nfc_ascii st_playing 3 (call_3 [4] Fulfilled)
           [TrackDelivered 0 audio] st_playing_reachable eq_refl).
  by left.
Defined.
End App.
